(** * Dual stepper-motor motion kernel

    A shallow embedding of the single-board firmware (the dual-motor sketch
    with [MAX_SPEED 20000], [ACCEL_RATE 8000] and the boost and sync
    subsystems): the per-tick speed ramp [updateSpeed], the timer commitment
    [updateTimers], the command dispatcher [processCommand] with [setSpeed],
    [setDirection], [stopMotor], [emergencyStop], [applyBoost], and the drift
    check [checkSync].

    The firmware is embedded twice, function by function and with the same
    names.
    - The first embedding computes the [float] fields with exact rationals
      ([Q]): no rounding, no infinities, no NaN.  It carries the properties
      of the control flow: which branch runs, which fields are written,
      how many ticks a ramp or a wait takes on speeds that are multiples of
      the step, what the timers and the outputs do.
    - The second embedding (module [Binary32]) computes them as the board
      does, with IEEE 754 binary32 numbers: round to nearest even, signed
      zeros, infinities and NaN.  It carries the properties that depend on
      the value of a [float]: the speed bounds, the size of one ramp step,
      and what [constrain] does with the number a command delivers.

    Modelling conventions common to both.
    - [unsigned long] (32 bits on this board) is a [Z] reduced modulo [2^32]
      wherever the firmware computes with it ([millis] differences).
      [uint16_t] is a [Z] reduced modulo [2^16]; [long] is a [Z] wrapped to the
      signed 32-bit range.
    - The macros [abs] and [constrain] are written out.
    - The two global [Motor] objects live in one [State] record together with
      the global [boostConfig], the millisecond clock, the digital outputs and
      the text written to [Serial]; a [Motor &m] parameter is a handle
      ([MotorId]) into that record.
    - [delay n] advances the clock by [n] ms; everything else takes no time.
    - The busy-wait loops take a fuel argument and return [None] when it runs
      out; termination results are stated as "enough fuel gives [Some]".
    - The text tokenizer of [processCommand] is replaced by the already
      tokenized [Command]; the numeric fields are the results of [toFloat]
      and [toInt]. *)

From Stdlib Require Import ZArith QArith Qabs Qround Qminmax Qpower Lqa Lia
  List Bool String SpecFloat.
Import ListNotations.
Local Open Scope Q_scope.

(** * The exact-rational embedding *)

(** ** Numeric helpers *)

(** [a > b] and [a < b] on floats, as booleans. *)
Definition Qgtb (a b : Q) : bool := negb (Qle_bool a b).
Definition Qltb (a b : Q) : bool := negb (Qle_bool b a).

(** The [abs] macro: [(x) > 0 ? (x) : -(x)]. *)
Definition abs (x : Q) : Q := if Qgtb x 0 then x else - x.

(** The [constrain] macro:
    [(amt) < (low) ? (low) : ((amt) > (high) ? (high) : (amt))]. *)
Definition constrain (amt low high : Q) : Q :=
  if Qltb amt low then low else if Qgtb amt high then high else amt.

(** [unsigned long] arithmetic. *)
Definition wrap32 (z : Z) : Z := (z mod 2 ^ 32)%Z.

(** Conversion to [uint16_t]. *)
Definition wrap16 (z : Z) : Z := (z mod 2 ^ 16)%Z.

(** Conversion to (signed, 32-bit) [long]. *)
Definition LONG_MIN : Z := (- 2 ^ 31)%Z.
Definition LONG_MAX : Z := (2 ^ 31 - 1)%Z.
Definition wrap_long (z : Z) : Z := ((z + 2 ^ 31) mod 2 ^ 32 - 2 ^ 31)%Z.

(** [abs] on a [long]. *)
Definition abs_long (z : Z) : Z := wrap_long (if (z >? 0)%Z then z else - z).

(** ** Constants *)

Definition M1_PWM_PIN : Z := 2.
Definition M1_DIR_PIN : Z := 3.
Definition M2_PWM_PIN : Z := 4.
Definition M2_DIR_PIN : Z := 5.
Definition LED_BUILTIN : Z := 13.

Definition MAX_SPEED : Q := 20000.
Definition MIN_SPEED : Q := 100.
Definition ACCEL_RATE : Q := 8000.

Definition BOOST_MULTIPLIER : Q := 3 # 2.
Definition BOOST_DURATION : Z := 800.

Definition SYNC_CHECK_INTERVAL : Z := 1000.
Definition SYNC_THRESHOLD : Z := 100.

Definition accelUpdateInterval : Z := 10.

(** ** Data model *)

Record BoostConfig := mkBoostConfig {
  multiplier : Q;
  duration : Z;        (* uint16_t, ms *)
  enabled : bool
}.

(** [timer] stands for the [IntervalTimer] member: [None] after [end()],
    [Some p] after [begin(isr, p)] with [p] the period in microseconds. *)
Record Motor := mkMotor {
  pwmPin : Z;
  dirPin : Z;
  position : Z;
  currentSpeed : Q;
  targetSpeed : Q;
  isRunning : bool;
  direction : Z;       (* 1 = forward, -1 = backward *)
  timer : option Q;
  name : string;
  boostActive : bool;
  boostStartTime : Z;
  boostSpeed : Q;
  normalSpeed : Q
}.

Definition set_position (v : Z) (m : Motor) : Motor :=
  mkMotor (pwmPin m) (dirPin m) v (currentSpeed m) (targetSpeed m)
          (isRunning m) (direction m) (timer m) (name m) (boostActive m)
          (boostStartTime m) (boostSpeed m) (normalSpeed m).
Definition set_currentSpeed (v : Q) (m : Motor) : Motor :=
  mkMotor (pwmPin m) (dirPin m) (position m) v (targetSpeed m)
          (isRunning m) (direction m) (timer m) (name m) (boostActive m)
          (boostStartTime m) (boostSpeed m) (normalSpeed m).
Definition set_targetSpeed (v : Q) (m : Motor) : Motor :=
  mkMotor (pwmPin m) (dirPin m) (position m) (currentSpeed m) v
          (isRunning m) (direction m) (timer m) (name m) (boostActive m)
          (boostStartTime m) (boostSpeed m) (normalSpeed m).
Definition set_isRunning (v : bool) (m : Motor) : Motor :=
  mkMotor (pwmPin m) (dirPin m) (position m) (currentSpeed m) (targetSpeed m)
          v (direction m) (timer m) (name m) (boostActive m)
          (boostStartTime m) (boostSpeed m) (normalSpeed m).
Definition set_direction (v : Z) (m : Motor) : Motor :=
  mkMotor (pwmPin m) (dirPin m) (position m) (currentSpeed m) (targetSpeed m)
          (isRunning m) v (timer m) (name m) (boostActive m)
          (boostStartTime m) (boostSpeed m) (normalSpeed m).
Definition set_timer (v : option Q) (m : Motor) : Motor :=
  mkMotor (pwmPin m) (dirPin m) (position m) (currentSpeed m) (targetSpeed m)
          (isRunning m) (direction m) v (name m) (boostActive m)
          (boostStartTime m) (boostSpeed m) (normalSpeed m).
Definition set_boostActive (v : bool) (m : Motor) : Motor :=
  mkMotor (pwmPin m) (dirPin m) (position m) (currentSpeed m) (targetSpeed m)
          (isRunning m) (direction m) (timer m) (name m) v
          (boostStartTime m) (boostSpeed m) (normalSpeed m).
Definition set_boostStartTime (v : Z) (m : Motor) : Motor :=
  mkMotor (pwmPin m) (dirPin m) (position m) (currentSpeed m) (targetSpeed m)
          (isRunning m) (direction m) (timer m) (name m) (boostActive m)
          v (boostSpeed m) (normalSpeed m).
Definition set_boostSpeed (v : Q) (m : Motor) : Motor :=
  mkMotor (pwmPin m) (dirPin m) (position m) (currentSpeed m) (targetSpeed m)
          (isRunning m) (direction m) (timer m) (name m) (boostActive m)
          (boostStartTime m) v (normalSpeed m).
Definition set_normalSpeed (v : Q) (m : Motor) : Motor :=
  mkMotor (pwmPin m) (dirPin m) (position m) (currentSpeed m) (targetSpeed m)
          (isRunning m) (direction m) (timer m) (name m) (boostActive m)
          (boostStartTime m) (boostSpeed m) v.

Inductive MotorId := M1 | M2.

(** The selector prefix of a command: [M1:], [M2:] or none (both motors). *)
Inductive Target := Both | One (id : MotorId).

(** Lines written to [Serial], one constructor per message of the firmware;
    numbers are kept as numbers. *)
Inductive SerialMsg :=
| MsgBoostComplete (n : string)
| MsgSlowing (n : string)
| MsgBoostActivated (n : string) (speed : Q) (dur : Z)
| MsgSyncWarning (posDiff p1 p2 : Z)
| MsgSpeedSet (t : Target) (speed : Q)
| MsgDirection (t : Target) (dir : Z)
| MsgStopped (t : Target)
| MsgEstopRamping
| MsgEstopDone
| MsgEstopAll
| MsgRunning (t : Target)
| MsgStatus (m1 m2 : Motor) (drift : Z)
| MsgReset (t : Target)
| MsgSpin (dir : Z) (speed : Q)
| MsgInvalidSpin
| MsgBoost (d1 d2 : Z) (speed : Q)
| MsgInvalidBoost
| MsgSynchronized
| MsgBoostConfig (c : BoostConfig)
| MsgConfigUsage
| MsgUnknown.

Record State := mkState {
  motor1 : Motor;
  motor2 : Motor;
  boostConfig : BoostConfig;
  clock : Z;                  (* millis() *)
  pins : Z -> bool;           (* digital outputs, true = HIGH *)
  serial : list SerialMsg;    (* newest first *)
  lastAccelUpdate : Z;
  lastSyncCheck : Z;
  lastBlink : Z
}.

Definition getM (id : MotorId) (s : State) : Motor :=
  match id with M1 => motor1 s | M2 => motor2 s end.

Definition setM (id : MotorId) (m : Motor) (s : State) : State :=
  match id with
  | M1 => mkState m (motor2 s) (boostConfig s) (clock s) (pins s) (serial s)
                  (lastAccelUpdate s) (lastSyncCheck s) (lastBlink s)
  | M2 => mkState (motor1 s) m (boostConfig s) (clock s) (pins s) (serial s)
                  (lastAccelUpdate s) (lastSyncCheck s) (lastBlink s)
  end.

(** [m.field = v] through a handle. *)
Definition modM (id : MotorId) (f : Motor -> Motor) (s : State) : State :=
  setM id (f (getM id s)) s.

Definition set_boostConfig (c : BoostConfig) (s : State) : State :=
  mkState (motor1 s) (motor2 s) c (clock s) (pins s) (serial s)
          (lastAccelUpdate s) (lastSyncCheck s) (lastBlink s).
Definition set_clock (t : Z) (s : State) : State :=
  mkState (motor1 s) (motor2 s) (boostConfig s) t (pins s) (serial s)
          (lastAccelUpdate s) (lastSyncCheck s) (lastBlink s).
Definition set_pins (p : Z -> bool) (s : State) : State :=
  mkState (motor1 s) (motor2 s) (boostConfig s) (clock s) p (serial s)
          (lastAccelUpdate s) (lastSyncCheck s) (lastBlink s).
Definition set_lastAccelUpdate (t : Z) (s : State) : State :=
  mkState (motor1 s) (motor2 s) (boostConfig s) (clock s) (pins s) (serial s)
          t (lastSyncCheck s) (lastBlink s).
Definition set_lastSyncCheck (t : Z) (s : State) : State :=
  mkState (motor1 s) (motor2 s) (boostConfig s) (clock s) (pins s) (serial s)
          (lastAccelUpdate s) t (lastBlink s).
Definition set_lastBlink (t : Z) (s : State) : State :=
  mkState (motor1 s) (motor2 s) (boostConfig s) (clock s) (pins s) (serial s)
          (lastAccelUpdate s) (lastSyncCheck s) t.

(** [Serial.println]. *)
Definition println (msg : SerialMsg) (s : State) : State :=
  mkState (motor1 s) (motor2 s) (boostConfig s) (clock s) (pins s)
          (msg :: serial s)
          (lastAccelUpdate s) (lastSyncCheck s) (lastBlink s).

(** [digitalWrite(pin, level)]. *)
Definition digitalWrite (pin : Z) (level : bool) (s : State) : State :=
  set_pins (fun p => if (p =? pin)%Z then level else pins s p) s.

(** [millis()] and [delay(ms)]. *)
Definition millis (s : State) : Z := clock s.
Definition delay (ms : Z) (s : State) : State :=
  set_clock (wrap32 (clock s + ms)) s.

(** The state after the global initialisers and [setup()]: both motors at
    rest, forward, timers not started, all outputs low. *)
Definition motor_init (pwm dir : Z) (n : string) : Motor :=
  mkMotor pwm dir 0 0 0 false 1 None n false 0 0 0.

Definition init : State :=
  mkState (motor_init M1_PWM_PIN M1_DIR_PIN "Motor1")
          (motor_init M2_PWM_PIN M2_DIR_PIN "Motor2")
          (mkBoostConfig BOOST_MULTIPLIER BOOST_DURATION true)
          0 (fun _ => false) [] 0 0 0.

(** ** Step pulser (interrupt context) *)

(** [stepISR_M1] / [stepISR_M2]: one pulse on the step output, then
    [position += direction]. *)
Definition stepISR (id : MotorId) (s : State) : State :=
  let s := digitalWrite (pwmPin (getM id s)) true s in
  let s := digitalWrite (pwmPin (getM id s)) false s in
  modM id (fun m => set_position (wrap_long (position m + direction m)) m) s.

Definition stepISR_M1 : State -> State := stepISR M1.
Definition stepISR_M2 : State -> State := stepISR M2.

(** ** Commands, as handed over by the tokenizer *)

Inductive SpinDir := SpinLeft | SpinRight | SpinInvalid.
Inductive BoostDir :=
  BoostLeft | BoostRight | BoostForward | BoostBackward | BoostInvalid.

Inductive Command :=
| CmdSpeed (t : Target) (speed : Q)            (* SPEED:v, S:v *)
| CmdForward (t : Target)                      (* FORWARD, FWD, F *)
| CmdBackward (t : Target)                     (* BACKWARD, BACK, B *)
| CmdStop (t : Target)                         (* STOP, X *)
| CmdEstop                                     (* ESTOP, E *)
| CmdRun (t : Target)                          (* RUN, R *)
| CmdStatus                                    (* STATUS, ? *)
| CmdReset (t : Target)                        (* RESET, RST *)
| CmdSpin (d : SpinDir) (speed : Q)            (* SPIN:dir:v *)
| CmdBoost (d : BoostDir) (speed : Q)          (* BOOST:dir:v *)
| CmdSync                                      (* SYNC *)
| CmdConfigBoost (mult : Q) (dur : Z) (en : Z) (* CONFIG:BOOST:m:d:e *)
| CmdConfigOther                               (* CONFIG:anything else *)
| CmdUnknown.

(** Sequencing of calls that may run out of fuel. *)
Definition bind {A B : Type} (x : option A) (k : A -> option B) : option B :=
  match x with Some a => k a | None => None end.

Notation "x <- e ;; k" := (bind e (fun x => k))
  (at level 61, e at next level, right associativity).

(** ** The motion kernel

    The acceleration constant is a section variable, so that results can be
    stated for the firmware's [ACCEL_RATE] and, where the claim asks for it,
    for every value of it. *)

Section Kernel.

Variable rate : Q.

(** [float accelStep = (ACCEL_RATE * accelUpdateInterval) / 1000.0]. *)
Definition accelStep : Q := (rate * inject_Z accelUpdateInterval) / 1000.

Definition updateSpeed (id : MotorId) (s : State) : State :=
  if negb (isRunning (getM id s)) then
    let s := modM id (set_timer None) s in
    modM id (set_currentSpeed 0) s
  else
    (* boost expiry *)
    let s :=
      if boostActive (getM id s)
         && (duration (boostConfig s)
               <=? wrap32 (millis s - boostStartTime (getM id s)))%Z
      then
        let s := modM id (set_boostActive false) s in
        let s := modM id (fun m => set_targetSpeed (normalSpeed m) m) s in
        println (MsgBoostComplete (name (getM id s))) s
      else s in
    let speedDiff := targetSpeed (getM id s) - currentSpeed (getM id s) in
    (* smooth acceleration / deceleration *)
    let s :=
      if Qgtb (abs speedDiff) accelStep then
        if Qgtb speedDiff 0
        then modM id (fun m => set_currentSpeed (currentSpeed m + accelStep) m) s
        else modM id (fun m => set_currentSpeed (currentSpeed m - accelStep) m) s
      else modM id (fun m => set_currentSpeed (targetSpeed m) m) s in
    (* constrain speed *)
    modM id (fun m => set_currentSpeed
                        (constrain (currentSpeed m) 0 MAX_SPEED) m) s.

(** One of the two blocks of [updateTimers]. *)
Definition updateTimer (id : MotorId) (s : State) : State :=
  if Qgtb (currentSpeed (getM id s)) 0 && isRunning (getM id s) then
    let timerPeriod := 1000000 / currentSpeed (getM id s) in
    let s := modM id (set_timer None) s in
    modM id (set_timer (Some timerPeriod)) s
  else
    modM id (set_timer None) s.

Definition updateTimers (s : State) : State :=
  let s := updateTimer M1 s in
  updateTimer M2 s.

Definition setSpeed (id : MotorId) (speed : Q) (s : State) : State :=
  let speed := constrain speed 0 MAX_SPEED in
  let s := modM id (set_targetSpeed speed) s in
  if Qgtb speed 0 && negb (isRunning (getM id s)) then
    modM id (set_isRunning true) s
  else if Qeq_bool speed 0 then
    modM id (set_isRunning false) s
  else s.

(** [while (m.currentSpeed > limit) { updateSpeed(m); delay(...); }], the
    wait loop of [setDirection] (limit 300) and of [stopMotor] (limit 1). *)
Fixpoint waitBelow (limit : Q) (fuel : nat) (id : MotorId) (s : State)
  {struct fuel} : option State :=
  if Qgtb (currentSpeed (getM id s)) limit then
    match fuel with
    | O => None
    | S fuel' =>
        waitBelow limit fuel' id (delay accelUpdateInterval (updateSpeed id s))
    end
  else Some s.

(** [digitalWrite(m.dirPin, m.direction == 1 ? LOW : HIGH)]. *)
Definition writeDirPin (id : MotorId) (s : State) : State :=
  digitalWrite (dirPin (getM id s)) (negb (direction (getM id s) =? 1)%Z) s.

Definition setDirection (fuel : nat) (id : MotorId) (dir : Z) (s : State)
  : option State :=
  let newDir := if (dir >=? 0)%Z then 1%Z else (-1)%Z in
  if negb (newDir =? direction (getM id s))%Z
     && Qgtb (currentSpeed (getM id s)) 500 then
    let s := println (MsgSlowing (name (getM id s))) s in
    (* reduce speed before direction change *)
    let originalTarget := targetSpeed (getM id s) in
    let s := modM id (set_targetSpeed 200) s in
    s <- waitBelow 300 fuel id s ;;
    (* now safe to change direction *)
    let s := modM id (set_direction newDir) s in
    let s := writeDirPin id s in
    (* restore target speed *)
    Some (modM id (set_targetSpeed originalTarget) s)
  else
    let s := modM id (set_direction newDir) s in
    Some (writeDirPin id s).

Definition stopMotor (fuel : nat) (id : MotorId) (s : State) : option State :=
  let s := modM id (set_targetSpeed 0) s in
  s <- waitBelow 1 fuel id s ;;
  let s := modM id (set_isRunning false) s in
  let s := modM id (set_timer None) s in
  Some (modM id (set_currentSpeed 0) s).

(** The loop condition of [emergencyStop]. *)
Definition estopCond (stopStartTime : Z) (s : State) : bool :=
  (Qgtb (currentSpeed (motor1 s)) 1 || Qgtb (currentSpeed (motor2 s)) 1)
  && (wrap32 (millis s - stopStartTime) <? 500)%Z.

(** The loop body of [emergencyStop]. *)
Definition estopBody (s : State) : State :=
  let s := updateSpeed M1 s in
  let s := updateSpeed M2 s in
  delay accelUpdateInterval s.

Fixpoint estopLoop (stopStartTime : Z) (fuel : nat) (s : State)
  {struct fuel} : option State :=
  if estopCond stopStartTime s then
    match fuel with
    | O => None
    | S fuel' => estopLoop stopStartTime fuel' (estopBody s)
    end
  else Some s.

(** The tail of [emergencyStop], after the loop: "force complete stop". *)
Definition estopForce (s : State) : State :=
  let s := modM M1 (set_timer None) s in
  let s := modM M2 (set_timer None) s in
  let s := modM M1 (set_isRunning false) s in
  let s := modM M2 (set_isRunning false) s in
  let s := modM M1 (set_currentSpeed 0) s in
  let s := modM M2 (set_currentSpeed 0) s in
  let s := digitalWrite M1_PWM_PIN false s in
  let s := digitalWrite M2_PWM_PIN false s in
  println MsgEstopDone s.

(** The head of [emergencyStop], before the loop. *)
Definition estopStart (s : State) : State :=
  let s := println MsgEstopRamping s in
  let s := modM M1 (set_targetSpeed 0) s in
  modM M2 (set_targetSpeed 0) s.

Definition emergencyStop (fuel : nat) (s : State) : option State :=
  let s := estopStart s in
  let stopStartTime := millis s in
  s <- estopLoop stopStartTime fuel s ;;
  Some (estopForce s).

Definition printStatus (s : State) : State :=
  let posDiff := abs_long (wrap_long (position (motor1 s) - position (motor2 s))) in
  println (MsgStatus (motor1 s) (motor2 s) posDiff) s.

Definition applyBoost (id : MotorId) (targetSpeed : Q) (s : State) : State :=
  if negb (enabled (boostConfig s)) then
    (* boost disabled - use normal speed *)
    setSpeed id targetSpeed s
  else
    let boostSpeed := targetSpeed * multiplier (boostConfig s) in
    (* safety cap *)
    let boostSpeed := if Qgtb boostSpeed MAX_SPEED then MAX_SPEED else boostSpeed in
    let s := modM id (set_normalSpeed targetSpeed) s in
    let s := modM id (set_boostSpeed boostSpeed) s in
    let s := modM id (set_boostActive true) s in
    let s := modM id (set_boostStartTime (millis s)) s in
    let s := modM id (set_targetSpeed boostSpeed) s in
    println (MsgBoostActivated (name (getM id s)) boostSpeed
                               (duration (boostConfig s))) s.

Definition checkSync (s : State) : State :=
  let posDiff := abs_long (wrap_long (position (motor1 s) - position (motor2 s))) in
  if (posDiff >? SYNC_THRESHOLD)%Z
     && (isRunning (motor1 s) || isRunning (motor2 s))
  then println (MsgSyncWarning posDiff (position (motor1 s)) (position (motor2 s))) s
  else s.

(** Run [f] on the selected motor, or on motor 1 and then motor 2. *)
Definition onTarget (t : Target) (f : MotorId -> State -> State) (s : State)
  : State :=
  match t with
  | One id => f id s
  | Both => f M2 (f M1 s)
  end.

Definition onTargetOpt (t : Target) (f : MotorId -> State -> option State)
  (s : State) : option State :=
  match t with
  | One id => f id s
  | Both => s <- f M1 s ;; f M2 s
  end.

(** The body shared by the SPIN and BOOST branches: both directions, both
    speeds (plain or boosted), both run flags. *)
Definition turn (fuel : nat) (d1 d2 : Z)
  (speedFn : MotorId -> Q -> State -> State) (speed : Q) (s : State)
  : option State :=
  s <- setDirection fuel M1 d1 s ;;
  s <- setDirection fuel M2 d2 s ;;
  let s := speedFn M1 speed s in
  let s := speedFn M2 speed s in
  let s := modM M1 (set_isRunning true) s in
  Some (modM M2 (set_isRunning true) s).

Definition processCommand (fuel : nat) (cmd : Command) (s : State)
  : option State :=
  match cmd with
  | CmdSpeed t speed =>
      let s := onTarget t (fun id => setSpeed id speed) s in
      Some (println (MsgSpeedSet t speed) s)
  | CmdForward t =>
      s <- onTargetOpt t (fun id => setDirection fuel id 1) s ;;
      Some (println (MsgDirection t 1) s)
  | CmdBackward t =>
      s <- onTargetOpt t (fun id => setDirection fuel id (-1)) s ;;
      Some (println (MsgDirection t (-1)) s)
  | CmdStop t =>
      s <- onTargetOpt t (stopMotor fuel) s ;;
      Some (println (MsgStopped t) s)
  | CmdEstop =>
      s <- emergencyStop fuel s ;;
      Some (println MsgEstopAll s)
  | CmdRun t =>
      let s := onTarget t (fun id => modM id (set_isRunning true)) s in
      Some (println (MsgRunning t) s)
  | CmdStatus => Some (printStatus s)
  | CmdReset t =>
      let s := onTarget t (fun id => modM id (set_position 0)) s in
      s <- onTargetOpt t (stopMotor fuel) s ;;
      Some (println (MsgReset t) s)
  | CmdSpin SpinLeft speed =>
      s <- turn fuel (-1) 1 setSpeed speed s ;;
      Some (println (MsgSpin (-1) speed) s)
  | CmdSpin SpinRight speed =>
      s <- turn fuel 1 (-1) setSpeed speed s ;;
      Some (println (MsgSpin 1 speed) s)
  | CmdSpin SpinInvalid _ => Some (println MsgInvalidSpin s)
  | CmdBoost BoostLeft speed =>
      s <- turn fuel (-1) 1 applyBoost speed s ;;
      Some (println (MsgBoost (-1) 1 speed) s)
  | CmdBoost BoostRight speed =>
      s <- turn fuel 1 (-1) applyBoost speed s ;;
      Some (println (MsgBoost 1 (-1) speed) s)
  | CmdBoost BoostForward speed =>
      s <- turn fuel 1 1 applyBoost speed s ;;
      Some (println (MsgBoost 1 1 speed) s)
  | CmdBoost BoostBackward speed =>
      s <- turn fuel (-1) (-1) applyBoost speed s ;;
      Some (println (MsgBoost (-1) (-1) speed) s)
  | CmdBoost BoostInvalid _ => Some (println MsgInvalidBoost s)
  | CmdSync =>
      let s := modM M1 (set_position 0) s in
      let s := modM M2 (set_position 0) s in
      Some (println MsgSynchronized s)
  | CmdConfigBoost mult dur en =>
      (* boostConfig.multiplier = ...toFloat();
         boostConfig.duration = ...toInt();
         boostConfig.enabled = ...toInt() == 1; *)
      let s := set_boostConfig (mkBoostConfig mult (wrap16 dur) (en =? 1)%Z) s in
      Some (println (MsgBoostConfig (boostConfig s)) s)
  | CmdConfigOther => Some (println MsgConfigUsage s)
  | CmdUnknown => Some (println MsgUnknown s)
  end.

(** The control tick of [loop()]: both speeds first, then both timers. *)
Definition tick (s : State) : State :=
  let s := updateSpeed M1 s in
  let s := updateSpeed M2 s in
  let s := updateTimers s in
  set_lastAccelUpdate (millis s) s.

(** One pass of [loop()]; [input] is the command completed by the serial
    reader in this pass, if any. *)
Definition loop (fuel : nat) (input : option Command) (s : State)
  : option State :=
  s <- match input with
       | Some cmd => processCommand fuel cmd s
       | None => Some s
       end ;;
  let s :=
    if (accelUpdateInterval <=? wrap32 (millis s - lastAccelUpdate s))%Z
    then tick s else s in
  let s :=
    if (SYNC_CHECK_INTERVAL <=? wrap32 (millis s - lastSyncCheck s))%Z
    then set_lastSyncCheck (millis s) (checkSync s) else s in
  let s :=
    if (1000 <? wrap32 (millis s - lastBlink s))%Z
    then set_lastBlink (millis s)
           (digitalWrite LED_BUILTIN (negb (pins s LED_BUILTIN)) s)
    else s in
  Some s.

End Kernel.

(** ** Reachable states

    The closure of the initial state under the operations of the firmware at
    call granularity: complete passes of [loop()], complete commands, each
    kernel function on its own (which covers the states between the calls
    that [processCommand] and the wait loops make), the direct assignments
    of [processCommand] and of the wait loops' callers, the step interrupts,
    and the passing of time. *)

Inductive reachable : State -> Prop :=
| reach_init : reachable init
| reach_loop fuel input s s' :
    reachable s -> loop ACCEL_RATE fuel input s = Some s' -> reachable s'
| reach_command fuel cmd s s' :
    reachable s -> processCommand ACCEL_RATE fuel cmd s = Some s' ->
    reachable s'
| reach_tick s : reachable s -> reachable (tick ACCEL_RATE s)
| reach_updateSpeed id s : reachable s -> reachable (updateSpeed ACCEL_RATE id s)
| reach_updateTimers s : reachable s -> reachable (updateTimers s)
| reach_setSpeed id v s : reachable s -> reachable (setSpeed id v s)
| reach_applyBoost id v s : reachable s -> reachable (applyBoost id v s)
| reach_setDirection fuel id dir s s' :
    reachable s -> setDirection ACCEL_RATE fuel id dir s = Some s' ->
    reachable s'
| reach_stopMotor fuel id s s' :
    reachable s -> stopMotor ACCEL_RATE fuel id s = Some s' -> reachable s'
| reach_emergencyStop fuel s s' :
    reachable s -> emergencyStop ACCEL_RATE fuel s = Some s' -> reachable s'
| reach_checkSync s : reachable s -> reachable (checkSync s)
| reach_target id v s : reachable s -> reachable (modM id (set_targetSpeed v) s)
| reach_run id s : reachable s -> reachable (modM id (set_isRunning true) s)
| reach_position id s : reachable s -> reachable (modM id (set_position 0) s)
| reach_isr id s :
    reachable s -> timer (getM id s) <> None -> reachable (stepISR id s)
| reach_delay d s : reachable s -> (0 <= d)%Z -> reachable (delay d s).

(** The bound of the data model on one motor, and on both. *)
Definition speed_ok (m : Motor) : Prop :=
  0 <= currentSpeed m /\ currentSpeed m <= MAX_SPEED.

Definition speeds_ok (s : State) : Prop :=
  speed_ok (motor1 s) /\ speed_ok (motor2 s).

(** ** Views used by the proofs *)

(** What one call of [updateSpeed] does to the motor it is called on, as a
    function of that motor, the boost configuration and [millis()]
    ([updateSpeed_getM] below proves that this is the case). *)
Definition boostExpired (cfg : BoostConfig) (now : Z) (m : Motor) : bool :=
  boostActive m && (duration cfg <=? wrap32 (now - boostStartTime m))%Z.

Definition rampValue (rate : Q) (m : Motor) : Q :=
  let speedDiff := targetSpeed m - currentSpeed m in
  if Qgtb (abs speedDiff) (accelStep rate) then
    if Qgtb speedDiff 0 then currentSpeed m + accelStep rate
    else currentSpeed m - accelStep rate
  else targetSpeed m.

Definition rampM (rate : Q) (cfg : BoostConfig) (now : Z) (m : Motor) : Motor :=
  if negb (isRunning m) then set_currentSpeed 0 (set_timer None m)
  else
    let m := if boostExpired cfg now m
             then set_targetSpeed (normalSpeed m) (set_boostActive false m)
             else m in
    set_currentSpeed (constrain (rampValue rate m) 0 MAX_SPEED) m.

(** Control ticks on one motor at the successive times [ts]. *)
Definition ticksM (rate : Q) (cfg : BoostConfig) (ts : list Z) (m : Motor)
  : Motor :=
  fold_left (fun m now => rampM rate cfg now m) ts m.

(** A schedule for the main loop: each entry lets [d] ms pass and then runs
    one pass of [loop()] with the given input. *)
Fixpoint run (fuel : nat) (sched : list (Z * option Command)) (s : State)
  : option State :=
  match sched with
  | [] => Some s
  | (d, input) :: rest =>
      s <- loop ACCEL_RATE fuel input (delay d s) ;;
      run fuel rest s
  end.

(** [n] passes without input, 10 ms apart. *)
Definition idle (n : nat) : list (Z * option Command) :=
  repeat (10%Z, None) n.

(** [n] iterations of the body of the [emergencyStop] loop. *)
Definition estopIter (rate : Q) (n : nat) (s : State) : State :=
  Nat.iter n (estopBody rate) s.

(** The other motor. *)
Definition other (id : MotorId) : MotorId :=
  match id with M1 => M2 | M2 => M1 end.

(** The body of the wait loops, and [k] iterations of it. *)
Definition waitBody (rate : Q) (id : MotorId) (s : State) : State :=
  delay accelUpdateInterval (updateSpeed rate id s).

Definition waitIter (rate : Q) (id : MotorId) (k : nat) (s : State) : State :=
  Nat.iter k (waitBody rate id) s.

(** Calls of [updateSpeed] on one motor, the k-th after a pause of [ds_k]
    ms, and the values of [millis()] at which they happen. *)
Definition updatesAt (rate : Q) (id : MotorId) (ds : list Z) (s : State)
  : State :=
  fold_left (fun s d => updateSpeed rate id (delay d s)) ds s.

Fixpoint times (now : Z) (ds : list Z) : list Z :=
  match ds with
  | [] => []
  | d :: rest => wrap32 (now + d) :: times (wrap32 (now + d)) rest
  end.

(** A running motor without boost that holds the target [T]. *)
Definition holds (T : Q) (m : Motor) : Prop :=
  isRunning m = true /\ boostActive m = false /\ targetSpeed m = T.

(** The boost of [m] is not yet over at time [t]. *)
Definition boostPending (cfg : BoostConfig) (m : Motor) (t : Z) : Prop :=
  (wrap32 (t - boostStartTime m) < duration cfg)%Z.

(** The state in which [setDirection] enters its wait loop: the message
    written and the target lowered to 200. *)
Definition reversalStart (id : MotorId) (s : State) : State :=
  modM id (set_targetSpeed 200) (println (MsgSlowing (name (getM id s))) s).

(** A motor that has settled on a target above [limit]. *)
Definition settledAbove (limit T : Q) (m : Motor) : Prop :=
  holds T m /\ currentSpeed m = T /\ limit < T /\ 0 <= T /\ T <= MAX_SPEED.

(** The number of ticks the convergence claim allows:
    the ceiling of [|T - c0| / accelStep]. *)
Definition ticksNeeded (T c0 : Q) : nat :=
  Z.to_nat (Qceiling (Qabs (T - c0) / accelStep ACCEL_RATE)).

(** [s'] is [s] with one drift advisory written to [Serial]. *)
Definition advisoryRaised (s s' : State) : Prop :=
  exists d p1 p2, serial s' = MsgSyncWarning d p1 p2 :: serial s.

(** No entry of the schedule asks for time to run backwards. *)
Definition nonneg_delays (sched : list (Z * option Command)) : bool :=
  forallb (fun x => (0 <=? fst x)%Z) sched.

(** The state a schedule leads to from power-up. *)
Definition after (sched : list (Z * option Command)) : State :=
  match run 0 sched init with Some s => s | None => init end.

(** *** Scenarios used as concrete inputs *)

(** Both motors brought to 5000 steps/s, then [SPEED:0] received; no tick
    has run since. *)
Definition sched_coast : list (Z * option Command) :=
  (0%Z, Some (CmdSpeed Both 5000)) :: idle 70
  ++ [(0%Z, Some (CmdSpeed Both 0))].
Definition s_coast : State := after sched_coast.

(** Both motors cruising at 5000 steps/s. *)
Definition sched_cruise : list (Z * option Command) :=
  (0%Z, Some (CmdSpeed Both 5000)) :: idle 70.
Definition s_cruise : State := after sched_cruise.

(** [M1:SPEED:0.5] received, one tick later. *)
Definition sched_crawl : list (Z * option Command) :=
  [(10%Z, Some (CmdSpeed (One M1) (1 # 2)))].
Definition s_crawl : State := after sched_crawl.

(** [BOOST:FORWARD:2000] from rest, 600 ms later: both motors at the boost
    speed 3000, the boost due to expire in 200 ms. *)
Definition sched_boosted : list (Z * option Command) :=
  (0%Z, Some (CmdBoost BoostForward 2000)) :: idle 60.
Definition s_boosted : State := after sched_boosted.

(** [CONFIG:BOOST:0.1:0:1] received at power-up. *)
Definition sched_misconfigured : list (Z * option Command) :=
  [(0%Z, Some (CmdConfigBoost (1 # 10) 0 1))].
Definition s_misconfigured : State := after sched_misconfigured.

(** Cruising, after 101 step interrupts of motor 1 that motor 2 has not
    matched. *)
Definition s_drifted : State := Nat.iter 101 (stepISR M1) s_cruise.

(** [SPEED:5000] received at power-up, no tick yet. *)
Definition sched_started : list (Z * option Command) :=
  [(0%Z, Some (CmdSpeed Both 5000))].
Definition s_started : State := after sched_started.

(** [BOOST:FORWARD:2000] immediately followed by [SPEED:0]. *)
Definition sched_parked : list (Z * option Command) :=
  [(0%Z, Some (CmdBoost BoostForward 2000)); (0%Z, Some (CmdSpeed Both 0))].
Definition s_parked : State := after sched_parked.

(** ** Definitions for the further properties *)

(** The pins the two motors are wired to. *)
Definition pwm_of (id : MotorId) : Z :=
  match id with M1 => M1_PWM_PIN | M2 => M2_PWM_PIN end.

Definition dir_of (id : MotorId) : Z :=
  match id with M1 => M1_DIR_PIN | M2 => M2_DIR_PIN end.

(** [m'] differs from [m] at most in the speed, target, run flag and boost
    fields, and in a timer that has been ended. *)
Definition soft (m m' : Motor) : Prop :=
  pwmPin m' = pwmPin m /\ dirPin m' = dirPin m
  /\ position m' = position m /\ direction m' = direction m
  /\ name m' = name m
  /\ (timer m' = timer m \/ timer m' = None).

(** The tail of [stopMotor], and of [emergencyStop] for each motor. *)
Definition halt (id : MotorId) (s : State) : State :=
  modM id (set_currentSpeed 0)
    (modM id (set_timer None) (modM id (set_isRunning false) s)).

(** The two statements that commit a direction: the field, then the pin. *)
Definition commitDirection (id : MotorId) (d : Z) (s : State) : State :=
  writeDirPin id (modM id (set_direction d) s).

(** The pin fields of both motors are the ones they were initialised with. *)
Definition wired (s : State) : Prop :=
  forall id, pwmPin (getM id s) = pwm_of id /\ dirPin (getM id s) = dir_of id.

(** Each direction is 1 or -1 and each direction output shows it
    (LOW for forward, HIGH for backward). *)
Definition dir_ok (s : State) : Prop :=
  forall id,
    (direction (getM id s) = 1 \/ direction (getM id s) = -1)%Z
    /\ pins s (dir_of id) = negb (direction (getM id s) =? 1)%Z.

(** A programmed step timer has a period of at least 50 microseconds
    ([1000000 / MAX_SPEED]). *)
Definition period_ok (s : State) : Prop :=
  forall id p, timer (getM id s) = Some p -> 50 <= p.

(** Both position counters hold values of a [long]. *)
Definition positions_ok (s : State) : Prop :=
  forall id, (LONG_MIN <= position (getM id s) <= LONG_MAX)%Z.

(** Commands that assign to [position]. *)
Definition writesPosition (cmd : Command) : bool :=
  match cmd with
  | CmdSync | CmdReset _ => true
  | _ => false
  end.

(** Commands that assign to [boostConfig]. *)
Definition writesConfig (cmd : Command) : bool :=
  match cmd with
  | CmdConfigBoost _ _ _ => true
  | _ => false
  end.

(** Two states agree on everything but the text written to [Serial]. *)
Definition sameButSerial (s s' : State) : Prop :=
  motor1 s' = motor1 s /\ motor2 s' = motor2 s
  /\ boostConfig s' = boostConfig s /\ clock s' = clock s
  /\ pins s' = pins s
  /\ lastAccelUpdate s' = lastAccelUpdate s
  /\ lastSyncCheck s' = lastSyncCheck s
  /\ lastBlink s' = lastBlink s.

(** [s'] differs from [s] by soft changes of the motors only. *)
Definition softStep (s s' : State) : Prop :=
  (forall id, soft (getM id s) (getM id s'))
  /\ pins s' = pins s /\ boostConfig s' = boostConfig s.

(** The same, whatever has become of the timers. *)
Definition stillStep (s s' : State) : Prop :=
  (forall id,
     pwmPin (getM id s') = pwmPin (getM id s)
     /\ dirPin (getM id s') = dirPin (getM id s)
     /\ position (getM id s') = position (getM id s)
     /\ direction (getM id s') = direction (getM id s))
  /\ pins s' = pins s /\ boostConfig s' = boostConfig s.

(** The wiring and the direction outputs are as they should be. *)
Definition outputs_ok (s : State) : Prop := wired s /\ dir_ok s.

(** Speeds and timer periods are within their bounds. *)
Definition rates_ok (s : State) : Prop := speeds_ok s /\ period_ok s.

(** Nothing is due in [s]: less than 10 ms since the last tick, less than
    a second since the last drift check, at most a second since the last
    blink. *)
Definition settled (s : State) : Prop :=
  (wrap32 (millis s - lastAccelUpdate s) < accelUpdateInterval)%Z
  /\ (wrap32 (millis s - lastSyncCheck s) < SYNC_CHECK_INTERVAL)%Z
  /\ (wrap32 (millis s - lastBlink s) <= 1000)%Z.

(** The direction [setDirection] settles on for a request [dir]. *)
Definition normDir (dir : Z) : Z := if (dir >=? 0)%Z then 1%Z else (-1)%Z.

(** The outcome of a command up to the text written to [Serial]. *)
Definition sameOutcome (a b : option State) : Prop :=
  match a, b with
  | Some x, Some y => sameButSerial x y
  | None, None => True
  | _, _ => False
  end.

(** A running motor without active boost that has been told to stop. *)
Definition stopping (m : Motor) : Prop :=
  isRunning m = true /\ boostActive m = false /\ targetSpeed m = 0
  /\ speed_ok m.

(** *** Further scenarios *)

(** BACKWARD received at power-up. *)
Definition s_reversed : State := after [(0%Z, Some (CmdBackward Both))].

(** Boost switched off by [CONFIG:BOOST:1.5:800:0]. *)
Definition s_noboost : State :=
  after [(0%Z, Some (CmdConfigBoost (3 # 2) 800 0))].

(** The pass of [loop()] that follows [s_drifted] by 10 ms. *)
Definition s_drifted_next : State :=
  match loop ACCEL_RATE 0 None (delay 10 s_drifted) with
  | Some x => x
  | None => s_drifted
  end.

(** [SPIN:LEFT:0] received while cruising at 400 steps/s. *)
Definition s_slow : State := after ((0%Z, Some (CmdSpeed Both 400)) :: idle 10).
Definition s_spun : State :=
  match processCommand ACCEL_RATE 0 (CmdSpin SpinLeft 0) s_slow with
  | Some x => x
  | None => s_slow
  end.

(** The fields of a motor that the ramp reads and writes. *)
Definition kinematics (m : Motor)
  : Q * Q * bool * bool * Z * Q :=
  (currentSpeed m, targetSpeed m, isRunning m, boostActive m,
   boostStartTime m, normalSpeed m).

(** The two motors are in the same kinematic state. *)
Definition twin (s : State) : Prop :=
  kinematics (motor1 s) = kinematics (motor2 s).

(** *** A drift beyond the range of a [long] *)

(** [SPIN:LEFT:5000] received at power-up, one tick later: motor 1
    backward, motor 2 forward, both step timers running. *)
Definition s_turning : State :=
  after [(0%Z, Some (CmdSpin SpinLeft 5000)); (10%Z, None)].

(** [n] step interrupts of one motor. *)
Definition pulses (id : MotorId) (n : positive) (s : State) : State :=
  Pos.iter (stepISR id) s n.

(** Then [2^30] steps of each motor (some fifteen hours at full speed). *)
Definition s_far : State :=
  pulses M2 (2 ^ 30) (pulses M1 (2 ^ 30) s_turning).

(** The drift as [checkSync] and [printStatus] compute it:
    [abs(motor1.position - motor2.position)] on [long]. *)
Definition drift32 (s : State) : Z :=
  abs_long (wrap_long (position (motor1 s) - position (motor2 s))).

(** * The same firmware over binary32 numbers

    The definitions above compute with exact rationals.  This module embeds
    the same functions with the arithmetic the board performs: every
    [float] is an IEEE 754 binary32 number ([spec_float] of the Standard
    Library at precision 24 and exponent bound 128, with its signed zeros,
    infinities and NaN), every [+], [-] and [*] on floats rounds to nearest
    even, comparisons with NaN are false, and the two expressions written
    with a [double] literal ([... / 1000.0] and [1000000.0 / ...]) are
    evaluated in binary64 and converted on assignment.  Integers, the clock,
    the outputs and the handles are as above.  The numeric fields of a
    command are whatever [toFloat] returned: any binary32 number, NaN and
    the infinities included. *)

Module Binary32.

Local Open Scope Z_scope.

(** ** Numbers *)

Definition float : Type := spec_float.
Definition double : Type := spec_float.

Definition fadd : float -> float -> float := SFadd 24 128.
Definition fsub : float -> float -> float := SFsub 24 128.
Definition fmul : float -> float -> float := SFmul 24 128.
Definition ddiv : double -> double -> double := SFdiv 53 1024.

(** [a < b], [a > b], [a <= b] and [a == b] on floats. *)
Definition flt (a b : float) : bool := SFltb a b.
Definition fgt (a b : float) : bool := SFltb b a.
Definition fle (a b : float) : bool := SFleb a b.
Definition feq (a b : float) : bool := SFeqb a b.

(** Conversion of an integer to [float] and to [double]. *)
Definition of_int (z : Z) : float := binary_normalize 24 128 z 0 false.
Definition double_of_int (z : Z) : double := binary_normalize 53 1024 z 0 false.

(** Conversions between the two formats ([double] to [float] rounds). *)
Definition float_of_double (x : double) : float :=
  match x with
  | S754_finite s m e => binary_normalize 24 128 (cond_Zopp s (Zpos m)) e s
  | _ => x
  end.

Definition double_of_float (x : float) : double :=
  match x with
  | S754_finite s m e => binary_normalize 53 1024 (cond_Zopp s (Zpos m)) e s
  | _ => x
  end.

(** A decimal literal [m / 10^k] of type [double]. *)
Definition double_lit (m : Z) (k : Z) : double :=
  ddiv (double_of_int m) (double_of_int (10 ^ k)).

(** The number [toFloat] returns for the decimal text [m / 10^k]. *)
Definition float_lit (m : Z) (k : Z) : float :=
  SFdiv 24 128 (of_int m) (of_int (10 ^ k)).

(** The [abs] macro: [(x) > 0 ? (x) : -(x)]. *)
Definition abs (x : float) : float := if fgt x (of_int 0) then x else SFopp x.

(** The [constrain] macro:
    [(amt) < (low) ? (low) : ((amt) > (high) ? (high) : (amt))]. *)
Definition constrain (amt low high : float) : float :=
  if flt amt low then low else if fgt amt high then high else amt.

Definition is_nan (x : float) : bool :=
  match x with S754_nan => true | _ => false end.

(** Zero or a finite non-zero number. *)
Definition finite (x : float) : bool :=
  match x with S754_finite _ _ _ | S754_zero _ => true | _ => false end.

(** [x] is a binary32 number (canonical mantissa and exponent). *)
Definition valid (x : float) : bool := valid_binary 24 128 x.

(** The value of a finite float ([0] for the others). *)
Definition F2Q (x : float) : Q :=
  match x with
  | S754_finite s m e => (inject_Z (cond_Zopp s (Zpos m)) * Qpower 2 e)%Q
  | _ => 0%Q
  end.

(** The same value counted in units of [2^-149], the smallest positive
    binary32 number: an integer for every binary32 number. *)
Definition ulps (x : float) : Z :=
  match x with
  | S754_finite s m e => cond_Zopp s (Zpos m * 2 ^ (e + 149))
  | _ => 0
  end.

(** [n] in units of [2^-149]. *)
Definition units (n : Z) : Z := n * 2 ^ 149.

(** *** Rounding, on integers

    [rne_div V k] is [V / 2^k] rounded to nearest, ties to even;
    [roundZ V] rounds [V > 0] units to 24 significant bits. *)
Definition rne_div (V k : Z) : Z :=
  let q := V / 2 ^ k in
  match 2 * (V mod 2 ^ k) ?= 2 ^ k with
  | Lt => q
  | Eq => if Z.even q then q else q + 1
  | Gt => q + 1
  end.

Definition expoZ (V : Z) : Z := Z.max (Z.log2 V - 23) 0.
Definition roundZ (V : Z) : Z := rne_div V (expoZ V) * 2 ^ expoZ V.
Definition sroundZ (V : Z) : Z := Z.sgn V * roundZ (Z.abs V).

(** What [k] right shifts of the library's rounding make of [V]. *)
Definition shr_spec (V k : Z) : shr_record :=
  Build_shr_record (V / 2 ^ k) (2 ^ (k - 1) <=? V mod 2 ^ k)
                   (negb (V mod 2 ^ (k - 1) =? 0)).

(** The float with sign [s], rounded mantissa [M] and exponent [E]. *)
Definition round_result (s : bool) (M E : Z) : float :=
  if M =? 0 then S754_zero s
  else if M =? 2 ^ 24 then
    if E + 1 <=? 104 then S754_finite s (Z.to_pos (2 ^ 23)) (E + 1)
    else S754_infinity s
  else if E <=? 104 then S754_finite s (Z.to_pos M) E
  else S754_infinity s.

Definition roundF (s : bool) (V : Z) : float :=
  round_result s (rne_div V (expoZ V)) (expoZ V - 149).

Definition sroundF (V : Z) : float :=
  match V with
  | 0 => S754_zero false
  | Zpos _ => roundF false V
  | Zneg _ => roundF true (- V)
  end.

(** ** Constants *)

Definition MAX_SPEED : Z := 20000.
Definition ACCEL_RATE : Z := 8000.

(** [#define BOOST_MULTIPLIER 1.5], stored in a [float]. *)
Definition BOOST_MULTIPLIER : float := float_of_double (double_lit 15 1).

(** ** Data model *)

Record BoostConfig := mkBoostConfig {
  multiplier : float;
  duration : Z;        (* uint16_t, ms *)
  enabled : bool
}.

Record Motor := mkMotor {
  pwmPin : Z;
  dirPin : Z;
  position : Z;
  currentSpeed : float;
  targetSpeed : float;
  isRunning : bool;
  direction : Z;       (* 1 = forward, -1 = backward *)
  timer : option float;
  name : string;
  boostActive : bool;
  boostStartTime : Z;
  boostSpeed : float;
  normalSpeed : float
}.

Definition set_position (v : Z) (m : Motor) : Motor :=
  mkMotor (pwmPin m) (dirPin m) v (currentSpeed m) (targetSpeed m)
          (isRunning m) (direction m) (timer m) (name m) (boostActive m)
          (boostStartTime m) (boostSpeed m) (normalSpeed m).
Definition set_currentSpeed (v : float) (m : Motor) : Motor :=
  mkMotor (pwmPin m) (dirPin m) (position m) v (targetSpeed m)
          (isRunning m) (direction m) (timer m) (name m) (boostActive m)
          (boostStartTime m) (boostSpeed m) (normalSpeed m).
Definition set_targetSpeed (v : float) (m : Motor) : Motor :=
  mkMotor (pwmPin m) (dirPin m) (position m) (currentSpeed m) v
          (isRunning m) (direction m) (timer m) (name m) (boostActive m)
          (boostStartTime m) (boostSpeed m) (normalSpeed m).
Definition set_isRunning (v : bool) (m : Motor) : Motor :=
  mkMotor (pwmPin m) (dirPin m) (position m) (currentSpeed m) (targetSpeed m)
          v (direction m) (timer m) (name m) (boostActive m)
          (boostStartTime m) (boostSpeed m) (normalSpeed m).
Definition set_direction (v : Z) (m : Motor) : Motor :=
  mkMotor (pwmPin m) (dirPin m) (position m) (currentSpeed m) (targetSpeed m)
          (isRunning m) v (timer m) (name m) (boostActive m)
          (boostStartTime m) (boostSpeed m) (normalSpeed m).
Definition set_timer (v : option float) (m : Motor) : Motor :=
  mkMotor (pwmPin m) (dirPin m) (position m) (currentSpeed m) (targetSpeed m)
          (isRunning m) (direction m) v (name m) (boostActive m)
          (boostStartTime m) (boostSpeed m) (normalSpeed m).
Definition set_boostActive (v : bool) (m : Motor) : Motor :=
  mkMotor (pwmPin m) (dirPin m) (position m) (currentSpeed m) (targetSpeed m)
          (isRunning m) (direction m) (timer m) (name m) v
          (boostStartTime m) (boostSpeed m) (normalSpeed m).
Definition set_boostStartTime (v : Z) (m : Motor) : Motor :=
  mkMotor (pwmPin m) (dirPin m) (position m) (currentSpeed m) (targetSpeed m)
          (isRunning m) (direction m) (timer m) (name m) (boostActive m)
          v (boostSpeed m) (normalSpeed m).
Definition set_boostSpeed (v : float) (m : Motor) : Motor :=
  mkMotor (pwmPin m) (dirPin m) (position m) (currentSpeed m) (targetSpeed m)
          (isRunning m) (direction m) (timer m) (name m) (boostActive m)
          (boostStartTime m) v (normalSpeed m).
Definition set_normalSpeed (v : float) (m : Motor) : Motor :=
  mkMotor (pwmPin m) (dirPin m) (position m) (currentSpeed m) (targetSpeed m)
          (isRunning m) (direction m) (timer m) (name m) (boostActive m)
          (boostStartTime m) (boostSpeed m) v.

Inductive SerialMsg :=
| MsgBoostComplete (n : string)
| MsgSlowing (n : string)
| MsgBoostActivated (n : string) (speed : float) (dur : Z)
| MsgSyncWarning (posDiff p1 p2 : Z)
| MsgSpeedSet (t : Target) (speed : float)
| MsgDirection (t : Target) (dir : Z)
| MsgStopped (t : Target)
| MsgEstopRamping
| MsgEstopDone
| MsgEstopAll
| MsgRunning (t : Target)
| MsgStatus (m1 m2 : Motor) (drift : Z)
| MsgReset (t : Target)
| MsgSpin (dir : Z) (speed : float)
| MsgInvalidSpin
| MsgBoost (d1 d2 : Z) (speed : float)
| MsgInvalidBoost
| MsgSynchronized
| MsgBoostConfig (c : BoostConfig)
| MsgConfigUsage
| MsgUnknown.

Record State := mkState {
  motor1 : Motor;
  motor2 : Motor;
  boostConfig : BoostConfig;
  clock : Z;                  (* millis() *)
  pins : Z -> bool;           (* digital outputs, true = HIGH *)
  serial : list SerialMsg;    (* newest first *)
  lastAccelUpdate : Z;
  lastSyncCheck : Z;
  lastBlink : Z
}.

Definition getM (id : MotorId) (s : State) : Motor :=
  match id with M1 => motor1 s | M2 => motor2 s end.

Definition setM (id : MotorId) (m : Motor) (s : State) : State :=
  match id with
  | M1 => mkState m (motor2 s) (boostConfig s) (clock s) (pins s) (serial s)
                  (lastAccelUpdate s) (lastSyncCheck s) (lastBlink s)
  | M2 => mkState (motor1 s) m (boostConfig s) (clock s) (pins s) (serial s)
                  (lastAccelUpdate s) (lastSyncCheck s) (lastBlink s)
  end.

Definition modM (id : MotorId) (f : Motor -> Motor) (s : State) : State :=
  setM id (f (getM id s)) s.

Definition set_boostConfig (c : BoostConfig) (s : State) : State :=
  mkState (motor1 s) (motor2 s) c (clock s) (pins s) (serial s)
          (lastAccelUpdate s) (lastSyncCheck s) (lastBlink s).
Definition set_clock (t : Z) (s : State) : State :=
  mkState (motor1 s) (motor2 s) (boostConfig s) t (pins s) (serial s)
          (lastAccelUpdate s) (lastSyncCheck s) (lastBlink s).
Definition set_pins (p : Z -> bool) (s : State) : State :=
  mkState (motor1 s) (motor2 s) (boostConfig s) (clock s) p (serial s)
          (lastAccelUpdate s) (lastSyncCheck s) (lastBlink s).
Definition set_lastAccelUpdate (t : Z) (s : State) : State :=
  mkState (motor1 s) (motor2 s) (boostConfig s) (clock s) (pins s) (serial s)
          t (lastSyncCheck s) (lastBlink s).
Definition set_lastSyncCheck (t : Z) (s : State) : State :=
  mkState (motor1 s) (motor2 s) (boostConfig s) (clock s) (pins s) (serial s)
          (lastAccelUpdate s) t (lastBlink s).
Definition set_lastBlink (t : Z) (s : State) : State :=
  mkState (motor1 s) (motor2 s) (boostConfig s) (clock s) (pins s) (serial s)
          (lastAccelUpdate s) (lastSyncCheck s) t.

Definition println (msg : SerialMsg) (s : State) : State :=
  mkState (motor1 s) (motor2 s) (boostConfig s) (clock s) (pins s)
          (msg :: serial s)
          (lastAccelUpdate s) (lastSyncCheck s) (lastBlink s).

Definition digitalWrite (pin : Z) (level : bool) (s : State) : State :=
  set_pins (fun p => if p =? pin then level else pins s p) s.

Definition millis (s : State) : Z := clock s.
Definition delay (ms : Z) (s : State) : State :=
  set_clock (wrap32 (clock s + ms)) s.

Definition motor_init (pwm dir : Z) (n : string) : Motor :=
  mkMotor pwm dir 0 (of_int 0) (of_int 0) false 1 None n false 0
          (of_int 0) (of_int 0).

Definition init : State :=
  mkState (motor_init M1_PWM_PIN M1_DIR_PIN "Motor1")
          (motor_init M2_PWM_PIN M2_DIR_PIN "Motor2")
          (mkBoostConfig BOOST_MULTIPLIER BOOST_DURATION true)
          0 (fun _ => false) [] 0 0 0.

(** ** Step pulser (interrupt context) *)

Definition stepISR (id : MotorId) (s : State) : State :=
  let s := digitalWrite (pwmPin (getM id s)) true s in
  let s := digitalWrite (pwmPin (getM id s)) false s in
  modM id (fun m => set_position (wrap_long (position m + direction m)) m) s.

(** ** Commands, as handed over by the tokenizer *)

Inductive Command :=
| CmdSpeed (t : Target) (speed : float)            (* SPEED:v, S:v *)
| CmdForward (t : Target)                          (* FORWARD, FWD, F *)
| CmdBackward (t : Target)                         (* BACKWARD, BACK, B *)
| CmdStop (t : Target)                             (* STOP, X *)
| CmdEstop                                         (* ESTOP, E *)
| CmdRun (t : Target)                              (* RUN, R *)
| CmdStatus                                        (* STATUS, ? *)
| CmdReset (t : Target)                            (* RESET, RST *)
| CmdSpin (d : SpinDir) (speed : float)            (* SPIN:dir:v *)
| CmdBoost (d : BoostDir) (speed : float)          (* BOOST:dir:v *)
| CmdSync                                          (* SYNC *)
| CmdConfigBoost (mult : float) (dur : Z) (en : Z) (* CONFIG:BOOST:m:d:e *)
| CmdConfigOther                                   (* CONFIG:anything else *)
| CmdUnknown.

(** The numbers of a command are binary32 numbers. *)
Definition valid_command (cmd : Command) : bool :=
  match cmd with
  | CmdSpeed _ v | CmdSpin _ v | CmdBoost _ v => valid v
  | CmdConfigBoost mult _ _ => valid mult
  | _ => true
  end.

(** ** The motion kernel *)

Section Kernel.

Variable rate : Z.

(** [float accelStep = (ACCEL_RATE * accelUpdateInterval) / 1000.0]: the
    product is an [unsigned long], the quotient a [double]. *)
Definition accelStep : float :=
  float_of_double
    (ddiv (double_of_int (wrap32 (rate * accelUpdateInterval)))
          (double_lit 1000 0)).

Definition updateSpeed (id : MotorId) (s : State) : State :=
  if negb (isRunning (getM id s)) then
    let s := modM id (set_timer None) s in
    modM id (set_currentSpeed (of_int 0)) s
  else
    (* boost expiry *)
    let s :=
      if boostActive (getM id s)
         && (duration (boostConfig s)
               <=? wrap32 (millis s - boostStartTime (getM id s)))
      then
        let s := modM id (set_boostActive false) s in
        let s := modM id (fun m => set_targetSpeed (normalSpeed m) m) s in
        println (MsgBoostComplete (name (getM id s))) s
      else s in
    let speedDiff := fsub (targetSpeed (getM id s)) (currentSpeed (getM id s)) in
    (* smooth acceleration / deceleration *)
    let s :=
      if fgt (abs speedDiff) accelStep then
        if fgt speedDiff (of_int 0)
        then modM id (fun m => set_currentSpeed (fadd (currentSpeed m) accelStep) m) s
        else modM id (fun m => set_currentSpeed (fsub (currentSpeed m) accelStep) m) s
      else modM id (fun m => set_currentSpeed (targetSpeed m) m) s in
    (* constrain speed *)
    modM id (fun m => set_currentSpeed
                        (constrain (currentSpeed m) (of_int 0) (of_int MAX_SPEED)) m) s.

(** One of the two blocks of [updateTimers];
    [float timerPeriod = 1000000.0 / m.currentSpeed]. *)
Definition updateTimer (id : MotorId) (s : State) : State :=
  if fgt (currentSpeed (getM id s)) (of_int 0) && isRunning (getM id s) then
    let timerPeriod :=
      float_of_double
        (ddiv (double_lit 1000000 0) (double_of_float (currentSpeed (getM id s)))) in
    let s := modM id (set_timer None) s in
    modM id (set_timer (Some timerPeriod)) s
  else
    modM id (set_timer None) s.

Definition updateTimers (s : State) : State :=
  let s := updateTimer M1 s in
  updateTimer M2 s.

Definition setSpeed (id : MotorId) (speed : float) (s : State) : State :=
  let speed := constrain speed (of_int 0) (of_int MAX_SPEED) in
  let s := modM id (set_targetSpeed speed) s in
  if fgt speed (of_int 0) && negb (isRunning (getM id s)) then
    modM id (set_isRunning true) s
  else if feq speed (of_int 0) then
    modM id (set_isRunning false) s
  else s.

Fixpoint waitBelow (limit : float) (fuel : nat) (id : MotorId) (s : State)
  {struct fuel} : option State :=
  if fgt (currentSpeed (getM id s)) limit then
    match fuel with
    | O => None
    | S fuel' =>
        waitBelow limit fuel' id (delay accelUpdateInterval (updateSpeed id s))
    end
  else Some s.

Definition writeDirPin (id : MotorId) (s : State) : State :=
  digitalWrite (dirPin (getM id s)) (negb (direction (getM id s) =? 1)) s.

Definition setDirection (fuel : nat) (id : MotorId) (dir : Z) (s : State)
  : option State :=
  let newDir := if dir >=? 0 then 1 else -1 in
  if negb (newDir =? direction (getM id s))
     && fgt (currentSpeed (getM id s)) (of_int 500) then
    let s := println (MsgSlowing (name (getM id s))) s in
    (* reduce speed before direction change *)
    let originalTarget := targetSpeed (getM id s) in
    let s := modM id (set_targetSpeed (of_int 200)) s in
    s <- waitBelow (of_int 300) fuel id s ;;
    (* now safe to change direction *)
    let s := modM id (set_direction newDir) s in
    let s := writeDirPin id s in
    (* restore target speed *)
    Some (modM id (set_targetSpeed originalTarget) s)
  else
    let s := modM id (set_direction newDir) s in
    Some (writeDirPin id s).

Definition stopMotor (fuel : nat) (id : MotorId) (s : State) : option State :=
  let s := modM id (set_targetSpeed (of_int 0)) s in
  s <- waitBelow (of_int 1) fuel id s ;;
  let s := modM id (set_isRunning false) s in
  let s := modM id (set_timer None) s in
  Some (modM id (set_currentSpeed (of_int 0)) s).

Definition estopCond (stopStartTime : Z) (s : State) : bool :=
  (fgt (currentSpeed (motor1 s)) (of_int 1)
   || fgt (currentSpeed (motor2 s)) (of_int 1))
  && (wrap32 (millis s - stopStartTime) <? 500).

Definition estopBody (s : State) : State :=
  let s := updateSpeed M1 s in
  let s := updateSpeed M2 s in
  delay accelUpdateInterval s.

Fixpoint estopLoop (stopStartTime : Z) (fuel : nat) (s : State)
  {struct fuel} : option State :=
  if estopCond stopStartTime s then
    match fuel with
    | O => None
    | S fuel' => estopLoop stopStartTime fuel' (estopBody s)
    end
  else Some s.

Definition estopForce (s : State) : State :=
  let s := modM M1 (set_timer None) s in
  let s := modM M2 (set_timer None) s in
  let s := modM M1 (set_isRunning false) s in
  let s := modM M2 (set_isRunning false) s in
  let s := modM M1 (set_currentSpeed (of_int 0)) s in
  let s := modM M2 (set_currentSpeed (of_int 0)) s in
  let s := digitalWrite M1_PWM_PIN false s in
  let s := digitalWrite M2_PWM_PIN false s in
  println MsgEstopDone s.

Definition estopStart (s : State) : State :=
  let s := println MsgEstopRamping s in
  let s := modM M1 (set_targetSpeed (of_int 0)) s in
  modM M2 (set_targetSpeed (of_int 0)) s.

Definition emergencyStop (fuel : nat) (s : State) : option State :=
  let s := estopStart s in
  let stopStartTime := millis s in
  s <- estopLoop stopStartTime fuel s ;;
  Some (estopForce s).

Definition printStatus (s : State) : State :=
  let posDiff := abs_long (wrap_long (position (motor1 s) - position (motor2 s))) in
  println (MsgStatus (motor1 s) (motor2 s) posDiff) s.

Definition applyBoost (id : MotorId) (targetSpeed : float) (s : State) : State :=
  if negb (enabled (boostConfig s)) then
    (* boost disabled - use normal speed *)
    setSpeed id targetSpeed s
  else
    let boostSpeed := fmul targetSpeed (multiplier (boostConfig s)) in
    (* safety cap *)
    let boostSpeed :=
      if fgt boostSpeed (of_int MAX_SPEED) then of_int MAX_SPEED else boostSpeed in
    let s := modM id (set_normalSpeed targetSpeed) s in
    let s := modM id (set_boostSpeed boostSpeed) s in
    let s := modM id (set_boostActive true) s in
    let s := modM id (set_boostStartTime (millis s)) s in
    let s := modM id (set_targetSpeed boostSpeed) s in
    println (MsgBoostActivated (name (getM id s)) boostSpeed
                               (duration (boostConfig s))) s.

Definition checkSync (s : State) : State :=
  let posDiff := abs_long (wrap_long (position (motor1 s) - position (motor2 s))) in
  if (posDiff >? SYNC_THRESHOLD)
     && (isRunning (motor1 s) || isRunning (motor2 s))
  then println (MsgSyncWarning posDiff (position (motor1 s)) (position (motor2 s))) s
  else s.

Definition onTarget (t : Target) (f : MotorId -> State -> State) (s : State)
  : State :=
  match t with
  | One id => f id s
  | Both => f M2 (f M1 s)
  end.

Definition onTargetOpt (t : Target) (f : MotorId -> State -> option State)
  (s : State) : option State :=
  match t with
  | One id => f id s
  | Both => s <- f M1 s ;; f M2 s
  end.

Definition turn (fuel : nat) (d1 d2 : Z)
  (speedFn : MotorId -> float -> State -> State) (speed : float) (s : State)
  : option State :=
  s <- setDirection fuel M1 d1 s ;;
  s <- setDirection fuel M2 d2 s ;;
  let s := speedFn M1 speed s in
  let s := speedFn M2 speed s in
  let s := modM M1 (set_isRunning true) s in
  Some (modM M2 (set_isRunning true) s).

Definition processCommand (fuel : nat) (cmd : Command) (s : State)
  : option State :=
  match cmd with
  | CmdSpeed t speed =>
      let s := onTarget t (fun id => setSpeed id speed) s in
      Some (println (MsgSpeedSet t speed) s)
  | CmdForward t =>
      s <- onTargetOpt t (fun id => setDirection fuel id 1) s ;;
      Some (println (MsgDirection t 1) s)
  | CmdBackward t =>
      s <- onTargetOpt t (fun id => setDirection fuel id (-1)) s ;;
      Some (println (MsgDirection t (-1)) s)
  | CmdStop t =>
      s <- onTargetOpt t (stopMotor fuel) s ;;
      Some (println (MsgStopped t) s)
  | CmdEstop =>
      s <- emergencyStop fuel s ;;
      Some (println MsgEstopAll s)
  | CmdRun t =>
      let s := onTarget t (fun id => modM id (set_isRunning true)) s in
      Some (println (MsgRunning t) s)
  | CmdStatus => Some (printStatus s)
  | CmdReset t =>
      let s := onTarget t (fun id => modM id (set_position 0)) s in
      s <- onTargetOpt t (stopMotor fuel) s ;;
      Some (println (MsgReset t) s)
  | CmdSpin SpinLeft speed =>
      s <- turn fuel (-1) 1 setSpeed speed s ;;
      Some (println (MsgSpin (-1) speed) s)
  | CmdSpin SpinRight speed =>
      s <- turn fuel 1 (-1) setSpeed speed s ;;
      Some (println (MsgSpin 1 speed) s)
  | CmdSpin SpinInvalid _ => Some (println MsgInvalidSpin s)
  | CmdBoost BoostLeft speed =>
      s <- turn fuel (-1) 1 applyBoost speed s ;;
      Some (println (MsgBoost (-1) 1 speed) s)
  | CmdBoost BoostRight speed =>
      s <- turn fuel 1 (-1) applyBoost speed s ;;
      Some (println (MsgBoost 1 (-1) speed) s)
  | CmdBoost BoostForward speed =>
      s <- turn fuel 1 1 applyBoost speed s ;;
      Some (println (MsgBoost 1 1 speed) s)
  | CmdBoost BoostBackward speed =>
      s <- turn fuel (-1) (-1) applyBoost speed s ;;
      Some (println (MsgBoost (-1) (-1) speed) s)
  | CmdBoost BoostInvalid _ => Some (println MsgInvalidBoost s)
  | CmdSync =>
      let s := modM M1 (set_position 0) s in
      let s := modM M2 (set_position 0) s in
      Some (println MsgSynchronized s)
  | CmdConfigBoost mult dur en =>
      let s := set_boostConfig (mkBoostConfig mult (wrap16 dur) (en =? 1)) s in
      Some (println (MsgBoostConfig (boostConfig s)) s)
  | CmdConfigOther => Some (println MsgConfigUsage s)
  | CmdUnknown => Some (println MsgUnknown s)
  end.

Definition tick (s : State) : State :=
  let s := updateSpeed M1 s in
  let s := updateSpeed M2 s in
  let s := updateTimers s in
  set_lastAccelUpdate (millis s) s.

Definition loop (fuel : nat) (input : option Command) (s : State)
  : option State :=
  s <- match input with
       | Some cmd => processCommand fuel cmd s
       | None => Some s
       end ;;
  let s :=
    if accelUpdateInterval <=? wrap32 (millis s - lastAccelUpdate s)
    then tick s else s in
  let s :=
    if SYNC_CHECK_INTERVAL <=? wrap32 (millis s - lastSyncCheck s)
    then set_lastSyncCheck (millis s) (checkSync s) else s in
  let s :=
    if 1000 <? wrap32 (millis s - lastBlink s)
    then set_lastBlink (millis s)
           (digitalWrite LED_BUILTIN (negb (pins s LED_BUILTIN)) s)
    else s in
  Some s.

End Kernel.

(** ** Reachable states

    As above, with every number that enters from outside a binary32
    number. *)

Inductive reachable : State -> Prop :=
| reach_init : reachable init
| reach_loop fuel input s s' :
    reachable s ->
    match input with Some cmd => valid_command cmd = true | None => True end ->
    loop ACCEL_RATE fuel input s = Some s' -> reachable s'
| reach_command fuel cmd s s' :
    reachable s -> valid_command cmd = true ->
    processCommand ACCEL_RATE fuel cmd s = Some s' ->
    reachable s'
| reach_tick s : reachable s -> reachable (tick ACCEL_RATE s)
| reach_updateSpeed id s : reachable s -> reachable (updateSpeed ACCEL_RATE id s)
| reach_updateTimers s : reachable s -> reachable (updateTimers s)
| reach_setSpeed id v s :
    reachable s -> valid v = true -> reachable (setSpeed id v s)
| reach_applyBoost id v s :
    reachable s -> valid v = true -> reachable (applyBoost id v s)
| reach_setDirection fuel id dir s s' :
    reachable s -> setDirection ACCEL_RATE fuel id dir s = Some s' ->
    reachable s'
| reach_stopMotor fuel id s s' :
    reachable s -> stopMotor ACCEL_RATE fuel id s = Some s' -> reachable s'
| reach_emergencyStop fuel s s' :
    reachable s -> emergencyStop ACCEL_RATE fuel s = Some s' -> reachable s'
| reach_checkSync s : reachable s -> reachable (checkSync s)
| reach_target id v s :
    reachable s -> valid v = true -> reachable (modM id (set_targetSpeed v) s)
| reach_run id s : reachable s -> reachable (modM id (set_isRunning true) s)
| reach_position id s : reachable s -> reachable (modM id (set_position 0) s)
| reach_isr id s :
    reachable s -> timer (getM id s) <> None -> reachable (stepISR id s)
| reach_delay d s : reachable s -> 0 <= d -> reachable (delay d s).

(** ** Views used by the proofs *)

(** The test [0 <= x && x <= MAX_SPEED], as the board would evaluate it. *)
Definition in_range (x : float) : bool :=
  fle (of_int 0) x && fle x (of_int MAX_SPEED).

(** The bound of the data model on one motor. *)
Definition speed_ok (m : Motor) : Prop := in_range (currentSpeed m) = true.

(** What holds of a motor in every reachable state: its speed fields are
    binary32 numbers, and [currentSpeed] is NaN or within the bounds. *)
Definition motor_wf (m : Motor) : Prop :=
  valid (currentSpeed m) = true /\ valid (targetSpeed m) = true
  /\ valid (normalSpeed m) = true /\ valid (boostSpeed m) = true
  /\ (is_nan (currentSpeed m) = true \/ speed_ok m).

Definition state_wf (s : State) : Prop :=
  motor_wf (motor1 s) /\ motor_wf (motor2 s)
  /\ valid (multiplier (boostConfig s)) = true.

(** No speed field of the motor is NaN. *)
Definition numeric (m : Motor) : Prop :=
  is_nan (currentSpeed m) = false /\ is_nan (targetSpeed m) = false
  /\ is_nan (normalSpeed m) = false.

Definition boostExpired (cfg : BoostConfig) (now : Z) (m : Motor) : bool :=
  boostActive m && (duration cfg <=? wrap32 (now - boostStartTime m)).

Definition rampValue (rate : Z) (m : Motor) : float :=
  let speedDiff := fsub (targetSpeed m) (currentSpeed m) in
  if fgt (abs speedDiff) (accelStep rate) then
    if fgt speedDiff (of_int 0) then fadd (currentSpeed m) (accelStep rate)
    else fsub (currentSpeed m) (accelStep rate)
  else targetSpeed m.

Definition rampM (rate : Z) (cfg : BoostConfig) (now : Z) (m : Motor) : Motor :=
  if negb (isRunning m) then set_currentSpeed (of_int 0) (set_timer None m)
  else
    let m := if boostExpired cfg now m
             then set_targetSpeed (normalSpeed m) (set_boostActive false m)
             else m in
    set_currentSpeed (constrain (rampValue rate m) (of_int 0) (of_int MAX_SPEED)) m.

Definition ticksM (rate : Z) (cfg : BoostConfig) (ts : list Z) (m : Motor)
  : Motor :=
  fold_left (fun m now => rampM rate cfg now m) ts m.

Fixpoint run (fuel : nat) (sched : list (Z * option Command)) (s : State)
  : option State :=
  match sched with
  | [] => Some s
  | (d, input) :: rest =>
      s <- loop ACCEL_RATE fuel input (delay d s) ;;
      run fuel rest s
  end.

Definition idle (n : nat) : list (Z * option Command) :=
  repeat (10, None) n.

Definition estopIter (rate : Z) (n : nat) (s : State) : State :=
  Nat.iter n (estopBody rate) s.

Definition updatesAt (rate : Z) (id : MotorId) (ds : list Z) (s : State)
  : State :=
  fold_left (fun s d => updateSpeed rate id (delay d s)) ds s.

Definition boostPending (cfg : BoostConfig) (m : Motor) (t : Z) : Prop :=
  wrap32 (t - boostStartTime m) < duration cfg.

(** Every entry of a schedule lets time pass forwards and carries binary32
    numbers. *)
Definition well_formed (sched : list (Z * option Command)) : bool :=
  forallb (fun x => (0 <=? fst x)
                    && match snd x with
                       | Some cmd => valid_command cmd
                       | None => true
                       end) sched.

Definition after (sched : list (Z * option Command)) : State :=
  match run 0 sched init with Some s => s | None => init end.

(** The motor a running [updateSpeed] ramps: the one it was called on,
    after the boost expiry check. *)
Definition expire (cfg : BoostConfig) (now : Z) (m : Motor) : Motor :=
  if boostExpired cfg now m
  then set_targetSpeed (normalSpeed m) (set_boostActive false m)
  else m.

(** The value a running [updateSpeed] stores from [currentSpeed = c] and
    [targetSpeed = t] when [accelStep] is 80, its value in the firmware. *)
Definition rampStep (c t : float) : float :=
  constrain
    (if fgt (abs (fsub t c)) (of_int 80) then
       if fgt (fsub t c) (of_int 0) then fadd c (of_int 80)
       else fsub c (of_int 80)
     else t)
    (of_int 0) (of_int MAX_SPEED).

(** A field update of a motor that writes none of the speeds. *)
Definition speeds_kept (f : Motor -> Motor) : Prop :=
  forall m, currentSpeed (f m) = currentSpeed m
            /\ targetSpeed (f m) = targetSpeed m
            /\ normalSpeed (f m) = normalSpeed m
            /\ boostSpeed (f m) = boostSpeed m.

(** *** Scenarios used as concrete inputs *)

(** Both motors cruising at 400 steps/s. *)
Definition s_slow : State :=
  after ((0, Some (CmdSpeed Both (of_int 400))) :: idle 10).

(** [SPEED:NAN] received while cruising at 400 steps/s, one tick later. *)
Definition s_nan : State :=
  after ((0, Some (CmdSpeed Both (of_int 400))) :: idle 10
         ++ [(0, Some (CmdSpeed Both S754_nan)); (10, None)]).

(** [M1:SPEED:NAN] received while both motors cruise at 400 steps/s, one
    tick later: motor 1 at NaN, motor 2 at 400. *)
Definition s_nan_one : State :=
  after ((0, Some (CmdSpeed Both (of_int 400))) :: idle 10
         ++ [(0, Some (CmdSpeed (One M1) S754_nan)); (10, None)]).

(** Then [SPEED:20000], one tick later. *)
Definition s_jump : State :=
  after ((0, Some (CmdSpeed Both (of_int 400))) :: idle 10
         ++ [(0, Some (CmdSpeed Both S754_nan)); (10, None);
             (0, Some (CmdSpeed Both (of_int 20000))); (10, None)]).

(** A boost multiplier of infinity ([CONFIG:BOOST:1e39:800:1] overflows
    the [float]), then [BOOST:FORWARD:0], one tick later. *)
Definition s_nan_boost : State :=
  after [(0, Some (CmdConfigBoost (S754_infinity false) 800 1));
         (0, Some (CmdBoost BoostForward (of_int 0))); (10, None)].

(** Both motors brought to 5000 steps/s, then [SPEED:0] received; no tick
    has run since. *)
Definition s_coast : State :=
  after ((0, Some (CmdSpeed Both (of_int 5000))) :: idle 70
         ++ [(0, Some (CmdSpeed Both (of_int 0)))]).

(** Both motors cruising at 5000 steps/s. *)
Definition s_cruise : State :=
  after ((0, Some (CmdSpeed Both (of_int 5000))) :: idle 70).

(** [SPEED:0.1], one tick, [SPEED:5000], one more tick: both motors at
    [0.1f + 80], which is 80.09999847412109375. *)
Definition s_fraction : State :=
  after [(0, Some (CmdSpeed Both (float_lit 1 1))); (10, None);
         (0, Some (CmdSpeed Both (of_int 5000))); (10, None)].

(** Both motors brought to [16304 + 3/1024] steps/s (204 ticks), then
    [SPEED:20000] received; no tick has run since.  The next sum
    [currentSpeed + 80] lies above 16384, where binary32 numbers are
    [2^-9] apart. *)
Definition s_binade : State :=
  after ((0, Some (CmdSpeed Both (S754_finite false 16695299 (-10))))
         :: idle 204 ++ [(0, Some (CmdSpeed Both (of_int 20000)))]).

(** [BOOST:FORWARD:2000] from rest, 600 ms later. *)
Definition s_boosted : State :=
  after ((0, Some (CmdBoost BoostForward (of_int 2000))) :: idle 60).

(** [BOOST:FORWARD:2000] immediately followed by [SPEED:0]. *)
Definition s_parked : State :=
  after [(0, Some (CmdBoost BoostForward (of_int 2000)));
         (0, Some (CmdSpeed Both (of_int 0)))].

End Binary32.

(** * Properties of the exact-rational embedding *)

(** ** Basic facts *)

Lemma Qgtb_true (a b : Q) : Qgtb a b = true <-> b < a.
Proof.
  unfold Qgtb. rewrite negb_true_iff.
  split; intro H.
  - apply Qnot_le_lt. intro Hle. apply Qle_bool_iff in Hle. congruence.
  - destruct (Qle_bool a b) eqn:E; [|reflexivity].
    apply Qle_bool_iff in E. lra.
Qed.

Lemma Qgtb_false (a b : Q) : Qgtb a b = false <-> a <= b.
Proof.
  unfold Qgtb. rewrite negb_false_iff. apply Qle_bool_iff.
Qed.

Lemma Qltb_true (a b : Q) : Qltb a b = true <-> a < b.
Proof. apply (Qgtb_true b a). Qed.

Lemma Qltb_false (a b : Q) : Qltb a b = false <-> b <= a.
Proof. apply (Qgtb_false b a). Qed.

(** Turn the outcome of float comparisons in the context into facts. *)
Ltac qfacts :=
  repeat match goal with
  | H : Qgtb _ _ = true |- _ => apply Qgtb_true in H
  | H : Qgtb _ _ = false |- _ => apply Qgtb_false in H
  | H : Qltb _ _ = true |- _ => apply Qltb_true in H
  | H : Qltb _ _ = false |- _ => apply Qltb_false in H
  | H : Qeq_bool _ _ = true |- _ => apply Qeq_bool_iff in H
  | H : Qeq_bool _ _ = false |- _ => apply Qeq_bool_neq in H
  end.

(** Settle a conjunction of closed facts by evaluating each. *)
Ltac evaluate :=
  cbv zeta;
  repeat match goal with |- _ /\ _ => split end;
  vm_compute; reflexivity.

(** The [abs] macro is the absolute value. *)
Lemma abs_Qabs (x : Q) : abs x = Qabs x.
Proof.
  unfold abs. destruct x as [n d]. unfold Qgtb, Qle_bool, Qabs, Qopp. simpl.
  rewrite Z.mul_1_r.
  destruct n; simpl; reflexivity.
Qed.

Lemma constrain_bounds (x lo hi : Q) :
  lo <= hi -> lo <= constrain x lo hi /\ constrain x lo hi <= hi.
Proof.
  intros. unfold constrain.
  destruct (Qltb x lo) eqn:E1; [lra|].
  destruct (Qgtb x hi) eqn:E2; qfacts; lra.
Qed.

Lemma constrain_id (x lo hi : Q) :
  lo <= x -> x <= hi -> constrain x lo hi = x.
Proof.
  intros. unfold constrain.
  destruct (Qltb x lo) eqn:E1; qfacts; [lra|].
  destruct (Qgtb x hi) eqn:E2; qfacts; [lra|reflexivity].
Qed.

Lemma MAX_SPEED_pos : 0 <= MAX_SPEED.
Proof. unfold MAX_SPEED. lra. Qed.

Lemma accelStep_ACCEL_RATE : accelStep ACCEL_RATE == 80.
Proof. reflexivity. Qed.

Lemma wrap32_small (z : Z) : (0 <= z < 2 ^ 32)%Z -> wrap32 z = z.
Proof. intros. unfold wrap32. apply Z.mod_small. lia. Qed.

Lemma wrap_long_small (z : Z) : (LONG_MIN <= z <= LONG_MAX)%Z -> wrap_long z = z.
Proof.
  unfold wrap_long, LONG_MIN, LONG_MAX. intros.
  rewrite Z.mod_small by lia. lia.
Qed.

(** *** Handles *)

Lemma getM_modM_same id f s : getM id (modM id f s) = f (getM id s).
Proof. destruct id; reflexivity. Qed.

Lemma getM_modM_other id id' f s :
  id <> id' -> getM id (modM id' f s) = getM id s.
Proof. destruct id, id'; intros; try congruence; reflexivity. Qed.

Lemma MotorId_cases (id id' : MotorId) : id' = id \/ id' = other id.
Proof. destruct id, id'; auto. Qed.

(** *** [updateSpeed] through the motor-level view *)

Lemma updateSpeed_getM rate id s :
  getM id (updateSpeed rate id s) = rampM rate (boostConfig s) (clock s) (getM id s).
Proof.
  unfold updateSpeed, rampM, boostExpired, rampValue, millis.
  destruct s as [m1 m2 cfg now io out la ls lb].
  destruct id; cbn [getM motor1 motor2 boostConfig clock];
    (destruct (isRunning _); cbn [negb]; [|reflexivity]);
    (destruct (boostActive _ && _)%bool; cbn;
      (destruct (Qgtb (abs _) _); [destruct (Qgtb _ 0)|]; reflexivity)).
Qed.

Lemma updateSpeed_other rate id s :
  getM (other id) (updateSpeed rate id s) = getM (other id) s.
Proof.
  unfold updateSpeed.
  destruct s as [m1 m2 cfg now io out la ls lb].
  destruct id; cbn [getM motor1 motor2 other];
    (destruct (isRunning _); cbn [negb]; [|reflexivity]);
    (destruct (boostActive _ && _)%bool; cbn;
      (destruct (Qgtb (abs _) _); [destruct (Qgtb _ 0)|]; reflexivity)).
Qed.

Lemma updateSpeed_frame rate id s :
  boostConfig (updateSpeed rate id s) = boostConfig s
  /\ clock (updateSpeed rate id s) = clock s
  /\ pins (updateSpeed rate id s) = pins s.
Proof.
  unfold updateSpeed.
  destruct s as [m1 m2 cfg now io out la ls lb].
  destruct id; cbn [getM motor1 motor2];
    (destruct (isRunning _); cbn [negb]; [|repeat split; reflexivity]);
    (destruct (boostActive _ && _)%bool; cbn;
      (destruct (Qgtb (abs _) _); [destruct (Qgtb _ 0)|]; repeat split; reflexivity)).
Qed.

(** ** The ramp on one motor *)

Lemma constrain_closer (x y e lo hi : Q) :
  lo <= x -> x <= hi -> Qabs (y - x) <= e ->
  Qabs (constrain y lo hi - x) <= e.
Proof.
  intros Hlo Hhi Hy.
  apply Qabs_Qle_condition in Hy. apply Qabs_Qle_condition.
  unfold constrain.
  destruct (Qltb y lo) eqn:E1; qfacts; [lra|].
  destruct (Qgtb y hi) eqn:E2; qfacts; lra.
Qed.

(** The value the ramp aims at before clamping is within one [accelStep] of
    the current speed. *)
Lemma rampValue_near rate m :
  0 <= accelStep rate ->
  Qabs (rampValue rate m - currentSpeed m) <= accelStep rate.
Proof.
  intros Hs. unfold rampValue.
  destruct (Qgtb (abs _) _) eqn:E.
  - apply Qabs_Qle_condition.
    destruct (Qgtb (targetSpeed m - currentSpeed m) 0); lra.
  - rewrite abs_Qabs in E. qfacts. exact E.
Qed.

Lemma accelStep_nonneg rate : 0 <= rate -> 0 <= accelStep rate.
Proof.
  intros. unfold accelStep, accelUpdateInterval, Qdiv.
  change (inject_Z 10) with 10. change (/ 1000) with (1 # 1000). lra.
Qed.

Lemma rampM_speed_ok rate cfg now m : speed_ok (rampM rate cfg now m).
Proof.
  unfold rampM, speed_ok.
  destruct (isRunning m); cbn [negb].
  - destruct (boostExpired cfg now m); cbn [currentSpeed set_currentSpeed];
      apply constrain_bounds, MAX_SPEED_pos.
  - cbn. pose proof MAX_SPEED_pos. lra.
Qed.

Lemma rampM_step_bound rate cfg now m :
  0 <= rate -> isRunning m = true -> speed_ok m ->
  Qabs (currentSpeed (rampM rate cfg now m) - currentSpeed m) <= accelStep rate.
Proof.
  intros Hr Hrun [Hlo Hhi]. unfold rampM. rewrite Hrun. cbn [negb].
  pose proof (accelStep_nonneg rate Hr) as Hs.
  destruct (boostExpired cfg now m); cbn [currentSpeed set_currentSpeed].
  - apply constrain_closer; try assumption.
    apply (rampValue_near rate
             (set_targetSpeed (normalSpeed m) (set_boostActive false m)) Hs).
  - apply constrain_closer; try assumption.
    apply (rampValue_near rate m Hs).
Qed.

Lemma rampM_stopped rate cfg now m :
  isRunning m = false -> currentSpeed (rampM rate cfg now m) = 0.
Proof. intros H. unfold rampM. rewrite H. reflexivity. Qed.

(** ** Preservation of the speed bound *)

Lemma speeds_ok_getM s : speeds_ok s <-> forall id, speed_ok (getM id s).
Proof.
  unfold speeds_ok. split.
  - intros [H1 H2] []; assumption.
  - intros H. split; [apply (H M1)|apply (H M2)].
Qed.

Lemma speeds_ok_modM id f s :
  speeds_ok s -> speed_ok (f (getM id s)) -> speeds_ok (modM id f s).
Proof.
  intros [H1 H2] Hf. destruct id; split; assumption.
Qed.

Lemma speeds_ok_same s s' :
  motor1 s' = motor1 s -> motor2 s' = motor2 s -> speeds_ok s -> speeds_ok s'.
Proof. unfold speeds_ok. intros -> ->. auto. Qed.

Lemma speed_ok_zero m : speed_ok (set_currentSpeed 0 m).
Proof. unfold speed_ok. cbn. pose proof MAX_SPEED_pos. lra. Qed.

Lemma updateSpeed_speeds_ok rate id s :
  speeds_ok s -> speeds_ok (updateSpeed rate id s).
Proof.
  intros H. apply speeds_ok_getM. intros id'.
  destruct (MotorId_cases id id') as [-> | ->].
  - rewrite updateSpeed_getM. apply rampM_speed_ok.
  - rewrite updateSpeed_other. apply speeds_ok_getM. exact H.
Qed.

Lemma updateTimer_speeds_ok id s : speeds_ok s -> speeds_ok (updateTimer id s).
Proof.
  intros H. unfold updateTimer.
  destruct (_ && _)%bool; repeat apply speeds_ok_modM; try assumption;
    try rewrite getM_modM_same; apply speeds_ok_getM; assumption.
Qed.

Lemma updateTimers_speeds_ok s : speeds_ok s -> speeds_ok (updateTimers s).
Proof. intros. unfold updateTimers. auto using updateTimer_speeds_ok. Qed.

Lemma setSpeed_speeds_ok id v s : speeds_ok s -> speeds_ok (setSpeed id v s).
Proof.
  intros H. unfold setSpeed.
  assert (H1 : speeds_ok (modM id (set_targetSpeed (constrain v 0 MAX_SPEED)) s)).
  { apply speeds_ok_modM; [assumption|]. apply speeds_ok_getM. assumption. }
  destruct (_ && _)%bool; [|destruct (Qeq_bool _ _)]; try assumption;
    (apply speeds_ok_modM; [assumption|]);
    apply (proj1 (speeds_ok_getM _) H1 id).
Qed.

Lemma applyBoost_speeds_ok id v s : speeds_ok s -> speeds_ok (applyBoost id v s).
Proof.
  intros H. unfold applyBoost.
  destruct (negb _); [apply setSpeed_speeds_ok; assumption|].
  destruct s as [m1 m2 cfg now io out la ls lb]. destruct H as [H1 H2].
  destruct id; split; assumption.
Qed.

Lemma delay_speeds_ok d s : speeds_ok s -> speeds_ok (delay d s).
Proof. intros H. exact H. Qed.

Lemma waitBelow_speeds_ok rate limit fuel id s s' :
  speeds_ok s -> waitBelow rate limit fuel id s = Some s' -> speeds_ok s'.
Proof.
  revert s. induction fuel as [|fuel IH]; intros s H; cbn [waitBelow];
    destruct (Qgtb _ limit); try discriminate; try (intros [= <-]; assumption).
  apply IH. apply delay_speeds_ok, updateSpeed_speeds_ok, H.
Qed.

Lemma writeDirPin_speeds_ok id s : speeds_ok s -> speeds_ok (writeDirPin id s).
Proof. intros H. exact H. Qed.

Lemma setDirection_speeds_ok rate fuel id dir s s' :
  speeds_ok s -> setDirection rate fuel id dir s = Some s' -> speeds_ok s'.
Proof.
  intros H. unfold setDirection.
  destruct (_ && _)%bool.
  - destruct (waitBelow _ _ _ _ _) as [s1|] eqn:E; cbn [bind]; [|discriminate].
    intros [= <-].
    apply waitBelow_speeds_ok in E.
    + apply speeds_ok_modM; [apply writeDirPin_speeds_ok, speeds_ok_modM|];
        try assumption; try apply speeds_ok_getM; try assumption.
      apply writeDirPin_speeds_ok, speeds_ok_modM;
        try assumption; apply speeds_ok_getM; assumption.
    + apply speeds_ok_modM; [exact H|]. apply speeds_ok_getM. exact H.
  - intros [= <-]. apply writeDirPin_speeds_ok, speeds_ok_modM;
      try assumption; apply speeds_ok_getM; assumption.
Qed.

Lemma stopMotor_speeds_ok rate fuel id s s' :
  speeds_ok s -> stopMotor rate fuel id s = Some s' -> speeds_ok s'.
Proof.
  intros H. unfold stopMotor.
  destruct (waitBelow _ _ _ _ _) as [s1|] eqn:E; cbn [bind]; [|discriminate].
  intros [= <-].
  apply waitBelow_speeds_ok in E.
  - apply speeds_ok_modM; [|apply speed_ok_zero].
    repeat (apply speeds_ok_modM; [|apply speeds_ok_getM]); assumption ||
    (repeat (apply speeds_ok_modM; [|apply speeds_ok_getM]); assumption).
  - apply speeds_ok_modM; [exact H|]. apply speeds_ok_getM. exact H.
Qed.

Lemma estopBody_speeds_ok rate s : speeds_ok s -> speeds_ok (estopBody rate s).
Proof.
  intros H. unfold estopBody.
  apply delay_speeds_ok. do 2 apply updateSpeed_speeds_ok. exact H.
Qed.

Lemma estopLoop_speeds_ok rate t0 fuel s s' :
  speeds_ok s -> estopLoop rate t0 fuel s = Some s' -> speeds_ok s'.
Proof.
  revert s. induction fuel as [|fuel IH]; intros s H; cbn [estopLoop];
    destruct (estopCond t0 s); try discriminate; try (intros [= <-]; assumption).
  apply IH, estopBody_speeds_ok, H.
Qed.

Lemma estopForce_speeds_ok s : speeds_ok (estopForce s).
Proof.
  destruct s as [m1 m2 cfg now io out la ls lb].
  split; apply speed_ok_zero.
Qed.

Lemma emergencyStop_speeds_ok rate fuel s s' :
  emergencyStop rate fuel s = Some s' -> speeds_ok s'.
Proof.
  unfold emergencyStop.
  destruct (estopLoop _ _ _ _) as [s1|]; cbn [bind]; [|discriminate].
  intros [= <-]. apply estopForce_speeds_ok.
Qed.

Lemma checkSync_speeds_ok s : speeds_ok s -> speeds_ok (checkSync s).
Proof.
  intros H. unfold checkSync. destruct (_ && _)%bool; exact H.
Qed.

Lemma stepISR_speeds_ok id s : speeds_ok s -> speeds_ok (stepISR id s).
Proof.
  intros [H1 H2]. destruct s as [m1 m2 cfg now io out la ls lb].
  destruct id; split; assumption.
Qed.

Lemma onTarget_speeds_ok t f s :
  (forall id s, speeds_ok s -> speeds_ok (f id s)) ->
  speeds_ok s -> speeds_ok (onTarget t f s).
Proof. intros Hf H. destruct t; cbn; auto. Qed.

Lemma onTargetOpt_speeds_ok t f s s' :
  (forall id s s', speeds_ok s -> f id s = Some s' -> speeds_ok s') ->
  speeds_ok s -> onTargetOpt t f s = Some s' -> speeds_ok s'.
Proof.
  intros Hf H. destruct t; cbn [onTargetOpt].
  - destruct (f M1 s) as [s1|] eqn:E; cbn [bind]; [|discriminate].
    intros E2. eapply Hf; [|exact E2]. eapply Hf; [|exact E]. exact H.
  - apply Hf, H.
Qed.

Lemma turn_speeds_ok rate fuel d1 d2 speedFn speed s s' :
  (forall id v s, speeds_ok s -> speeds_ok (speedFn id v s)) ->
  speeds_ok s -> turn rate fuel d1 d2 speedFn speed s = Some s' -> speeds_ok s'.
Proof.
  intros Hf H. unfold turn.
  destruct (setDirection rate fuel M1 d1 s) as [s1|] eqn:E1; cbn [bind];
    [|discriminate].
  destruct (setDirection rate fuel M2 d2 s1) as [s2|] eqn:E2; cbn [bind];
    [|discriminate].
  intros [= <-].
  apply setDirection_speeds_ok in E1; [|exact H].
  apply setDirection_speeds_ok in E2; [|exact E1].
  assert (H3 : speeds_ok (speedFn M2 speed (speedFn M1 speed s2))) by auto.
  destruct H3 as [A B]. split; [exact A|exact B].
Qed.

Lemma run_flag_speeds_ok id s :
  speeds_ok s -> speeds_ok (modM id (set_isRunning true) s).
Proof.
  intros H. apply speeds_ok_modM; [exact H|]. apply speeds_ok_getM. exact H.
Qed.

Lemma reset_position_speeds_ok id s :
  speeds_ok s -> speeds_ok (modM id (set_position 0) s).
Proof.
  intros H. apply speeds_ok_modM; [exact H|]. apply speeds_ok_getM. exact H.
Qed.

Lemma set_target_speeds_ok id v s :
  speeds_ok s -> speeds_ok (modM id (set_targetSpeed v) s).
Proof.
  intros H. apply speeds_ok_modM; [exact H|]. apply speeds_ok_getM. exact H.
Qed.

Lemma println_speeds_ok msg s : speeds_ok s -> speeds_ok (println msg s).
Proof. intros H. exact H. Qed.

Lemma processCommand_speeds_ok rate fuel cmd s s' :
  speeds_ok s -> processCommand rate fuel cmd s = Some s' -> speeds_ok s'.
Proof.
  intros H. destruct cmd as [t v|t|t|t| |t| |t|d v|d v| |mu du en| | ];
    cbn [processCommand].
  - intros [= <-]. apply println_speeds_ok. apply (onTarget_speeds_ok t); [|exact H].
    intros; apply setSpeed_speeds_ok; assumption.
  - destruct (onTargetOpt _ _ _) as [s1|] eqn:E; cbn [bind]; [|discriminate].
    intros [= <-]. apply println_speeds_ok. eapply (onTargetOpt_speeds_ok t); [|exact H|exact E].
    intros id s0 s0'. apply setDirection_speeds_ok.
  - destruct (onTargetOpt _ _ _) as [s1|] eqn:E; cbn [bind]; [|discriminate].
    intros [= <-]. apply println_speeds_ok. eapply (onTargetOpt_speeds_ok t); [|exact H|exact E].
    intros id s0 s0'. apply setDirection_speeds_ok.
  - destruct (onTargetOpt _ _ _) as [s1|] eqn:E; cbn [bind]; [|discriminate].
    intros [= <-]. apply println_speeds_ok. eapply (onTargetOpt_speeds_ok t); [|exact H|exact E].
    intros id s0 s0'. apply stopMotor_speeds_ok.
  - destruct (emergencyStop _ _ _) as [s1|] eqn:E; cbn [bind]; [|discriminate].
    intros [= <-]. apply emergencyStop_speeds_ok in E. exact E.
  - intros [= <-]. apply println_speeds_ok. apply (onTarget_speeds_ok t); [|exact H].
    intros; apply run_flag_speeds_ok; assumption.
  - intros [= <-]. exact H.
  - destruct (onTargetOpt _ _ _) as [s1|] eqn:E; cbn [bind]; [|discriminate].
    intros [= <-]. apply println_speeds_ok. eapply (onTargetOpt_speeds_ok t); [| |exact E].
    + intros id s0 s0'. apply stopMotor_speeds_ok.
    + apply (onTarget_speeds_ok t); [|exact H].
      intros; apply reset_position_speeds_ok; assumption.
  - destruct d.
    + destruct (turn _ _ _ _ _ _ _) as [s1|] eqn:E; cbn [bind]; [|discriminate].
      intros [= <-]. apply println_speeds_ok. eapply turn_speeds_ok; [|exact H|exact E].
      intros; apply setSpeed_speeds_ok; assumption.
    + destruct (turn _ _ _ _ _ _ _) as [s1|] eqn:E; cbn [bind]; [|discriminate].
      intros [= <-]. apply println_speeds_ok. eapply turn_speeds_ok; [|exact H|exact E].
      intros; apply setSpeed_speeds_ok; assumption.
    + intros [= <-]. exact H.
  - destruct d;
      try (destruct (turn _ _ _ _ _ _ _) as [s1|] eqn:E; cbn [bind];
           [|discriminate];
           intros [= <-]; apply println_speeds_ok; eapply turn_speeds_ok; [|exact H|exact E];
           intros; apply applyBoost_speeds_ok; assumption).
    intros [= <-]. exact H.
  - intros [= <-]. apply println_speeds_ok.
    apply (reset_position_speeds_ok M2), (reset_position_speeds_ok M1), H.
  - intros [= <-]. exact H.
  - intros [= <-]. exact H.
  - intros [= <-]. exact H.
Qed.

Lemma tick_speeds_ok rate s : speeds_ok s -> speeds_ok (tick rate s).
Proof.
  intros H. unfold tick.
  apply (speeds_ok_same
           (updateTimers (updateSpeed rate M2 (updateSpeed rate M1 s))));
    try reflexivity.
  apply updateTimers_speeds_ok. do 2 apply updateSpeed_speeds_ok. exact H.
Qed.

Lemma if_speeds_ok (b : bool) s1 s2 :
  speeds_ok s1 -> speeds_ok s2 -> speeds_ok (if b then s1 else s2).
Proof. destruct b; auto. Qed.

Lemma loop_speeds_ok rate fuel input s s' :
  speeds_ok s -> loop rate fuel input s = Some s' -> speeds_ok s'.
Proof.
  intros H. unfold loop.
  destruct (match input with Some _ => _ | None => _ end) as [s1|] eqn:E;
    cbn [bind]; [|discriminate].
  assert (H1 : speeds_ok s1).
  { destruct input as [cmd|].
    - eapply processCommand_speeds_ok; eassumption.
    - injection E as <-. exact H. }
  intros E'. apply (f_equal (fun o => match o with Some x => x | None => s end)) in E'.
  subst s'. cbv zeta.
  match goal with
  | |- speeds_ok (if ?b then _ else ?X) =>
      assert (HX : speeds_ok X); [|destruct b; exact HX]
  end.
  match goal with
  | |- speeds_ok (if ?b then _ else ?Y) =>
      assert (HY : speeds_ok Y);
      [|destruct b; [exact (checkSync_speeds_ok _ HY)|exact HY]]
  end.
  apply if_speeds_ok; [apply tick_speeds_ok|]; exact H1.
Qed.

Lemma reachable_speeds_ok s : reachable s -> speeds_ok s.
Proof.
  induction 1.
  - repeat split; cbn [currentSpeed motor1 motor2 init motor_init];
      unfold MAX_SPEED; lra.
  - eapply loop_speeds_ok; eassumption.
  - eapply processCommand_speeds_ok; eassumption.
  - apply tick_speeds_ok; assumption.
  - apply updateSpeed_speeds_ok; assumption.
  - apply updateTimers_speeds_ok; assumption.
  - apply setSpeed_speeds_ok; assumption.
  - apply applyBoost_speeds_ok; assumption.
  - eapply setDirection_speeds_ok; eassumption.
  - eapply stopMotor_speeds_ok; eassumption.
  - eapply emergencyStop_speeds_ok; eassumption.
  - apply checkSync_speeds_ok; assumption.
  - apply set_target_speeds_ok; assumption.
  - apply run_flag_speeds_ok; assumption.
  - apply reset_position_speeds_ok; assumption.
  - apply stepISR_speeds_ok; assumption.
  - apply delay_speeds_ok; assumption.
Qed.

(** A schedule run from a reachable state ends in a reachable state. *)
Lemma run_reachable fuel sched : forall s s',
  nonneg_delays sched = true ->
  reachable s -> run fuel sched s = Some s' -> reachable s'.
Proof.
  induction sched as [|[d input] rest IH]; intros s s' Hd Hs; cbn [run].
  - intros [= <-]. exact Hs.
  - destruct (loop ACCEL_RATE fuel input (delay d s)) as [s1|] eqn:E;
      cbn [bind]; [|discriminate].
    unfold nonneg_delays in Hd. cbn [forallb fst] in Hd.
    apply andb_true_iff in Hd. destruct Hd as [Hd0 Hd].
    apply IH.
    + exact Hd.
    + eapply reach_loop; [|exact E]. apply reach_delay; [exact Hs|].
      apply Z.leb_le. exact Hd0.
Qed.

Lemma after_reachable sched :
  nonneg_delays sched = true -> reachable (after sched).
Proof.
  intros Hd. unfold after.
  destruct (run 0 sched init) as [s|] eqn:E.
  - eapply run_reachable; [exact Hd|exact reach_init|exact E].
  - exact reach_init.
Qed.

Lemma s_coast_reachable : reachable s_coast.
Proof. apply after_reachable. reflexivity. Qed.

Lemma s_cruise_reachable : reachable s_cruise.
Proof. apply after_reachable. reflexivity. Qed.

Lemma s_crawl_reachable : reachable s_crawl.
Proof. apply after_reachable. reflexivity. Qed.

Lemma s_boosted_reachable : reachable s_boosted.
Proof. apply after_reachable. reflexivity. Qed.

Lemma s_parked_reachable : reachable s_parked.
Proof. apply after_reachable. reflexivity. Qed.

Lemma s_misconfigured_reachable : reachable s_misconfigured.
Proof. apply after_reachable. reflexivity. Qed.

(** ** [setSpeed] through the motor-level view *)

Lemma updateTimer_other id s :
  getM (other id) (updateTimer id s) = getM (other id) s.
Proof.
  unfold updateTimer. destruct (_ && _)%bool; destruct id; reflexivity.
Qed.

Lemma setSpeed_other id v s :
  getM (other id) (setSpeed id v s) = getM (other id) s.
Proof.
  unfold setSpeed.
  destruct (_ && _)%bool; [|destruct (Qeq_bool _ _)]; destruct id; reflexivity.
Qed.

Lemma setSpeed_getM id v s :
  getM id (setSpeed id v s)
  = let c := constrain v 0 MAX_SPEED in
    let m := set_targetSpeed c (getM id s) in
    if Qgtb c 0 && negb (isRunning m) then set_isRunning true m
    else if Qeq_bool c 0 then set_isRunning false m else m.
Proof.
  unfold setSpeed. cbv zeta. rewrite getM_modM_same.
  destruct (_ && _)%bool; [|destruct (Qeq_bool _ _)];
    rewrite ?getM_modM_same; reflexivity.
Qed.

Lemma setSpeed_frame id v s :
  boostConfig (setSpeed id v s) = boostConfig s
  /\ clock (setSpeed id v s) = clock s
  /\ pins (setSpeed id v s) = pins s
  /\ serial (setSpeed id v s) = serial s.
Proof.
  unfold setSpeed.
  destruct (_ && _)%bool; [|destruct (Qeq_bool _ _)]; destruct id;
    repeat split; reflexivity.
Qed.

(** ** C9: the drift advisory *)

Lemma abs_long_Zabs z :
  (Z.abs z <= LONG_MAX)%Z -> abs_long (wrap_long z) = Z.abs z.
Proof.
  intros H. unfold LONG_MAX in H.
  rewrite (wrap_long_small z) by (unfold LONG_MIN, LONG_MAX; lia).
  unfold abs_long.
  destruct (z >? 0)%Z eqn:E.
  - rewrite wrap_long_small by (unfold LONG_MIN, LONG_MAX; lia). lia.
  - rewrite wrap_long_small by (unfold LONG_MIN, LONG_MAX; lia). lia.
Qed.

(** C9, amended.  [checkSync] writes one advisory exactly when the drift as
    the firmware computes it, [abs(position1 - position2)] in 32-bit signed
    arithmetic, exceeds [SYNC_THRESHOLD] and at least one motor is running,
    and otherwise writes nothing; the computed drift is
    [|position1 - position2|] whenever that value fits a [long].  In every
    case it leaves both [Motor] records, the boost configuration, the clock
    and the outputs unchanged. *)
Theorem C9_checkSync_advisory : forall s,
  (advisoryRaised s (checkSync s) <->
     (drift32 s > SYNC_THRESHOLD)%Z
     /\ (isRunning (motor1 s) = true \/ isRunning (motor2 s) = true))
  /\ ((Z.abs (position (motor1 s) - position (motor2 s)) <= LONG_MAX)%Z ->
      drift32 s = Z.abs (position (motor1 s) - position (motor2 s)))
  /\ (advisoryRaised s (checkSync s) \/ checkSync s = s)
  /\ motor1 (checkSync s) = motor1 s
  /\ motor2 (checkSync s) = motor2 s
  /\ boostConfig (checkSync s) = boostConfig s
  /\ clock (checkSync s) = clock s
  /\ pins (checkSync s) = pins s.
Proof.
  intros s. split; [|split; [apply abs_long_Zabs|]].
  - unfold checkSync. fold (drift32 s).
    destruct ((drift32 s >? SYNC_THRESHOLD)%Z
              && (isRunning (motor1 s) || isRunning (motor2 s))) eqn:E.
    + apply andb_true_iff in E. destruct E as [E1 E2].
      apply orb_true_iff in E2. apply Z.gtb_lt in E1.
      split; [intros _; split; [lia|exact E2]|].
      intros _. do 3 eexists. reflexivity.
    + split.
      * intros (d & p1 & p2 & H).
        apply (f_equal (@List.length _)) in H. cbn in H. lia.
      * intros [H1 H2]. exfalso.
        apply andb_false_iff in E. destruct E as [E|E].
        -- rewrite Z.gtb_ltb in E. apply Z.ltb_ge in E. lia.
        -- apply orb_false_iff in E. destruct E as [Ea Eb].
           destruct H2; congruence.
  - unfold checkSync. fold (drift32 s).
    destruct ((drift32 s >? SYNC_THRESHOLD)%Z
              && (isRunning (motor1 s) || isRunning (motor2 s))).
    + split; [left; do 3 eexists; reflexivity|repeat split].
    + split; [right; reflexivity|repeat split].
Qed.

Lemma C9_checkSync_advisory_witness :
  (Z.abs (position (motor1 s_drifted) - position (motor2 s_drifted))
     <= LONG_MAX)%Z
  /\ drift32 s_drifted = 101%Z
  /\ advisoryRaised s_drifted (checkSync s_drifted).
Proof.
  assert (H : (Z.abs (position (motor1 s_drifted) - position (motor2 s_drifted))
                 <= LONG_MAX)%Z)
    by (vm_compute; intro HH; discriminate HH).
  split; [exact H|].
  destruct (C9_checkSync_advisory s_drifted) as (Hiff & Hfit & _).
  split; [rewrite (Hfit H); vm_compute; reflexivity|].
  apply Hiff. split; [vm_compute; reflexivity|].
  left. vm_compute. reflexivity.
Defined.

(** ** C7: timer commitment at low speed *)

Lemma updateTimers_getM id s :
  getM id (updateTimers s)
  = if Qgtb (currentSpeed (getM id s)) 0 && isRunning (getM id s)
    then set_timer (Some (1000000 / currentSpeed (getM id s))) (getM id s)
    else set_timer None (getM id s).
Proof.
  unfold updateTimers, updateTimer.
  destruct s as [m1 m2 cfg now io out la ls lb].
  destruct id; cbn [getM motor1 motor2];
    destruct (Qgtb (currentSpeed m1) 0 && isRunning m1)%bool eqn:E1;
    cbn -[Qgtb Qdiv]; try rewrite E1;
    destruct (Qgtb (currentSpeed m2) 0 && isRunning m2)%bool eqn:E2;
    cbn -[Qgtb Qdiv]; try rewrite E2; reflexivity.
Qed.

(** C7, as stated, fails: in the reachable state [s_crawl], right after a
    tick, motor 1 runs at 0.5 steps/s (< 1) and [updateTimers] programs its
    step timer with a period of 2 000 000 microseconds. *)
Lemma C7_counterexample :
  reachable s_crawl
  /\ currentSpeed (getM M1 s_crawl) < 1
  /\ timer (getM M1 s_crawl) = Some 2000000
  /\ timer (getM M1 (updateTimers s_crawl)) = Some 2000000.
Proof.
  split; [exact s_crawl_reachable|].
  evaluate.
Qed.

(** C7, amended.  After [updateTimers], a motor's step timer is disabled
    when its [currentSpeed] is not positive or the motor is not running; a
    running motor with [currentSpeed > 0] (also when [currentSpeed < 1]) has
    its timer programmed with the period [1000000 / currentSpeed], which is
    positive and, below 1 step/s, longer than a second. *)
Theorem C7_updateTimers_commit : forall s id,
  let m := getM id s in
  let m' := getM id (updateTimers s) in
  (currentSpeed m <= 0 \/ isRunning m = false -> timer m' = None)
  /\ (0 < currentSpeed m /\ isRunning m = true ->
       timer m' = Some (1000000 / currentSpeed m)
       /\ 0 < 1000000 / currentSpeed m
       /\ (currentSpeed m < 1 -> 1000000 < 1000000 / currentSpeed m)).
Proof.
  intros s id m m'. subst m'. rewrite updateTimers_getM. fold m. split.
  - intros [H|H].
    + destruct (Qgtb (currentSpeed m) 0) eqn:E; qfacts; [lra|reflexivity].
    + rewrite H, andb_false_r. reflexivity.
  - intros [Hpos Hrun]. rewrite Hrun, andb_true_r.
    destruct (Qgtb (currentSpeed m) 0) eqn:E; qfacts; [|lra].
    split; [reflexivity|].
    assert (Hinv : 0 < / currentSpeed m) by (apply Qinv_lt_0_compat; exact Hpos).
    assert (Hone : currentSpeed m * / currentSpeed m == 1)
      by (apply Qmult_inv_r; lra).
    unfold Qdiv. split; [nra|].
    intros Hlt. nra.
Qed.

(** ** C8: boost configuration *)

(** C8, as stated, fails: [CONFIG:BOOST:0.1:0:1] leaves a multiplier of 0.1
    (below 1.0) and a duration of 0 in [boostConfig]. *)
Lemma C8_counterexample :
  reachable s_misconfigured
  /\ multiplier (boostConfig s_misconfigured) == 1 # 10
  /\ multiplier (boostConfig s_misconfigured) < 1
  /\ duration (boostConfig s_misconfigured) = 0%Z.
Proof.
  split; [exact s_misconfigured_reachable|].
  evaluate.
Qed.

Lemma wrap16_range z : (0 <= wrap16 z < 2 ^ 16)%Z.
Proof. unfold wrap16. apply Z.mod_pos_bound. reflexivity. Qed.

(** C8, amended.  A CONFIG:BOOST command is never rejected and nothing is
    clamped: the multiplier and the enable flag are stored as parsed, and
    the duration is stored as the parsed integer reduced modulo 65536 (the
    conversion to [uint16_t]), so it lies in [0, 65535]; both motors are
    left as they were. *)
Theorem C8_config_boost_stored : forall fuel mult dur en s,
  exists s',
    processCommand ACCEL_RATE fuel (CmdConfigBoost mult dur en) s = Some s'
    /\ multiplier (boostConfig s') = mult
    /\ duration (boostConfig s') = wrap16 dur
    /\ (0 <= duration (boostConfig s') < 2 ^ 16)%Z
    /\ ((0 <= dur < 2 ^ 16)%Z -> duration (boostConfig s') = dur)
    /\ enabled (boostConfig s') = (en =? 1)%Z
    /\ motor1 s' = motor1 s /\ motor2 s' = motor2 s.
Proof.
  intros fuel mult dur en s. eexists. split; [reflexivity|].
  cbn [boostConfig set_boostConfig println multiplier duration enabled
       motor1 motor2].
  repeat split; try apply wrap16_range.
  intros H. unfold wrap16. apply Z.mod_small. exact H.
Qed.

(** ** C6: convergence of the ramp *)

Lemma updatesAt_getM rate id ds : forall s,
  getM id (updatesAt rate id ds s)
  = ticksM rate (boostConfig s) (times (clock s) ds) (getM id s).
Proof.
  induction ds as [|d rest IH]; intros s; [reflexivity|].
  cbn [updatesAt fold_left times ticksM].
  change (fold_left _ rest ?x) with (updatesAt rate id rest x) at 1.
  rewrite IH.
  destruct (updateSpeed_frame rate id (delay d s)) as (Hc & Hk & _).
  rewrite Hc, Hk, updateSpeed_getM.
  destruct id; reflexivity.
Qed.

Lemma updatesAt_snoc rate id ds d s :
  updateSpeed rate id (delay d (updatesAt rate id ds s))
  = updatesAt rate id (ds ++ [d]) s.
Proof. unfold updatesAt. rewrite fold_left_app. reflexivity. Qed.

Lemma rampM_holds rate cfg now T m :
  holds T m -> holds T (rampM rate cfg now m).
Proof.
  intros (Hr & Hb & Ht). unfold rampM, boostExpired.
  rewrite Hr, Hb. cbn. repeat split; assumption.
Qed.

Lemma rampM_holds_value rate cfg now T m :
  holds T m ->
  currentSpeed (rampM rate cfg now m)
  = constrain (rampValue rate m) 0 MAX_SPEED.
Proof.
  intros (Hr & Hb & Ht). unfold rampM, boostExpired.
  rewrite Hr, Hb. reflexivity.
Qed.

(** One tick brings the speed one [accelStep] closer to the target, or onto
    it. *)
Lemma rampM_progress rate cfg now T m e :
  holds T m -> 0 <= T -> T <= MAX_SPEED -> 0 <= e ->
  Qabs (T - currentSpeed m) <= e + accelStep rate ->
  Qabs (T - currentSpeed (rampM rate cfg now m)) <= e.
Proof.
  intros Hh HT0 HT1 He Hd.
  rewrite (rampM_holds_value rate cfg now T m Hh).
  destruct Hh as (_ & _ & Ht).
  apply Qabs_Qle_condition in Hd. apply Qabs_Qle_condition.
  unfold rampValue. rewrite Ht, abs_Qabs.
  destruct (Qgtb (Qabs (T - currentSpeed m)) (accelStep rate)) eqn:E1.
  - apply Qgtb_true in E1.
    destruct (Qgtb (T - currentSpeed m) 0) eqn:E2; qfacts.
    + rewrite Qabs_pos in E1 by lra.
      unfold constrain.
      destruct (Qltb _ 0) eqn:E3; qfacts; [lra|].
      destruct (Qgtb _ MAX_SPEED) eqn:E4; qfacts; lra.
    + rewrite Qabs_neg in E1 by lra.
      unfold constrain.
      destruct (Qltb _ 0) eqn:E3; qfacts; [lra|].
      destruct (Qgtb _ MAX_SPEED) eqn:E4; qfacts; lra.
  - rewrite constrain_id by assumption. lra.
Qed.

Lemma ticksM_converges rate cfg T : forall ts m,
  holds T m -> 0 <= T -> T <= MAX_SPEED -> 0 <= accelStep rate ->
  Qabs (T - currentSpeed m)
    <= inject_Z (Z.of_nat (List.length ts)) * accelStep rate ->
  holds T (ticksM rate cfg ts m)
  /\ currentSpeed (ticksM rate cfg ts m) == T.
Proof.
  induction ts as [|t rest IH]; intros m Hh HT0 HT1 Hs Hd.
  - split; [exact Hh|].
    cbn [List.length Z.of_nat ticksM fold_left] in *.
    change (inject_Z 0) with 0 in Hd.
    apply Qabs_Qle_condition in Hd. lra.
  - cbn [ticksM fold_left].
    change (fold_left _ rest ?x) with (ticksM rate cfg rest x).
    apply IH; try assumption.
    + apply rampM_holds, Hh.
    + apply (rampM_progress rate cfg t T m); try assumption.
      * apply Qmult_le_0_compat; [|exact Hs].
        change 0 with (inject_Z 0). rewrite <- Zle_Qle. lia.
      * cbn [List.length] in Hd. rewrite Nat2Z.inj_succ in Hd.
        unfold Z.succ in Hd. rewrite inject_Z_plus in Hd.
        change (inject_Z 1) with 1 in Hd. lra.
Qed.

Lemma ticksNeeded_enough T c0 n :
  (ticksNeeded T c0 <= n)%nat ->
  Qabs (T - c0) <= inject_Z (Z.of_nat n) * accelStep ACCEL_RATE.
Proof.
  unfold ticksNeeded. intros H.
  set (x := Qabs (T - c0) / accelStep ACCEL_RATE) in *.
  assert (Hx : x <= inject_Z (Z.of_nat n)).
  { apply Qle_trans with (inject_Z (Qceiling x)); [apply Qle_ceiling|].
    rewrite <- Zle_Qle. lia. }
  assert (Hne : ~ accelStep ACCEL_RATE == 0) by (intro H0; discriminate H0).
  assert (Heq : Qabs (T - c0) == x * accelStep ACCEL_RATE)
    by (subst x; field; exact Hne).
  rewrite Heq. apply Qmult_le_compat_r; [exact Hx|].
  apply accelStep_nonneg. unfold ACCEL_RATE. lra.
Qed.

(** C6. For a running motor without active boost that holds a target [T]
    in [0, MAX_SPEED], any [ceil(|T - currentSpeed| / accelStep)] or more
    calls of [updateSpeed] leave [currentSpeed] equal to [T], and one more
    call keeps it there. *)
Theorem C6_ramp_convergence : forall s id ds T,
  isRunning (getM id s) = true ->
  boostActive (getM id s) = false ->
  targetSpeed (getM id s) = T ->
  0 <= T -> T <= MAX_SPEED ->
  (ticksNeeded T (currentSpeed (getM id s)) <= List.length ds)%nat ->
  currentSpeed (getM id (updatesAt ACCEL_RATE id ds s)) == T
  /\ forall d,
       currentSpeed
         (getM id (updateSpeed ACCEL_RATE id
                     (delay d (updatesAt ACCEL_RATE id ds s)))) == T.
Proof.
  intros s id ds T Hr Hb Ht HT0 HT1 Hn.
  assert (Hs : 0 <= accelStep ACCEL_RATE)
    by (apply accelStep_nonneg; unfold ACCEL_RATE; lra).
  assert (Hh : holds T (getM id s)) by (repeat split; assumption).
  assert (Hlen : forall l now, List.length (times now l) = List.length l).
  { clear. induction l as [|d rest IH]; intros now; cbn; [|rewrite IH]; reflexivity. }
  split.
  - rewrite updatesAt_getM.
    apply ticksM_converges; try assumption.
    rewrite Hlen. apply ticksNeeded_enough, Hn.
  - intros d.
    rewrite updatesAt_snoc, updatesAt_getM.
    apply ticksM_converges; try assumption.
    rewrite Hlen, length_app. cbn [List.length].
    apply ticksNeeded_enough. lia.
Qed.

Lemma C6_ramp_convergence_witness :
  isRunning (getM M1 s_started) = true
  /\ boostActive (getM M1 s_started) = false
  /\ targetSpeed (getM M1 s_started) = 5000
  /\ (ticksNeeded 5000 (currentSpeed (getM M1 s_started))
        <= List.length (repeat 10%Z 63))%nat
  /\ currentSpeed (getM M1 (updatesAt ACCEL_RATE M1 (repeat 10%Z 63) s_started))
     == 5000.
Proof.
  split; [vm_compute; reflexivity|].
  split; [vm_compute; reflexivity|].
  split; [vm_compute; reflexivity|].
  split; [vm_compute; apply le_n|].
  refine (proj1 (C6_ramp_convergence s_started M1 (repeat 10%Z 63) 5000
                   _ _ _ _ _ _)).
  - vm_compute; reflexivity.
  - vm_compute; reflexivity.
  - vm_compute; reflexivity.
  - intro H; discriminate H.
  - intro H; discriminate H.
  - vm_compute; apply le_n.
Defined.

(** The bound of C6 is met with equality here: one tick fewer is not
    enough. *)
Example ramp_5000_needs_63_ticks :
  ticksNeeded 5000 0 = 63%nat
  /\ currentSpeed (getM M1 (updatesAt ACCEL_RATE M1 (repeat 10%Z 62) s_started))
     == 4960.
Proof. split; vm_compute; reflexivity. Qed.

(** ** The boost lifecycle on one motor *)

Lemma applyBoost_getM id v s :
  enabled (boostConfig s) = true ->
  getM id (applyBoost id v s)
  = let b := v * multiplier (boostConfig s) in
    let b := if Qgtb b MAX_SPEED then MAX_SPEED else b in
    set_targetSpeed b
      (set_boostStartTime (millis s)
         (set_boostActive true
            (set_boostSpeed b (set_normalSpeed v (getM id s))))).
Proof.
  intros He. unfold applyBoost. rewrite He. cbn [negb].
  destruct s as [m1 m2 cfg now io out la ls lb]. destruct id; reflexivity.
Qed.

(** While the boost is pending, ticks keep it and the boosted target. *)
Lemma rampM_pending rate cfg now m :
  isRunning m = true -> boostActive m = true -> boostPending cfg m now ->
  rampM rate cfg now m
  = set_currentSpeed (constrain (rampValue rate m) 0 MAX_SPEED) m.
Proof.
  intros Hr Hb Hp. unfold rampM, boostExpired. rewrite Hr, Hb. cbn [negb andb].
  unfold boostPending in Hp.
  destruct (duration cfg <=? _)%Z eqn:E; [|reflexivity].
  apply Z.leb_le in E. lia.
Qed.

Lemma rampM_expiry rate cfg now m :
  isRunning m = true -> boostActive m = true -> ~ boostPending cfg m now ->
  rampM rate cfg now m
  = let m1 := set_targetSpeed (normalSpeed m) (set_boostActive false m) in
    set_currentSpeed (constrain (rampValue rate m1) 0 MAX_SPEED) m1.
Proof.
  intros Hr Hb Hp. unfold rampM, boostExpired. rewrite Hr, Hb. cbn [negb andb].
  unfold boostPending in Hp.
  destruct (duration cfg <=? _)%Z eqn:E; [reflexivity|].
  apply Z.leb_gt in E. contradiction.
Qed.

Lemma ticksM_pending rate cfg : forall ts m,
  isRunning m = true -> boostActive m = true ->
  Forall (boostPending cfg m) ts ->
  isRunning (ticksM rate cfg ts m) = true
  /\ boostActive (ticksM rate cfg ts m) = true
  /\ targetSpeed (ticksM rate cfg ts m) = targetSpeed m
  /\ boostStartTime (ticksM rate cfg ts m) = boostStartTime m
  /\ normalSpeed (ticksM rate cfg ts m) = normalSpeed m
  /\ (speed_ok m -> speed_ok (ticksM rate cfg ts m)).
Proof.
  induction ts as [|t rest IH]; intros m Hr Hb Hp.
  - cbn. auto 10.
  - cbn [ticksM fold_left].
    change (fold_left _ rest ?x) with (ticksM rate cfg rest x).
    inversion Hp as [|t' rest' Ht Hrest]; subst.
    rewrite (rampM_pending rate cfg t m Hr Hb Ht).
    set (m1 := set_currentSpeed _ m).
    destruct (IH m1) as (A & B & C & D & E & F); try assumption.
    do 5 (split; [assumption|]).
    intros _. apply F. subst m1. unfold speed_ok.
    cbn [currentSpeed set_currentSpeed].
    apply constrain_bounds, MAX_SPEED_pos.
Qed.

(** The boost shape of a [BOOST:FORWARD:2000] from rest with the default
    configuration: the speed reaches 3000 after 38 ticks (380 ms), the
    boost is still on at 790 ms, the tick at 800 ms ends it and starts the
    ramp back (2920), and 2000 is reached 12 ticks later. *)
Example boost_shape :
  let at_tick n := getM M1 (after ((0%Z, Some (CmdBoost BoostForward 2000))
                                   :: idle n)) in
  currentSpeed (at_tick 37%nat) == 2960
  /\ currentSpeed (at_tick 38%nat) == 3000
  /\ (boostActive (at_tick 79%nat) = true
      /\ currentSpeed (at_tick 79%nat) == 3000)
  /\ (boostActive (at_tick 80%nat) = false
      /\ targetSpeed (at_tick 80%nat) == 2000
      /\ currentSpeed (at_tick 80%nat) == 2920)
  /\ currentSpeed (at_tick 91%nat) == 2040
  /\ currentSpeed (at_tick 92%nat) == 2000.
Proof. evaluate. Qed.

(** ** The emergency stop loop *)

Lemma estopBody_getM rate id s :
  getM id (estopBody rate s)
  = rampM rate (boostConfig s) (clock s) (getM id s).
Proof.
  unfold estopBody.
  destruct (updateSpeed_frame rate M1 s) as (Hc & Hk & _).
  destruct id.
  - change (getM M1 (delay accelUpdateInterval ?x)) with (getM M1 x).
    rewrite (updateSpeed_other rate M2). apply updateSpeed_getM.
  - change (getM M2 (delay accelUpdateInterval ?x)) with (getM M2 x).
    rewrite updateSpeed_getM, Hc, Hk.
    rewrite (updateSpeed_other rate M1). reflexivity.
Qed.

Lemma estopBody_frame rate s :
  boostConfig (estopBody rate s) = boostConfig s
  /\ clock (estopBody rate s) = wrap32 (clock s + accelUpdateInterval).
Proof.
  unfold estopBody.
  destruct (updateSpeed_frame rate M1 s) as (Hc & Hk & _).
  destruct (updateSpeed_frame rate M2 (updateSpeed rate M1 s)) as (Hc2 & Hk2 & _).
  cbn [delay set_clock boostConfig clock]. rewrite Hc2, Hk2, Hc, Hk. auto.
Qed.

Lemma estopIter_succ rate n s :
  estopIter rate (S n) s = estopIter rate n (estopBody rate s).
Proof. unfold estopIter. apply Nat.iter_succ_r. Qed.

Lemma estopIter_last rate n s :
  estopIter rate (S n) s = estopBody rate (estopIter rate n s).
Proof. reflexivity. Qed.

Lemma estopIter_elapsed rate n s :
  wrap32 (clock (estopIter rate n s) - clock s) = wrap32 (10 * Z.of_nat n).
Proof.
  induction n as [|n IH].
  - cbn [estopIter Nat.iter]. rewrite Z.sub_diag. reflexivity.
  - rewrite estopIter_last.
    destruct (estopBody_frame rate (estopIter rate n s)) as (_ & Hk).
    rewrite Hk. unfold wrap32 in *. unfold accelUpdateInterval.
    rewrite Zminus_mod_idemp_l.
    replace (clock (estopIter rate n s) + 10 - clock s)%Z
      with ((clock (estopIter rate n s) - clock s) + 10)%Z by ring.
    rewrite <- Zplus_mod_idemp_l, IH, Zplus_mod_idemp_l.
    f_equal. lia.
Qed.

(** The loop of [emergencyStop] started at [millis() = t0]: once [50 - j]
    iterations' worth of time has passed, at most [j] more are made. *)
Lemma estopLoop_bound rate t0 : forall j fuel s,
  (j <= 50)%nat -> (j <= fuel)%nat ->
  wrap32 (clock s - t0) = (10 * (50 - Z.of_nat j))%Z ->
  exists n, (n <= j)%nat
    /\ estopLoop rate t0 fuel s = Some (estopIter rate n s)
    /\ (forall k, (k < n)%nat -> estopCond t0 (estopIter rate k s) = true).
Proof.
  induction j as [|j IH]; intros fuel s Hj Hf Hclk.
  - exists 0%nat. split; [lia|]. split; [|intros k Hk; lia].
    assert (Hc : estopCond t0 s = false).
    { unfold estopCond, millis. rewrite Hclk. cbn. apply andb_false_r. }
    destruct fuel; cbn [estopLoop]; rewrite Hc; reflexivity.
  - destruct fuel as [|fuel]; [lia|].
    cbn [estopLoop].
    destruct (estopCond t0 s) eqn:Hc.
    + destruct (IH fuel (estopBody rate s)) as (n & Hn & Hrun & Hcond);
        try lia.
      * destruct (estopBody_frame rate s) as (_ & Hk). rewrite Hk.
        unfold wrap32 in *. unfold accelUpdateInterval.
        rewrite Zminus_mod_idemp_l.
        replace (clock s + 10 - t0)%Z with ((clock s - t0) + 10)%Z by ring.
        rewrite <- Zplus_mod_idemp_l, Hclk.
        rewrite Z.mod_small; lia.
      * exists (S n). split; [lia|]. rewrite estopIter_succ.
        split; [exact Hrun|].
        intros [|k] Hk; [exact Hc|].
        rewrite estopIter_succ. apply Hcond. lia.
    + exists 0%nat. split; [lia|]. split; [reflexivity|]. intros k Hk; lia.
Qed.

Lemma estopForce_getM id s :
  getM id (estopForce s)
  = set_currentSpeed 0 (set_isRunning false (set_timer None (getM id s))).
Proof.
  destruct s as [m1 m2 cfg now io out la ls lb]. destruct id; reflexivity.
Qed.

Lemma estopForce_frame s :
  clock (estopForce s) = clock s
  /\ pins (estopForce s) M1_PWM_PIN = false
  /\ pins (estopForce s) M2_PWM_PIN = false.
Proof. destruct s as [m1 m2 cfg now io out la ls lb]. repeat split. Qed.

(** A motor without active boost keeps its target through ticks. *)
Lemma rampM_no_boost rate cfg now m :
  boostActive m = false ->
  boostActive (rampM rate cfg now m) = false
  /\ targetSpeed (rampM rate cfg now m) = targetSpeed m.
Proof.
  intros Hb. unfold rampM, boostExpired. rewrite Hb.
  destruct (isRunning m); cbn; auto.
Qed.

Lemma estopIter_no_boost rate id n : forall s,
  boostActive (getM id s) = false ->
  boostActive (getM id (estopIter rate n s)) = false
  /\ targetSpeed (getM id (estopIter rate n s)) = targetSpeed (getM id s).
Proof.
  induction n as [|n IH]; intros s Hb; [auto|].
  rewrite estopIter_last, estopBody_getM.
  destruct (IH s Hb) as (Hb' & Ht').
  destruct (rampM_no_boost rate (boostConfig (estopIter rate n s))
              (clock (estopIter rate n s)) _ Hb') as (A & B).
  split; [exact A|]. rewrite B. exact Ht'.
Qed.

(** Emergency stop while a boost is about to expire: the expiry puts the
    target back to the normal speed inside the loop, the motor accelerates
    again, the loop runs into its 500 ms limit, and the target on return is
    2000, not 0. *)
Example estop_during_boost :
  exists s', emergencyStop ACCEL_RATE 50 s_boosted = Some s'
    /\ clock s' = 1100%Z
    /\ currentSpeed (motor1 (estopIter ACCEL_RATE 20 (estopStart s_boosted)))
       == 1400
    /\ currentSpeed (motor1 (estopIter ACCEL_RATE 50 (estopStart s_boosted)))
       == 2000
    /\ currentSpeed (motor1 s') == 0
    /\ targetSpeed (motor1 s') == 2000.
Proof.
  eexists. split; [vm_compute; reflexivity|].
  evaluate.
Qed.

(** ** C4: direction reversal *)

Lemma waitBody_getM rate id s :
  getM id (waitBody rate id s)
  = rampM rate (boostConfig s) (clock s) (getM id s).
Proof.
  unfold waitBody.
  change (getM id (delay accelUpdateInterval ?x)) with (getM id x).
  apply updateSpeed_getM.
Qed.

Lemma waitIter_succ rate id n s :
  waitIter rate id (S n) s = waitIter rate id n (waitBody rate id s).
Proof. unfold waitIter. apply Nat.iter_succ_r. Qed.

Lemma rampM_settled rate cfg now limit T m :
  0 <= accelStep rate ->
  settledAbove limit T m -> settledAbove limit T (rampM rate cfg now m).
Proof.
  intros Hs (Hh & Hc & Hl & HT0 & HT1).
  split; [apply rampM_holds, Hh|].
  split; [|auto].
  rewrite (rampM_holds_value rate cfg now T m Hh).
  destruct Hh as (_ & _ & Ht).
  unfold rampValue. rewrite Ht, Hc, abs_Qabs.
  destruct (Qgtb (Qabs (T - T)) (accelStep rate)) eqn:E.
  - apply Qgtb_true in E. rewrite Qabs_pos in E by lra. lra.
  - apply constrain_id; assumption.
Qed.

(** Once the motor has settled on a target above the limit, the wait loop
    makes no progress, whatever the fuel. *)
Lemma waitBelow_settled rate limit id T :
  0 <= accelStep rate ->
  forall fuel s, settledAbove limit T (getM id s) ->
                 waitBelow rate limit fuel id s = None.
Proof.
  intros Hs. induction fuel as [|fuel IH]; intros s Hset;
    assert (Hc : Qgtb (currentSpeed (getM id s)) limit = true)
      by (destruct Hset as (_ & Hc & Hl & _); rewrite Hc;
          apply Qgtb_true; exact Hl);
    cbn [waitBelow]; rewrite Hc; [reflexivity|].
  apply IH. fold (waitBody rate id s). rewrite waitBody_getM.
  apply rampM_settled; assumption.
Qed.

(** The first [n] iterations of a wait loop whose condition holds all
    along can be skipped when showing that it never returns. *)
Lemma waitBelow_skip rate limit id : forall n fuel s,
  (forall k, (k < n)%nat ->
     Qgtb (currentSpeed (getM id (waitIter rate id k s))) limit = true) ->
  (forall fuel', waitBelow rate limit fuel' id (waitIter rate id n s) = None) ->
  waitBelow rate limit fuel id s = None.
Proof.
  induction n as [|n IH]; intros fuel s Hc Hn; [apply Hn|].
  assert (H0 : Qgtb (currentSpeed (getM id s)) limit = true)
    by (apply (Hc 0%nat); lia).
  destruct fuel as [|fuel]; cbn [waitBelow]; rewrite H0; [reflexivity|].
  apply (IH fuel (waitBody rate id s)).
  - intros k Hk. rewrite <- waitIter_succ. apply Hc. lia.
  - intros fuel'. rewrite <- waitIter_succ. apply Hn.
Qed.

Lemma forallb_seq (p : nat -> bool) n :
  forallb p (seq 0 n) = true -> forall k, (k < n)%nat -> p k = true.
Proof.
  intros H k Hk. rewrite forallb_forall in H. apply H.
  apply in_seq. lia.
Qed.

(** The part of C4 that needs no waiting: when the direction is unchanged
    or the speed is at most 500, the direction and its pin are committed at
    once and nothing else changes. *)
Lemma setDirection_immediate rate fuel id dir s :
  let newDir := if (dir >=? 0)%Z then 1%Z else (-1)%Z in
  newDir = direction (getM id s) \/ currentSpeed (getM id s) <= 500 ->
  setDirection rate fuel id dir s
  = Some (writeDirPin id (modM id (set_direction newDir) s)).
Proof.
  intros newDir H. unfold setDirection. fold newDir.
  destruct H as [H|H].
  - rewrite H, Z.eqb_refl. reflexivity.
  - apply Qgtb_false in H. rewrite H, andb_false_r. reflexivity.
Qed.

Lemma rampM_direction rate cfg now m :
  direction (rampM rate cfg now m) = direction m.
Proof.
  unfold rampM. destruct (isRunning m); cbn [negb]; [|reflexivity].
  destruct (boostExpired cfg now m); reflexivity.
Qed.

(** One iteration of the reversal wait on a motor without active boost:
    the target stays 200 and the speed does not rise; it falls by a whole
    [accelStep], or to 0 if the motor is not running. *)
Lemma rampM_slowing cfg now m :
  boostActive m = false -> targetSpeed m = 200 -> speed_ok m ->
  300 < currentSpeed m ->
  let m' := rampM ACCEL_RATE cfg now m in
  boostActive m' = false /\ targetSpeed m' = 200 /\ speed_ok m'
  /\ currentSpeed m' <= currentSpeed m - 80.
Proof.
  intros Hb Ht [H0 H1] Hc m'.
  destruct (rampM_no_boost ACCEL_RATE cfg now m Hb) as (A & B).
  split; [exact A|]. split; [subst m'; rewrite B; exact Ht|].
  split; [apply rampM_speed_ok|].
  subst m'. unfold rampM, boostExpired. rewrite Hb.
  destruct (isRunning m); cbn [negb andb currentSpeed set_currentSpeed].
  - unfold rampValue. rewrite Ht, abs_Qabs.
    pose proof accelStep_ACCEL_RATE as Hs.
    destruct (Qgtb (Qabs (200 - currentSpeed m)) (accelStep ACCEL_RATE)) eqn:E1.
    + destruct (Qgtb (200 - currentSpeed m) 0) eqn:E2; qfacts; [lra|].
      unfold MAX_SPEED in H1.
      rewrite constrain_id; unfold MAX_SPEED; lra.
    + apply Qgtb_false in E1. rewrite Qabs_neg in E1 by lra. lra.
  - lra.
Qed.

(** Without active boost the wait loop of a reversal returns: after at most
    [fuel] iterations, in each of which the direction is untouched and the
    speed does not rise, the speed is at most 300. *)
Lemma waitBelow_slowing id : forall fuel s,
  boostActive (getM id s) = false -> targetSpeed (getM id s) = 200 ->
  speed_ok (getM id s) ->
  currentSpeed (getM id s) <= 300 + 80 * inject_Z (Z.of_nat fuel) ->
  exists n, (n <= fuel)%nat
    /\ waitBelow ACCEL_RATE 300 fuel id s = Some (waitIter ACCEL_RATE id n s)
    /\ currentSpeed (getM id (waitIter ACCEL_RATE id n s)) <= 300
    /\ targetSpeed (getM id (waitIter ACCEL_RATE id n s)) = 200
    /\ direction (getM id (waitIter ACCEL_RATE id n s)) = direction (getM id s)
    /\ (forall k, (k < n)%nat ->
          300 < currentSpeed (getM id (waitIter ACCEL_RATE id k s))
          /\ direction (getM id (waitIter ACCEL_RATE id k s))
             = direction (getM id s)
          /\ currentSpeed (getM id (waitIter ACCEL_RATE id (S k) s))
             <= currentSpeed (getM id (waitIter ACCEL_RATE id k s))).
Proof.
  induction fuel as [|fuel IH]; intros s Hb Ht Hok Hc.
  - exists 0%nat. change (inject_Z (Z.of_nat 0)) with 0 in Hc.
    assert (Hle : currentSpeed (getM id s) <= 300) by lra.
    split; [lia|]. cbn [waitBelow waitIter Nat.iter].
    apply Qgtb_false in Hle as Hg. rewrite Hg.
    repeat split; try assumption. all: intros; lia.
  - cbn [waitBelow].
    destruct (Qgtb (currentSpeed (getM id s)) 300) eqn:Hg.
    + apply Qgtb_true in Hg.
      pose proof (rampM_slowing (boostConfig s) (clock s) (getM id s)
                    Hb Ht Hok Hg) as (A & B & C & D).
      rewrite <- waitBody_getM in A, B, C, D.
      fold (waitBody ACCEL_RATE id s).
      destruct (IH (waitBody ACCEL_RATE id s) A B C) as (n & Hn & Hr & Hf & Hft & Hd & Hk).
      { rewrite Nat2Z.inj_succ in Hc. unfold Z.succ in Hc.
        rewrite inject_Z_plus in Hc. change (inject_Z 1) with 1 in Hc. lra. }
      assert (Hdir : direction (getM id (waitBody ACCEL_RATE id s))
                     = direction (getM id s))
        by (rewrite waitBody_getM; apply rampM_direction).
      exists (S n). split; [lia|]. rewrite waitIter_succ.
      split; [exact Hr|]. split; [exact Hf|]. split; [exact Hft|].
      split; [rewrite Hd; exact Hdir|].
      intros [|k] Hlt.
      * change (waitIter ACCEL_RATE id 1 s) with (waitBody ACCEL_RATE id s).
        change (waitIter ACCEL_RATE id 0 s) with s.
        split; [exact Hg|]. split; [reflexivity|]. lra.
      * destruct (Hk k) as (K1 & K2 & K3); [lia|].
        rewrite (waitIter_succ ACCEL_RATE id (S k) s),
                (waitIter_succ ACCEL_RATE id k s).
        split; [exact K1|]. split; [rewrite K2; exact Hdir|exact K3].
    + exists 0%nat. split; [lia|]. cbn [waitIter Nat.iter].
      apply Qgtb_false in Hg.
      repeat split; try assumption. all: intros; lia.
Qed.

(** X10.  The part of C4 that holds: a reversal requested above 500 steps/s on a
    motor whose boost is not active returns (250 iterations always suffice),
    keeps the direction until the speed is at most 300, never lets the speed
    rise meanwhile, and then commits the direction and its pin and restores
    the target. *)
Lemma setDirection_without_boost fuel id dir s :
  let m := getM id s in
  let newDir := if (dir >=? 0)%Z then 1%Z else (-1)%Z in
  let s0 := reversalStart id s in
  boostActive m = false -> speed_ok m ->
  newDir <> direction m -> 500 < currentSpeed m -> (250 <= fuel)%nat ->
  exists n s',
    (n <= fuel)%nat
    /\ setDirection ACCEL_RATE fuel id dir s = Some s'
    /\ direction (getM id s') = newDir
    /\ pins s' (dirPin m) = negb (newDir =? 1)%Z
    /\ targetSpeed (getM id s') = targetSpeed m
    /\ currentSpeed (getM id s') <= 300
    /\ (forall k, (k < n)%nat ->
          300 < currentSpeed (getM id (waitIter ACCEL_RATE id k s0))
          /\ direction (getM id (waitIter ACCEL_RATE id k s0)) = direction m
          /\ currentSpeed (getM id (waitIter ACCEL_RATE id (S k) s0))
             <= currentSpeed (getM id (waitIter ACCEL_RATE id k s0))).
Proof.
  intros m newDir s0 Hb Hok Hdir Hc Hfuel.
  assert (Hm0 : getM id s0 = set_targetSpeed 200 m)
    by (subst s0 m; destruct id; reflexivity).
  destruct (waitBelow_slowing id fuel s0) as (n & Hn & Hr & Hf & Hft & Hd & Hk).
  - rewrite Hm0. exact Hb.
  - rewrite Hm0. reflexivity.
  - rewrite Hm0. exact Hok.
  - rewrite Hm0. cbn [currentSpeed set_targetSpeed].
    destruct Hok as [_ H1]. unfold MAX_SPEED in H1.
    assert (250 <= inject_Z (Z.of_nat fuel)).
    { change 250 with (inject_Z 250). rewrite <- Zle_Qle. lia. }
    lra.
  - exists n. eexists. split; [exact Hn|].
    split.
    { unfold setDirection. fold newDir.
      apply Z.eqb_neq in Hdir. fold m. rewrite Hdir.
      apply Qgtb_true in Hc. rewrite Hc. cbn [negb andb].
      change (modM id (set_targetSpeed 200) (println (MsgSlowing (name m)) s))
        with s0.
      rewrite Hr. reflexivity. }
    rewrite Hm0 in Hd, Hk.
    set (sw := waitIter ACCEL_RATE id n s0) in *.
    assert (Hpin : dirPin (getM id sw) = dirPin m).
    { subst sw. clear -Hm0.
      assert (G : forall k x, dirPin (getM id (waitIter ACCEL_RATE id k x))
                              = dirPin (getM id x)).
      { induction k as [|k IH]; intros x; [reflexivity|].
        rewrite waitIter_succ, IH, waitBody_getM.
        unfold rampM. destruct (isRunning _); cbn [negb]; [|reflexivity].
        destruct (boostExpired _ _ _); reflexivity. }
      rewrite G, Hm0. reflexivity. }
    split; [destruct id; reflexivity|].
    split.
    { unfold writeDirPin.
      destruct id; cbn [getM] in Hpin;
        cbn [pins modM setM digitalWrite set_pins getM motor1 motor2 dirPin
             set_direction];
        rewrite Hpin, Z.eqb_refl; reflexivity. }
    split; [destruct id; reflexivity|].
    split; [destruct id; exact Hf|].
    exact Hk.
Qed.

(** The same interplay in [stopMotor]: a STOP received in [s_boosted] lowers
    the target to 0, the boost expiry puts it back to 2000 inside the wait
    loop, and the loop never returns. *)
Lemma stopMotor_stalls_at_boost_expiry :
  forall fuel, stopMotor ACCEL_RATE fuel M1 s_boosted = None.
Proof.
  intros fuel. unfold stopMotor.
  rewrite (waitBelow_skip ACCEL_RATE 1 M1 30 fuel
             (modM M1 (set_targetSpeed 0) s_boosted)); [reflexivity| |].
  - apply (forallb_seq
             (fun k => Qgtb (currentSpeed
                               (getM M1 (waitIter ACCEL_RATE M1 k
                                           (modM M1 (set_targetSpeed 0)
                                                 s_boosted))))
                            1)).
    vm_compute. reflexivity.
  - intros fuel'. apply (waitBelow_settled ACCEL_RATE 1 M1 2000).
    + apply accelStep_nonneg. unfold ACCEL_RATE. lra.
    + unfold settledAbove, holds.
      repeat match goal with |- _ /\ _ => split end;
        try (vm_compute; reflexivity); intro H; discriminate H.
Qed.

(** C4 on the failing input.  In the reachable state [s_boosted] (motor 1
    forward at 3000 steps/s, boost expiring 200 ms later) a request for the
    backward direction enters the wait loop; after 20 iterations the boost
    expires and [updateSpeed] puts the target back to 2000, so the speed
    rises again (1400, then 1480) and settles at 2000 > 300: the loop never
    returns, whatever the fuel, and the direction is never committed. *)
Theorem C4_reversal_stalls_at_boost_expiry :
  reachable s_boosted
  /\ direction (getM M1 s_boosted) = 1%Z
  /\ currentSpeed (getM M1 s_boosted) == 3000
  /\ currentSpeed
       (getM M1 (waitIter ACCEL_RATE M1 20 (reversalStart M1 s_boosted)))
     == 1400
  /\ currentSpeed
       (getM M1 (waitIter ACCEL_RATE M1 21 (reversalStart M1 s_boosted)))
     == 1480
  /\ direction
       (getM M1 (waitIter ACCEL_RATE M1 21 (reversalStart M1 s_boosted)))
     = 1%Z
  /\ (forall fuel, setDirection ACCEL_RATE fuel M1 (-1) s_boosted = None)
  /\ (forall fuel,
        processCommand ACCEL_RATE fuel (CmdBackward Both) s_boosted = None).
Proof.
  assert (Hstall : forall fuel,
            setDirection ACCEL_RATE fuel M1 (-1) s_boosted = None).
  { intros fuel. unfold setDirection.
    replace (negb ((if (-1 >=? 0)%Z then 1%Z else (-1)%Z)
                   =? direction (getM M1 s_boosted))%Z
             && Qgtb (currentSpeed (getM M1 s_boosted)) 500)
      with true by (vm_compute; reflexivity).
    cbv zeta. fold (reversalStart M1 s_boosted).
    rewrite (waitBelow_skip ACCEL_RATE 300 M1 30 fuel (reversalStart M1 s_boosted));
      [reflexivity| |].
    - apply (forallb_seq
               (fun k => Qgtb (currentSpeed
                                 (getM M1 (waitIter ACCEL_RATE M1 k
                                             (reversalStart M1 s_boosted))))
                              300)).
      vm_compute. reflexivity.
    - intros fuel'. apply (waitBelow_settled ACCEL_RATE 300 M1 2000).
      + apply accelStep_nonneg. unfold ACCEL_RATE. lra.
      + unfold settledAbove, holds.
        repeat match goal with |- _ /\ _ => split end;
          try (vm_compute; reflexivity); intro H; discriminate H. }
  split; [exact s_boosted_reachable|].
  split; [vm_compute; reflexivity|].
  split; [vm_compute; reflexivity|].
  split; [vm_compute; reflexivity|].
  split; [vm_compute; reflexivity|].
  split; [vm_compute; reflexivity|].
  split; [exact Hstall|].
  intros fuel. cbn [processCommand onTargetOpt]. rewrite Hstall. reflexivity.
Qed.

(** * Further properties of the firmware *)

(** ** Closure of a state predicate under the firmware's operations

    A predicate kept by each basic operation is kept by the wait loops, by
    [setDirection], [stopMotor] and [emergencyStop], by every command, by
    the control tick and by a whole pass of [loop()], and so holds in every
    reachable state once it holds at power-up. *)

Lemma estopForce_halt s :
  estopForce s
  = println MsgEstopDone
      (digitalWrite (pwm_of M2) false
         (digitalWrite (pwm_of M1) false (halt M2 (halt M1 s)))).
Proof. destruct s as [m1 m2 cfg now io out la ls lb]. reflexivity. Qed.

Section Closure.

Variable rate : Q.
Variable P : State -> Prop.

Hypothesis P_updateSpeed : forall id s, P s -> P (updateSpeed rate id s).
Hypothesis P_updateTimers : forall s, P s -> P (updateTimers s).
Hypothesis P_setSpeed : forall id v s, P s -> P (setSpeed id v s).
Hypothesis P_applyBoost : forall id v s, P s -> P (applyBoost id v s).
Hypothesis P_commit : forall id d s,
  (d = 1 \/ d = -1)%Z -> P s -> P (commitDirection id d s).
Hypothesis P_target : forall id v s, P s -> P (modM id (set_targetSpeed v) s).
Hypothesis P_run : forall id s, P s -> P (modM id (set_isRunning true) s).
Hypothesis P_halt : forall id s, P s -> P (halt id s).
Hypothesis P_pwmLow : forall id s, P s -> P (digitalWrite (pwm_of id) false s).
Hypothesis P_led : forall v s, P s -> P (digitalWrite LED_BUILTIN v s).
Hypothesis P_quiet : forall s s',
  P s -> motor1 s' = motor1 s -> motor2 s' = motor2 s ->
  pins s' = pins s -> boostConfig s' = boostConfig s -> P s'.

Lemma closure_println msg s : P s -> P (println msg s).
Proof. intros H. apply (P_quiet s); auto. Qed.

Lemma closure_delay d s : P s -> P (delay d s).
Proof. intros H. apply (P_quiet s); auto. Qed.

Lemma closure_waitBelow limit fuel id : forall s s',
  P s -> waitBelow rate limit fuel id s = Some s' -> P s'.
Proof.
  induction fuel as [|fuel IH]; intros s s' H; cbn [waitBelow];
    destruct (Qgtb _ limit); try discriminate; try (intros [= <-]; assumption).
  apply IH. apply closure_delay, P_updateSpeed, H.
Qed.

Lemma closure_setDirection fuel id dir s s' :
  P s -> setDirection rate fuel id dir s = Some s' -> P s'.
Proof.
  intros H. unfold setDirection.
  assert (Hd : ((if (dir >=? 0)%Z then 1 else -1) = 1
                \/ (if (dir >=? 0)%Z then 1 else -1) = -1)%Z)
    by (destruct (dir >=? 0)%Z; auto).
  destruct (_ && _)%bool.
  - destruct (waitBelow _ _ _ _ _) as [s1|] eqn:E; cbn [bind]; [|discriminate].
    intros E'. apply (f_equal (fun o => match o with Some x => x | None => s end)) in E'.
    subst s'. apply P_target. apply (P_commit id _ s1 Hd).
    apply (closure_waitBelow _ _ _ _ _ (P_target _ _ _ (closure_println _ _ H)) E).
  - intros E'. apply (f_equal (fun o => match o with Some x => x | None => s end)) in E'.
    subst s'. apply (P_commit id _ s Hd H).
Qed.

Lemma closure_stopMotor fuel id s s' :
  P s -> stopMotor rate fuel id s = Some s' -> P s'.
Proof.
  intros H. unfold stopMotor.
  destruct (waitBelow _ _ _ _ _) as [s1|] eqn:E; cbn [bind]; [|discriminate].
  intros E'. apply (f_equal (fun o => match o with Some x => x | None => s end)) in E'.
  subst s'. apply (P_halt id s1).
  apply (closure_waitBelow _ _ _ _ _ (P_target _ _ _ H) E).
Qed.

Lemma closure_estopLoop t0 fuel : forall s s',
  P s -> estopLoop rate t0 fuel s = Some s' -> P s'.
Proof.
  induction fuel as [|fuel IH]; intros s s' H; cbn [estopLoop];
    destruct (estopCond t0 s); try discriminate; try (intros [= <-]; assumption).
  apply IH. unfold estopBody. apply closure_delay. auto.
Qed.

Lemma closure_emergencyStop fuel s s' :
  P s -> emergencyStop rate fuel s = Some s' -> P s'.
Proof.
  intros H. unfold emergencyStop.
  destruct (estopLoop _ _ _ _) as [s1|] eqn:E; cbn [bind]; [|discriminate].
  intros E'. apply (f_equal (fun o => match o with Some x => x | None => s end)) in E'.
  subst s'. rewrite estopForce_halt.
  apply closure_println. do 2 apply P_pwmLow. do 2 apply P_halt.
  apply (closure_estopLoop _ _ _ _ (P_target _ _ _ (P_target _ _ _ (closure_println _ _ H))) E).
Qed.

Lemma closure_onTarget t f s :
  (forall id s, P s -> P (f id s)) -> P s -> P (onTarget t f s).
Proof. intros Hf H. destruct t; cbn; auto. Qed.

Lemma closure_onTargetOpt t f s s' :
  (forall id s s', P s -> f id s = Some s' -> P s') ->
  P s -> onTargetOpt t f s = Some s' -> P s'.
Proof.
  intros Hf H. destruct t; cbn [onTargetOpt].
  - destruct (f M1 s) as [s1|] eqn:E; cbn [bind]; [|discriminate].
    intros E2. eapply Hf; [|exact E2]. eapply Hf; [|exact E]. exact H.
  - apply Hf, H.
Qed.

Lemma closure_turn fuel d1 d2 speedFn speed s s' :
  (forall id v s, P s -> P (speedFn id v s)) ->
  P s -> turn rate fuel d1 d2 speedFn speed s = Some s' -> P s'.
Proof.
  intros Hf H. unfold turn.
  destruct (setDirection rate fuel M1 d1 s) as [s1|] eqn:E1; cbn [bind];
    [|discriminate].
  destruct (setDirection rate fuel M2 d2 s1) as [s2|] eqn:E2; cbn [bind];
    [|discriminate].
  intros E'. apply (f_equal (fun o => match o with Some x => x | None => s end)) in E'.
  subst s'. do 2 apply P_run. do 2 apply Hf.
  apply (closure_setDirection _ _ _ _ _ (closure_setDirection _ _ _ _ _ H E1) E2).
Qed.

(** Commands: the two kinds of assignment that only some commands make are
    premises of their own, needed only for those commands. *)
Lemma closure_processCommand fuel cmd s s' :
  (writesPosition cmd = true ->
   forall id s, P s -> P (modM id (set_position 0) s)) ->
  (writesConfig cmd = true ->
   forall c s, P s -> P (set_boostConfig c s)) ->
  P s -> processCommand rate fuel cmd s = Some s' -> P s'.
Proof.
  intros Hpos Hcfg H.
  destruct cmd as [t v|t|t|t| |t| |t|d v|d v| |mu du en| | ];
    cbn [processCommand];
    try (destruct d);
    repeat match goal with
    | |- context [bind ?x _] =>
        let E := fresh "E" in
        destruct x as [?s1|] eqn:E; cbn [bind]; [|discriminate]
    end;
    intros E'; apply (f_equal (fun o => match o with Some x => x | None => s end)) in E';
    subst s'; try apply closure_println; try exact H.
  - apply closure_onTarget; auto.
  - eapply closure_onTargetOpt; [|exact H|eassumption].
    intros id s0 s0'. apply closure_setDirection.
  - eapply closure_onTargetOpt; [|exact H|eassumption].
    intros id s0 s0'. apply closure_setDirection.
  - eapply closure_onTargetOpt; [|exact H|eassumption].
    intros id s0 s0'. apply closure_stopMotor.
  - eapply closure_emergencyStop; eassumption.
  - apply closure_onTarget; auto.
  - eapply closure_onTargetOpt; [| |eassumption].
    + intros id s0 s0'. apply closure_stopMotor.
    + apply closure_onTarget; [|exact H]. apply Hpos. reflexivity.
  - eapply closure_turn; [|exact H|eassumption]. auto.
  - eapply closure_turn; [|exact H|eassumption]. auto.
  - eapply closure_turn; [|exact H|eassumption]. auto.
  - eapply closure_turn; [|exact H|eassumption]. auto.
  - eapply closure_turn; [|exact H|eassumption]. auto.
  - eapply closure_turn; [|exact H|eassumption]. auto.
  - do 2 (apply Hpos; [reflexivity|]). exact H.
  - apply Hcfg; [reflexivity|exact H].
Qed.

Lemma closure_tick s : P s -> P (tick rate s).
Proof.
  intros H. unfold tick.
  apply (P_quiet (updateTimers (updateSpeed rate M2 (updateSpeed rate M1 s))));
    auto.
Qed.

Lemma closure_loop fuel input s s' :
  (forall cmd, input = Some cmd -> writesPosition cmd = true ->
   forall id s, P s -> P (modM id (set_position 0) s)) ->
  (forall cmd, input = Some cmd -> writesConfig cmd = true ->
   forall c s, P s -> P (set_boostConfig c s)) ->
  P s -> loop rate fuel input s = Some s' -> P s'.
Proof.
  intros Hpos Hcfg H. unfold loop.
  destruct (match input with Some _ => _ | None => _ end) as [s1|] eqn:E;
    cbn [bind]; [|discriminate].
  assert (H1 : P s1).
  { destruct input as [cmd|].
    - eapply closure_processCommand; [| |exact H|exact E]; eauto.
    - injection E as <-. exact H. }
  intros E'. apply (f_equal (fun o => match o with Some x => x | None => s end)) in E'.
  subst s'. cbv zeta.
  match goal with
  | |- P (if ?b then set_lastBlink ?t (digitalWrite ?p ?v ?X) else ?X) =>
      assert (HX : P X);
      [|destruct b; [apply (P_quiet (digitalWrite p v X)); auto|exact HX]]
  end.
  match goal with
  | |- P (if ?b then set_lastSyncCheck ?t (checkSync ?Y) else ?Y) =>
      assert (HY : P Y);
      [destruct (_ <=? _)%Z; [apply closure_tick|]; exact H1
      |destruct b; [|exact HY];
       apply (P_quiet Y); auto; unfold checkSync;
       destruct (_ && _)%bool; reflexivity]
  end.
Qed.

Hypothesis P_isr : forall id s,
  P s -> timer (getM id s) <> None -> P (stepISR id s).
Hypothesis P_position : forall id s, P s -> P (modM id (set_position 0) s).
Hypothesis P_config : forall c s, P s -> P (set_boostConfig c s).
Hypothesis P_init : P init.
Hypothesis rate_firmware : rate = ACCEL_RATE.

Lemma closure_reachable s : reachable s -> P s.
Proof.
  induction 1; try rewrite <- rate_firmware in *; auto.
  - eapply closure_loop; eauto.
  - eapply closure_processCommand; eauto.
  - apply closure_tick; assumption.
  - eapply closure_setDirection; eauto.
  - eapply closure_stopMotor; eauto.
  - eapply closure_emergencyStop; eauto.
  - apply (P_quiet s); auto; unfold checkSync; destruct (_ && _)%bool;
      reflexivity.
  - apply closure_delay; assumption.
Qed.

End Closure.

(** *** Steps that leave the wiring, the positions and the directions alone *)

Lemma soft_refl m : soft m m.
Proof. unfold soft. auto 10. Qed.

Lemma rampM_soft rate cfg now m : soft m (rampM rate cfg now m).
Proof.
  unfold rampM, soft.
  destruct (isRunning m); cbn [negb]; [|cbn; auto 10].
  destruct (boostExpired cfg now m); cbn; auto 10.
Qed.

Lemma updateSpeed_softStep rate id s : softStep s (updateSpeed rate id s).
Proof.
  destruct (updateSpeed_frame rate id s) as (Hc & _ & Hp).
  split; [|auto]. intros id'.
  destruct (MotorId_cases id id') as [-> | ->].
  - rewrite updateSpeed_getM. apply rampM_soft.
  - rewrite updateSpeed_other. apply soft_refl.
Qed.

Lemma setSpeed_softStep id v s : softStep s (setSpeed id v s).
Proof.
  destruct (setSpeed_frame id v s) as (Hc & _ & Hp & _).
  split; [|auto]. intros id'.
  destruct (MotorId_cases id id') as [-> | ->].
  - rewrite setSpeed_getM. cbv zeta.
    destruct (_ && _)%bool; [|destruct (Qeq_bool _ _)]; unfold soft; cbn; auto 10.
  - rewrite setSpeed_other. apply soft_refl.
Qed.

Lemma applyBoost_softStep id v s : softStep s (applyBoost id v s).
Proof.
  unfold applyBoost.
  destruct (negb (enabled (boostConfig s))); [apply setSpeed_softStep|].
  destruct s as [m1 m2 cfg now io out la ls lb].
  split; [|destruct id; split; reflexivity].
  intros id'. destruct id, id'; unfold soft; cbn; auto 10.
Qed.

Lemma target_softStep id v s : softStep s (modM id (set_targetSpeed v) s).
Proof.
  split; [|destruct id; split; reflexivity].
  intros id'. destruct id, id'; unfold soft; cbn; auto 10.
Qed.

Lemma run_softStep id b s : softStep s (modM id (set_isRunning b) s).
Proof.
  split; [|destruct id; split; reflexivity].
  intros id'. destruct id, id'; unfold soft; cbn; auto 10.
Qed.

Lemma halt_softStep id s : softStep s (halt id s).
Proof.
  split; [|destruct id; split; reflexivity].
  intros id'. destruct id, id'; unfold soft; cbn; auto 10.
Qed.

Lemma quiet_softStep s s' :
  motor1 s' = motor1 s -> motor2 s' = motor2 s ->
  pins s' = pins s -> boostConfig s' = boostConfig s -> softStep s s'.
Proof.
  intros H1 H2 Hp Hc. split; [|auto].
  intros []; cbn [getM]; [rewrite H1|rewrite H2]; apply soft_refl.
Qed.

Lemma softStep_still s s' : softStep s s' -> stillStep s s'.
Proof.
  intros (Hm & Hp & Hc). split; [|auto].
  intros id. destruct (Hm id) as (A & B & C & D & _). auto.
Qed.

Lemma updateTimers_frame s :
  pins (updateTimers s) = pins s
  /\ boostConfig (updateTimers s) = boostConfig s
  /\ clock (updateTimers s) = clock s.
Proof.
  unfold updateTimers, updateTimer.
  destruct s as [m1 m2 cfg now io out la ls lb]. cbn [getM motor1 motor2].
  destruct (Qgtb (currentSpeed m1) 0 && isRunning m1)%bool;
    cbn -[Qgtb Qdiv];
    destruct (Qgtb (currentSpeed m2) 0 && isRunning m2)%bool;
    repeat split.
Qed.

Lemma updateTimers_stillStep s : stillStep s (updateTimers s).
Proof.
  destruct (updateTimers_frame s) as (Hp & Hc & _).
  split; [|auto]. intros id. rewrite updateTimers_getM.
  destruct (_ && _)%bool; cbn; auto.
Qed.

(** A predicate that still steps cannot break is kept by everything except
    the direction commit, the pin writes, the interrupts and the
    assignments to [position] and [boostConfig]. *)
Section Still.

Variable P : State -> Prop.
Hypothesis P_still : forall s s', P s -> stillStep s s' -> P s'.

Hypothesis P_commit : forall id d s,
  (d = 1 \/ d = -1)%Z -> P s -> P (commitDirection id d s).
Hypothesis P_pwmLow : forall id s, P s -> P (digitalWrite (pwm_of id) false s).
Hypothesis P_led : forall v s, P s -> P (digitalWrite LED_BUILTIN v s).

Lemma P_soft s s' : P s -> softStep s s' -> P s'.
Proof. intros H Hs. apply (P_still s s' H), softStep_still, Hs. Qed.

Lemma still_setDirection fuel id dir s s' :
  P s -> setDirection ACCEL_RATE fuel id dir s = Some s' -> P s'.
Proof.
  apply (closure_setDirection ACCEL_RATE P).
  - intros i x H. apply (P_soft x); [exact H|apply updateSpeed_softStep].
  - exact P_commit.
  - intros i v x H. apply (P_soft x); [exact H|apply target_softStep].
  - intros x x' H H1 H2 Hp Hc. apply (P_soft x); [exact H|].
    apply quiet_softStep; assumption.
Qed.

Lemma still_loop fuel input s s' :
  (forall cmd, input = Some cmd -> writesPosition cmd = true ->
   forall id s, P s -> P (modM id (set_position 0) s)) ->
  (forall cmd, input = Some cmd -> writesConfig cmd = true ->
   forall c s, P s -> P (set_boostConfig c s)) ->
  P s -> loop ACCEL_RATE fuel input s = Some s' -> P s'.
Proof.
  apply (closure_loop ACCEL_RATE P).
  - intros i x H. apply (P_soft x); [exact H|apply updateSpeed_softStep].
  - intros x H. apply (P_still x); [exact H|apply updateTimers_stillStep].
  - intros i v x H. apply (P_soft x); [exact H|apply setSpeed_softStep].
  - intros i v x H. apply (P_soft x); [exact H|apply applyBoost_softStep].
  - exact P_commit.
  - intros i v x H. apply (P_soft x); [exact H|apply target_softStep].
  - intros i x H. apply (P_soft x); [exact H|apply run_softStep].
  - intros i x H. apply (P_soft x); [exact H|apply halt_softStep].
  - exact P_pwmLow.
  - exact P_led.
  - intros x x' H H1 H2 Hp Hc. apply (P_soft x); [exact H|].
    apply quiet_softStep; assumption.
Qed.

Hypothesis P_isr : forall id s,
  P s -> timer (getM id s) <> None -> P (stepISR id s).
Hypothesis P_position : forall id s, P s -> P (modM id (set_position 0) s).
Hypothesis P_config : forall c s, P s -> P (set_boostConfig c s).
Hypothesis P_init : P init.

Lemma still_reachable s : reachable s -> P s.
Proof.
  apply (closure_reachable ACCEL_RATE P); try assumption; try reflexivity.
  - intros i x H. apply (P_soft x); [exact H|apply updateSpeed_softStep].
  - intros x H. apply (P_still x); [exact H|apply updateTimers_stillStep].
  - intros i v x H. apply (P_soft x); [exact H|apply setSpeed_softStep].
  - intros i v x H. apply (P_soft x); [exact H|apply applyBoost_softStep].
  - intros i v x H. apply (P_soft x); [exact H|apply target_softStep].
  - intros i x H. apply (P_soft x); [exact H|apply run_softStep].
  - intros i x H. apply (P_soft x); [exact H|apply halt_softStep].
  - intros x x' H H1 H2 Hp Hc. apply (P_soft x); [exact H|].
    apply quiet_softStep; assumption.
Qed.

End Still.

(** ** The direction outputs *)

Lemma outputs_ok_still s s' : outputs_ok s -> stillStep s s' -> outputs_ok s'.
Proof.
  intros [Hw Hd] (Hm & Hp & _). split; intros id;
    destruct (Hm id) as (A & B & C & D).
  - destruct (Hw id) as [W1 W2]. rewrite A, B. auto.
  - destruct (Hd id) as [D1 D2]. rewrite D, Hp. auto.
Qed.

Lemma outputs_ok_commit id d s :
  (d = 1 \/ d = -1)%Z -> outputs_ok s -> outputs_ok (commitDirection id d s).
Proof.
  intros Hd [Hw Ho].
  pose proof (Hw M1) as [W1p W1d]. pose proof (Hw M2) as [W2p W2d].
  pose proof (Ho M1) as [O1 O1p]. pose proof (Ho M2) as [O2 O2p].
  destruct s as [m1 m2 cfg now io out la ls lb].
  cbn [getM motor1 motor2 pins] in *.
  unfold commitDirection, writeDirPin.
  destruct id; cbn [getM modM setM motor1 motor2 dirPin set_direction
                    direction digitalWrite set_pins pins];
    [rewrite W1d|rewrite W2d];
    (split; intros []; cbn [getM motor1 motor2 pins pwmPin dirPin direction
                            set_direction pwm_of dir_of];
     try (split; assumption); split; try assumption;
     try exact Hd; try reflexivity).
Qed.

Lemma outputs_ok_pin pin v s :
  pin <> dir_of M1 -> pin <> dir_of M2 ->
  outputs_ok s -> outputs_ok (digitalWrite pin v s).
Proof.
  intros N1 N2 [Hw Ho]. split; [exact Hw|].
  intros id. destruct (Ho id) as [D1 D2]. split; [exact D1|].
  change (getM id (digitalWrite pin v s)) with (getM id s).
  cbn [digitalWrite set_pins pins].
  replace (dir_of id =? pin)%Z with false; [exact D2|].
  symmetry. apply Z.eqb_neq. destruct id; congruence.
Qed.

Lemma outputs_ok_set_position id v s :
  outputs_ok s -> outputs_ok (modM id (set_position v) s).
Proof.
  intros [Hw Ho]. split; intros id'.
  - specialize (Hw id'). destruct id, id'; exact Hw.
  - specialize (Ho id'). destruct id, id'; exact Ho.
Qed.

Lemma outputs_ok_isr id s : outputs_ok s -> outputs_ok (stepISR id s).
Proof.
  intros H. unfold stepISR.
  assert (Hp : pwmPin (getM id s) = pwm_of id) by (apply (proj1 H)).
  cbv zeta.
  change (getM id (digitalWrite (pwmPin (getM id s)) true s)) with (getM id s).
  rewrite Hp.
  apply outputs_ok_set_position.
  apply outputs_ok_pin; [destruct id; discriminate ..|].
  apply outputs_ok_pin; [destruct id; discriminate ..|]. exact H.
Qed.

Lemma outputs_ok_init : outputs_ok init.
Proof.
  split; intros []; cbn; auto.
Qed.

Lemma reachable_outputs_ok s : reachable s -> outputs_ok s.
Proof.
  apply (still_reachable outputs_ok).
  - exact outputs_ok_still.
  - exact outputs_ok_commit.
  - intros id x. apply outputs_ok_pin; destruct id; discriminate.
  - intros v x. apply outputs_ok_pin; discriminate.
  - intros id x H _. apply outputs_ok_isr, H.
  - intros id x. apply outputs_ok_set_position.
  - intros c x H. exact H.
  - exact outputs_ok_init.
Qed.

(** X1.  In every reachable state each motor's direction is 1 or -1, its
    direction output shows it (LOW for forward, HIGH for backward), and its
    pin fields are the ones it was initialised with. *)
Theorem direction_output_consistent : forall s id,
  reachable s ->
  (direction (getM id s) = 1 \/ direction (getM id s) = -1)%Z
  /\ pins s (dirPin (getM id s)) = negb (direction (getM id s) =? 1)%Z
  /\ pwmPin (getM id s) = pwm_of id
  /\ dirPin (getM id s) = dir_of id.
Proof.
  intros s id H. apply reachable_outputs_ok in H. destruct H as [Hw Hd].
  destruct (Hw id) as [W1 W2]. destruct (Hd id) as [D1 D2].
  rewrite W2. auto.
Qed.

(** ** The step period *)

Lemma period_bound c : 0 < c -> c <= MAX_SPEED -> 50 <= 1000000 / c.
Proof.
  intros H0 H1. apply Qle_shift_div_l; [exact H0|].
  unfold MAX_SPEED in H1. lra.
Qed.

Lemma rates_ok_same s s' :
  (forall id, currentSpeed (getM id s') = currentSpeed (getM id s)
              /\ timer (getM id s') = timer (getM id s)) ->
  rates_ok s -> rates_ok s'.
Proof.
  intros Hs [Hv Hp]. split.
  - apply speeds_ok_getM. intros id. destruct (Hs id) as [A _].
    unfold speed_ok. rewrite A. apply speeds_ok_getM. exact Hv.
  - intros id p Ht. destruct (Hs id) as [_ B]. rewrite B in Ht.
    apply (Hp id p Ht).
Qed.

Lemma rates_ok_soft s s' :
  rates_ok s -> softStep s s' -> speeds_ok s' -> rates_ok s'.
Proof.
  intros [_ Hp] (Hm & _) Hv. split; [exact Hv|].
  intros id p Ht. destruct (Hm id) as (_ & _ & _ & _ & _ & [E|E]);
    rewrite E in Ht; [apply (Hp id p Ht)|discriminate].
Qed.

Lemma rates_ok_updateTimers s : rates_ok s -> rates_ok (updateTimers s).
Proof.
  intros [Hv Hp]. split; [apply updateTimers_speeds_ok, Hv|].
  intros id p. rewrite updateTimers_getM.
  destruct (Qgtb (currentSpeed (getM id s)) 0) eqn:E; cbn [andb];
    [destruct (isRunning (getM id s))|]; cbn [timer set_timer];
    try discriminate.
  intros [= <-]. apply Qgtb_true in E.
  apply period_bound; [exact E|].
  apply (proj1 (speeds_ok_getM s) Hv id).
Qed.

Lemma halt_speeds_ok id s : speeds_ok s -> speeds_ok (halt id s).
Proof.
  intros [H1 H2]. destruct id; split; try assumption; apply speed_ok_zero.
Qed.

Lemma reachable_rates_ok s : reachable s -> rates_ok s.
Proof.
  apply (closure_reachable ACCEL_RATE rates_ok); try reflexivity.
  - intros id x H. apply (rates_ok_soft x); [exact H|apply updateSpeed_softStep|].
    apply updateSpeed_speeds_ok, H.
  - exact rates_ok_updateTimers.
  - intros id v x H. apply (rates_ok_soft x); [exact H|apply setSpeed_softStep|].
    apply setSpeed_speeds_ok, H.
  - intros id v x H. apply (rates_ok_soft x); [exact H|apply applyBoost_softStep|].
    apply applyBoost_speeds_ok, H.
  - intros id d x _. apply rates_ok_same. intros id'.
    destruct id, id'; split; reflexivity.
  - intros id v x. apply rates_ok_same. intros id'.
    destruct id, id'; split; reflexivity.
  - intros id x. apply rates_ok_same. intros id'.
    destruct id, id'; split; reflexivity.
  - intros id x H. apply (rates_ok_soft x); [exact H|apply halt_softStep|].
    apply halt_speeds_ok, H.
  - intros id x. apply rates_ok_same. intros id'.
    destruct id'; split; reflexivity.
  - intros v x. apply rates_ok_same. intros id'.
    destruct id'; split; reflexivity.
  - intros x x' H H1 H2 _ _. revert H. apply rates_ok_same. intros id'.
    destruct id'; cbn [getM]; rewrite ?H1, ?H2; split; reflexivity.
  - intros id x H _. revert H. apply rates_ok_same. intros id'.
    destruct id, id'; split; reflexivity.
  - intros id x. apply rates_ok_same. intros id'.
    destruct id, id'; split; reflexivity.
  - intros c x. apply rates_ok_same. intros id'.
    destruct id'; split; reflexivity.
  - split; [exact (reachable_speeds_ok init reach_init)|].
    intros [] p; discriminate.
Qed.

(** X2.  In every reachable state a programmed step timer has a period of at
    least 50 microseconds: the step rate never exceeds [MAX_SPEED]. *)
Theorem step_period_bounded : forall s id p,
  reachable s -> timer (getM id s) = Some p -> 50 <= p.
Proof.
  intros s id p H. apply reachable_rates_ok in H. apply (proj2 H).
Qed.

(** ** Who writes [position] and [boostConfig] *)

(** X3.  A pass of [loop()] leaves both position counters alone unless its
    command is SYNC or RESET, and leaves the boost configuration alone
    unless its command is CONFIG:BOOST. *)
Theorem loop_keeps_position_and_config : forall fuel input s s',
  loop ACCEL_RATE fuel input s = Some s' ->
  ((forall cmd, input = Some cmd -> writesPosition cmd = false) ->
   forall id, position (getM id s') = position (getM id s))
  /\ ((forall cmd, input = Some cmd -> writesConfig cmd = false) ->
      boostConfig s' = boostConfig s).
Proof.
  intros fuel input s s' Hrun. split; intros Hcmd.
  - apply (still_loop
             (fun x => forall id, position (getM id x) = position (getM id s)))
      with (fuel := fuel) (input := input) (s := s).
    + intros x x' H (Hm & _) id. destruct (Hm id) as (_ & _ & C & _).
      rewrite C. apply H.
    + intros id d x _ H id'. rewrite <- (H id').
      destruct id, id'; reflexivity.
    + intros id x H id'. rewrite <- (H id'). destruct id'; reflexivity.
    + intros v x H id'. rewrite <- (H id'). destruct id'; reflexivity.
    + intros cmd E W. rewrite (Hcmd cmd E) in W. discriminate.
    + intros cmd E W c x H id'. rewrite <- (H id'). destruct id'; reflexivity.
    + reflexivity.
    + exact Hrun.
  - apply (still_loop (fun x => boostConfig x = boostConfig s))
      with (fuel := fuel) (input := input) (s := s).
    + intros x x' H (_ & _ & Hc). rewrite Hc. exact H.
    + intros id d x _ H. rewrite <- H. destruct id; reflexivity.
    + intros id x H. exact H.
    + intros v x H. exact H.
    + intros cmd E W id x H. rewrite <- H. destruct id; reflexivity.
    + intros cmd E W. rewrite (Hcmd cmd E) in W. discriminate.
    + reflexivity.
    + exact Hrun.
Qed.

(** ** The position counter *)

Lemma wrap_long_range z : (LONG_MIN <= wrap_long z <= LONG_MAX)%Z.
Proof.
  unfold wrap_long, LONG_MIN, LONG_MAX.
  pose proof (Z.mod_pos_bound (z + 2 ^ 31) (2 ^ 32)). lia.
Qed.

Lemma wrap_long_add a b : wrap_long (wrap_long a + b) = wrap_long (a + b).
Proof.
  unfold wrap_long.
  replace ((a + 2 ^ 31) mod 2 ^ 32 - 2 ^ 31 + b + 2 ^ 31)%Z
    with ((a + 2 ^ 31) mod 2 ^ 32 + b)%Z by ring.
  rewrite Zplus_mod_idemp_l. f_equal. f_equal. ring.
Qed.

Lemma stepISR_getM id s :
  getM id (stepISR id s)
  = set_position (wrap_long (position (getM id s) + direction (getM id s)))
                 (getM id s)
  /\ getM (other id) (stepISR id s) = getM (other id) s.
Proof. destruct id; split; reflexivity. Qed.

(** X4.  [n] step interrupts of a motor move its position counter by [n] times
    its direction, in 32-bit signed arithmetic, and touch neither its other
    fields nor the other motor. *)
Theorem stepISR_counts : forall n id s,
  (LONG_MIN <= position (getM id s) <= LONG_MAX)%Z ->
  let s' := Nat.iter n (stepISR id) s in
  position (getM id s')
  = wrap_long (position (getM id s) + Z.of_nat n * direction (getM id s))
  /\ getM id s' = set_position (position (getM id s')) (getM id s)
  /\ getM (other id) s' = getM (other id) s
  /\ ((LONG_MIN <= position (getM id s) + Z.of_nat n * direction (getM id s)
       <= LONG_MAX)%Z ->
      position (getM id s')
      = (position (getM id s) + Z.of_nat n * direction (getM id s))%Z).
Proof.
  intros n id s Hr. cbv zeta.
  assert (H : position (getM id (Nat.iter n (stepISR id) s))
              = wrap_long (position (getM id s)
                           + Z.of_nat n * direction (getM id s))
              /\ getM id (Nat.iter n (stepISR id) s)
                 = set_position (position (getM id (Nat.iter n (stepISR id) s)))
                                (getM id s)
              /\ getM (other id) (Nat.iter n (stepISR id) s)
                 = getM (other id) s).
  { induction n as [|n IH].
    - change (Nat.iter 0 (stepISR id) s) with s.
      cbn [Z.of_nat]. rewrite Z.mul_0_l, Z.add_0_r.
      rewrite wrap_long_small by exact Hr.
      split; [reflexivity|]. split; [|reflexivity].
      destruct (getM id s); reflexivity.
    - change (Nat.iter (S n) (stepISR id) s)
        with (stepISR id (Nat.iter n (stepISR id) s)).
      destruct IH as (A & B & C).
      destruct (stepISR_getM id (Nat.iter n (stepISR id) s)) as [G1 G2].
      rewrite G1, G2. cbn [position set_position].
      assert (D : direction (getM id (Nat.iter n (stepISR id) s))
                  = direction (getM id s)) by (rewrite B; reflexivity).
      rewrite D, A, wrap_long_add.
      split; [f_equal; lia|]. split; [|exact C].
      rewrite B. reflexivity. }
  destruct H as (A & B & C).
  split; [exact A|]. split; [exact B|]. split; [exact C|].
  intros Hin. rewrite A. apply wrap_long_small. exact Hin.
Qed.

(** *** Many steps *)

Lemma pulses_succ id n s :
  pulses id (Pos.succ n) s = stepISR id (pulses id n s).
Proof. unfold pulses. apply Pos.iter_succ. Qed.

Lemma pulses_spec id n s :
  (LONG_MIN <= position (getM id s) <= LONG_MAX)%Z ->
  position (getM id (pulses id n s))
  = wrap_long (position (getM id s) + Zpos n * direction (getM id s))
  /\ getM id (pulses id n s)
     = set_position (position (getM id (pulses id n s))) (getM id s)
  /\ getM (other id) (pulses id n s) = getM (other id) s.
Proof.
  intros Hr. induction n as [|n IH] using Pos.peano_ind.
  - change (pulses id 1 s) with (stepISR id s).
    destruct (stepISR_getM id s) as [G1 G2]. rewrite G1, G2.
    cbn [position set_position]. rewrite Z.mul_1_l.
    split; [reflexivity|]. split; reflexivity.
  - rewrite pulses_succ. destruct IH as (A & B & C).
    destruct (stepISR_getM id (pulses id n s)) as [G1 G2].
    rewrite G1, G2. cbn [position set_position].
    assert (D : direction (getM id (pulses id n s)) = direction (getM id s))
      by (rewrite B; reflexivity).
    rewrite D, A, wrap_long_add.
    split; [f_equal; lia|]. split; [|exact C].
    rewrite B. reflexivity.
Qed.

Lemma pulses_reachable id n s :
  reachable s -> timer (getM id s) <> None ->
  (LONG_MIN <= position (getM id s) <= LONG_MAX)%Z ->
  reachable (pulses id n s).
Proof.
  intros Hs Ht Hr. induction n as [|n IH] using Pos.peano_ind.
  - apply reach_isr; assumption.
  - rewrite pulses_succ. apply reach_isr; [exact IH|].
    destruct (pulses_spec id n s Hr) as (_ & B & _).
    rewrite B. exact Ht.
Qed.

(** Two motors that start at position 0 and turn against each other, [n]
    steps each. *)
Lemma pulses_apart n s :
  reachable s ->
  position (motor1 s) = 0%Z -> position (motor2 s) = 0%Z ->
  direction (motor1 s) = (-1)%Z -> direction (motor2 s) = 1%Z ->
  timer (motor1 s) <> None -> timer (motor2 s) <> None ->
  (Zpos n <= 2 ^ 30)%Z ->
  reachable (pulses M2 n (pulses M1 n s))
  /\ position (motor1 (pulses M2 n (pulses M1 n s))) = (- Zpos n)%Z
  /\ position (motor2 (pulses M2 n (pulses M1 n s))) = Zpos n
  /\ isRunning (motor1 (pulses M2 n (pulses M1 n s))) = isRunning (motor1 s).
Proof.
  intros R P1 P2 D1 D2 T1 T2 Hn.
  assert (L1 : (LONG_MIN <= position (getM M1 s) <= LONG_MAX)%Z)
    by (cbn [getM]; rewrite P1; unfold LONG_MIN, LONG_MAX; lia).
  destruct (pulses_spec M1 n s L1) as (A1 & B1 & C1).
  cbn [getM other] in A1, B1, C1. rewrite P1, D1 in A1.
  set (s1 := pulses M1 n s) in *.
  assert (L2 : (LONG_MIN <= position (getM M2 s1) <= LONG_MAX)%Z)
    by (cbn [getM]; rewrite C1, P2; unfold LONG_MIN, LONG_MAX; lia).
  destruct (pulses_spec M2 n s1 L2) as (A2 & B2 & C2).
  cbn [getM other] in A2, B2, C2. rewrite C1, P2, D2 in A2.
  set (s' := pulses M2 n s1) in *.
  split.
  { apply pulses_reachable; [apply pulses_reachable; assumption| |exact L2].
    cbn [getM]. rewrite C1. exact T2. }
  split.
  { rewrite C2, A1. rewrite wrap_long_small by (unfold LONG_MIN, LONG_MAX; lia).
    lia. }
  split.
  { rewrite A2. rewrite wrap_long_small by (unfold LONG_MIN, LONG_MAX; lia).
    lia. }
  rewrite C2, B1. reflexivity.
Qed.

Lemma checkSync_quiet s :
  (drift32 s <= SYNC_THRESHOLD)%Z -> checkSync s = s.
Proof.
  intros H. unfold checkSync. fold (drift32 s).
  replace (drift32 s >? SYNC_THRESHOLD)%Z with false; [reflexivity|].
  symmetry. rewrite Z.gtb_ltb. apply Z.ltb_ge. exact H.
Qed.

Lemma advisoryRaised_irrefl s : ~ advisoryRaised s s.
Proof.
  intros (d & p1 & p2 & H).
  apply (f_equal (@List.length _)) in H. cbn in H. lia.
Qed.

Lemma s_turning_facts :
  reachable s_turning
  /\ (position (motor1 s_turning) = 0 /\ position (motor2 s_turning) = 0
      /\ direction (motor1 s_turning) = -1
      /\ direction (motor2 s_turning) = 1
      /\ isRunning (motor1 s_turning) = true)%Z
  /\ timer (motor1 s_turning) <> None /\ timer (motor2 s_turning) <> None.
Proof.
  split; [apply after_reachable; reflexivity|].
  split; [evaluate|].
  split; intro H; vm_compute in H; discriminate H.
Qed.

(** C9, as stated, fails: in the reachable state [s_far] the positions are
    [-2^30] and [2^30] and both motors are running, so
    [|position1 - position2| = 2^31 > SYNC_THRESHOLD]; the difference does
    not fit the [long] it is computed in, the computed drift is negative,
    and [checkSync] raises no advisory. *)
Lemma C9_counterexample :
  reachable s_far
  /\ position (motor1 s_far) = (- 2 ^ 30)%Z
  /\ position (motor2 s_far) = (2 ^ 30)%Z
  /\ isRunning (motor1 s_far) = true
  /\ (Z.abs (position (motor1 s_far) - position (motor2 s_far))
      > SYNC_THRESHOLD)%Z
  /\ drift32 s_far = (- 2 ^ 31)%Z
  /\ checkSync s_far = s_far
  /\ ~ advisoryRaised s_far (checkSync s_far).
Proof.
  destruct s_turning_facts as (R0 & (P1 & P2 & D1 & D2 & I1) & T1 & T2).
  assert (Hn : (Zpos (2 ^ 30) <= 2 ^ 30)%Z) by (vm_compute; discriminate).
  unfold s_far.
  destruct (pulses_apart (2 ^ 30) s_turning R0 P1 P2 D1 D2 T1 T2 Hn)
    as (R & Q1 & Q2 & I).
  set (s := pulses M2 (2 ^ 30) (pulses M1 (2 ^ 30) s_turning)) in *.
  clearbody s.
  assert (E1 : (- Zpos (2 ^ 30) = - 2 ^ 30)%Z) by (vm_compute; reflexivity).
  assert (E2 : (Zpos (2 ^ 30) = 2 ^ 30)%Z) by (vm_compute; reflexivity).
  rewrite E1 in Q1. rewrite E2 in Q2. rewrite I1 in I.
  assert (Dr : drift32 s = (- 2 ^ 31)%Z).
  { unfold drift32. rewrite Q1, Q2. vm_compute. reflexivity. }
  assert (E : checkSync s = s).
  { apply checkSync_quiet. rewrite Dr. vm_compute. discriminate. }
  split; [exact R|]. split; [exact Q1|]. split; [exact Q2|].
  split; [exact I|].
  split; [rewrite Q1, Q2; vm_compute; reflexivity|].
  split; [exact Dr|]. split; [exact E|].
  rewrite E. apply advisoryRaised_irrefl.
Qed.

(** ** SYNC, and what STATUS and the drift check see afterwards *)

(** X5.  SYNC sets both position counters to 0 and changes nothing else in the
    motors; the STATUS that follows reports a drift of 0, and the drift
    check that follows raises no advisory. *)
Theorem sync_resets_drift : forall rate fuel s,
  exists s1 s2,
    processCommand rate fuel CmdSync s = Some s1
    /\ processCommand rate fuel CmdStatus s1 = Some s2
    /\ (forall id, getM id s1 = set_position 0 (getM id s))
    /\ serial s2
       = MsgStatus (set_position 0 (motor1 s)) (set_position 0 (motor2 s)) 0
         :: MsgSynchronized :: serial s
    /\ checkSync s1 = s1
    /\ boostConfig s1 = boostConfig s /\ clock s1 = clock s
    /\ pins s1 = pins s.
Proof.
  intros rate fuel s. do 2 eexists.
  split; [reflexivity|]. split; [reflexivity|].
  split; [intros []; reflexivity|].
  repeat split.
Qed.

(** ** The cadence of [loop()] *)

Lemma updateSpeed_book rate id s :
  lastAccelUpdate (updateSpeed rate id s) = lastAccelUpdate s
  /\ lastSyncCheck (updateSpeed rate id s) = lastSyncCheck s
  /\ lastBlink (updateSpeed rate id s) = lastBlink s.
Proof.
  unfold updateSpeed.
  destruct s as [m1 m2 cfg now io out la ls lb].
  destruct id; cbn [getM motor1 motor2];
    (destruct (isRunning _); cbn [negb]; [|repeat split; reflexivity]);
    (destruct (boostActive _ && _)%bool; cbn;
      (destruct (Qgtb (abs _) _); [destruct (Qgtb _ 0)|]; repeat split; reflexivity)).
Qed.

Lemma updateTimers_book s :
  lastAccelUpdate (updateTimers s) = lastAccelUpdate s
  /\ lastSyncCheck (updateTimers s) = lastSyncCheck s
  /\ lastBlink (updateTimers s) = lastBlink s.
Proof.
  unfold updateTimers, updateTimer.
  destruct s as [m1 m2 cfg now io out la ls lb]. cbn [getM motor1 motor2].
  destruct (Qgtb (currentSpeed m1) 0 && isRunning m1)%bool;
    cbn -[Qgtb Qdiv];
    destruct (Qgtb (currentSpeed m2) 0 && isRunning m2)%bool;
    repeat split.
Qed.

Lemma tick_book rate s :
  clock (tick rate s) = clock s
  /\ lastAccelUpdate (tick rate s) = clock s
  /\ lastSyncCheck (tick rate s) = lastSyncCheck s
  /\ lastBlink (tick rate s) = lastBlink s.
Proof.
  unfold tick, millis.
  destruct (updateSpeed_frame rate M1 s) as (_ & K1 & _).
  destruct (updateSpeed_frame rate M2 (updateSpeed rate M1 s)) as (_ & K2 & _).
  destruct (updateTimers_frame (updateSpeed rate M2 (updateSpeed rate M1 s)))
    as (_ & _ & K3).
  destruct (updateSpeed_book rate M1 s) as (_ & S1 & B1).
  destruct (updateSpeed_book rate M2 (updateSpeed rate M1 s)) as (_ & S2 & B2).
  destruct (updateTimers_book (updateSpeed rate M2 (updateSpeed rate M1 s)))
    as (_ & S3 & B3).
  cbn [clock lastAccelUpdate lastSyncCheck lastBlink set_lastAccelUpdate].
  rewrite K3, K2, K1, S3, S2, S1, B3, B2, B1. auto.
Qed.

Lemma checkSync_book s :
  clock (checkSync s) = clock s
  /\ lastAccelUpdate (checkSync s) = lastAccelUpdate s
  /\ lastSyncCheck (checkSync s) = lastSyncCheck s
  /\ lastBlink (checkSync s) = lastBlink s.
Proof. unfold checkSync. destruct (_ && _)%bool; auto. Qed.

Lemma loop_settled rate fuel s :
  settled s -> loop rate fuel None s = Some s.
Proof.
  intros (A & B & C). unfold loop. cbn [bind].
  apply Z.leb_gt in A. rewrite A. apply Z.leb_gt in B. rewrite B.
  apply Z.ltb_ge in C. rewrite C. reflexivity.
Qed.

Lemma wrap32_diag t : wrap32 (t - t) = 0%Z.
Proof. rewrite Z.sub_diag. reflexivity. Qed.

Lemma loop_settles rate fuel input s s' :
  loop rate fuel input s = Some s' -> settled s'.
Proof.
  unfold loop.
  destruct (match input with Some _ => _ | None => _ end) as [s1|];
    cbn [bind]; [|discriminate].
  intros E'. apply (f_equal (fun o => match o with Some x => x | None => s end)) in E'.
  subst s'. cbv zeta.
  set (s2 := if (accelUpdateInterval <=? wrap32 (millis s1 - lastAccelUpdate s1))%Z
             then tick rate s1 else s1).
  assert (H2 : (wrap32 (millis s2 - lastAccelUpdate s2) < accelUpdateInterval)%Z).
  { subst s2.
    destruct (accelUpdateInterval <=? wrap32 (millis s1 - lastAccelUpdate s1))%Z
      eqn:E.
    - destruct (tick_book rate s1) as (K & A & _). unfold millis.
      rewrite K, A, wrap32_diag. reflexivity.
    - apply Z.leb_gt in E. exact E. }
  set (s3 := if (SYNC_CHECK_INTERVAL <=? wrap32 (millis s2 - lastSyncCheck s2))%Z
             then set_lastSyncCheck (millis s2) (checkSync s2) else s2).
  assert (H3 : (wrap32 (millis s3 - lastAccelUpdate s3) < accelUpdateInterval)%Z
               /\ (wrap32 (millis s3 - lastSyncCheck s3) < SYNC_CHECK_INTERVAL)%Z).
  { subst s3.
    destruct (SYNC_CHECK_INTERVAL <=? wrap32 (millis s2 - lastSyncCheck s2))%Z
      eqn:E.
    - destruct (checkSync_book s2) as (K & A & _). unfold millis in *.
      cbn [clock lastAccelUpdate lastSyncCheck set_lastSyncCheck].
      rewrite K, A, wrap32_diag. split; [exact H2|reflexivity].
    - apply Z.leb_gt in E. auto. }
  destruct H3 as [H3a H3s].
  destruct (1000 <? wrap32 (millis s3 - lastBlink s3))%Z eqn:E.
  - unfold settled, millis in *.
    cbn [clock lastAccelUpdate lastSyncCheck lastBlink set_lastBlink
         digitalWrite set_pins].
    rewrite wrap32_diag. repeat split; try assumption. discriminate.
  - apply Z.ltb_ge in E. repeat split; assumption.
Qed.

(** X6.  After a pass of [loop()], a further pass without input and without
    time having passed does nothing: no second tick, no second drift
    check, no output. *)
Theorem loop_quiescent : forall rate fuel fuel' input s s',
  loop rate fuel input s = Some s' ->
  loop rate fuel' None s' = Some s'.
Proof.
  intros rate fuel fuel' input s s' H.
  apply loop_settled. apply (loop_settles rate fuel input s s' H).
Qed.

(** ** SPIN and BOOST *)

Lemma waitBelow_other rate limit fuel id : forall s s',
  waitBelow rate limit fuel id s = Some s' ->
  getM (other id) s' = getM (other id) s /\ boostConfig s' = boostConfig s.
Proof.
  induction fuel as [|fuel IH]; intros s s'; cbn [waitBelow];
    destruct (Qgtb _ limit); try discriminate;
    try (intros [= <-]; split; reflexivity).
  intros H. destruct (IH _ _ H) as [A B].
  destruct (updateSpeed_frame rate id s) as (Hc & _).
  rewrite A, B. change (boostConfig (delay _ ?x)) with (boostConfig x).
  change (getM (other id) (delay accelUpdateInterval ?x)) with (getM (other id) x).
  rewrite updateSpeed_other. auto.
Qed.

Lemma waitBelow_direction rate limit fuel id : forall s s',
  waitBelow rate limit fuel id s = Some s' ->
  direction (getM id s') = direction (getM id s).
Proof.
  induction fuel as [|fuel IH]; intros s s'; cbn [waitBelow];
    destruct (Qgtb _ limit); try discriminate;
    try (intros [= <-]; reflexivity).
  intros H. rewrite (IH _ _ H).
  change (getM id (delay accelUpdateInterval ?x)) with (getM id x).
  rewrite updateSpeed_getM. apply rampM_direction.
Qed.

(** What [setDirection] has done when it returns: the requested direction
    is in the field, and the other motor and the boost configuration are
    as before. *)
Lemma setDirection_post rate fuel id dir s s' :
  setDirection rate fuel id dir s = Some s' ->
  direction (getM id s') = normDir dir
  /\ getM (other id) s' = getM (other id) s
  /\ boostConfig s' = boostConfig s.
Proof.
  unfold setDirection. fold (normDir dir).
  destruct (_ && _)%bool.
  - destruct (waitBelow _ _ _ _ _) as [s1|] eqn:E; cbn [bind]; [|discriminate].
    intros [= <-]. destruct (waitBelow_other _ _ _ _ _ _ E) as [A B].
    split; [destruct id; reflexivity|].
    split; [|destruct id; exact B].
    transitivity (getM (other id) s1); [destruct id; reflexivity|].
    rewrite A. destruct id; reflexivity.
  - intros [= <-]. destruct id; repeat split.
Qed.

Lemma setSpeed_target id v s :
  targetSpeed (getM id (setSpeed id v s)) = constrain v 0 MAX_SPEED.
Proof.
  rewrite setSpeed_getM. cbv zeta.
  destruct (_ && _)%bool; [|destruct (Qeq_bool _ _)]; reflexivity.
Qed.

Lemma setSpeed_direction id id' v s :
  direction (getM id' (setSpeed id v s)) = direction (getM id' s).
Proof.
  destruct (setSpeed_softStep id v s) as (Hm & _).
  destruct (Hm id') as (_ & _ & _ & D & _). exact D.
Qed.

Lemma turn_setSpeed_post rate fuel d1 d2 v s s' :
  turn rate fuel d1 d2 setSpeed v s = Some s' ->
  direction (motor1 s') = normDir d1
  /\ direction (motor2 s') = normDir d2
  /\ (forall id, targetSpeed (getM id s') = constrain v 0 MAX_SPEED
                 /\ isRunning (getM id s') = true).
Proof.
  unfold turn.
  destruct (setDirection rate fuel M1 d1 s) as [s1|] eqn:E1; cbn [bind];
    [|discriminate].
  destruct (setDirection rate fuel M2 d2 s1) as [s2|] eqn:E2; cbn [bind];
    [|discriminate].
  intros E'. apply (f_equal (fun o => match o with Some x => x | None => s end)) in E'.
  subst s'.
  destruct (setDirection_post _ _ _ _ _ _ E1) as (A1 & _ & _).
  destruct (setDirection_post _ _ _ _ _ _ E2) as (A2 & B2 & _).
  cbn [other] in B2.
  set (s3 := setSpeed M1 v s2). set (s4 := setSpeed M2 v s3).
  assert (D1 : direction (getM M1 s4) = normDir d1).
  { subst s4 s3. rewrite !setSpeed_direction, B2. exact A1. }
  assert (D2 : direction (getM M2 s4) = normDir d2).
  { subst s4 s3. rewrite !setSpeed_direction. exact A2. }
  assert (T1 : targetSpeed (getM M1 s4) = constrain v 0 MAX_SPEED).
  { subst s4. rewrite (setSpeed_other M2 v s3 : getM M1 _ = getM M1 _).
    apply setSpeed_target. }
  assert (T2 : targetSpeed (getM M2 s4) = constrain v 0 MAX_SPEED)
    by apply setSpeed_target.
  split; [exact D1|]. split; [exact D2|].
  intros []; split; try reflexivity; assumption.
Qed.

(** X7.  SPIN:LEFT and SPIN:RIGHT, when they return, leave the two motors with
    opposite directions, the same clamped target, and both running - also
    for a speed of 0, which SPEED would have turned into a stop. *)
Theorem spin_result : forall rate fuel d v s s',
  processCommand rate fuel (CmdSpin d v) s = Some s' ->
  d <> SpinInvalid ->
  direction (motor1 s') = (match d with SpinLeft => -1 | _ => 1 end)%Z
  /\ direction (motor2 s') = (- direction (motor1 s'))%Z
  /\ (forall id, targetSpeed (getM id s') = constrain v 0 MAX_SPEED
                 /\ isRunning (getM id s') = true).
Proof.
  intros rate fuel d v s s' H Hd.
  destruct d; [| |congruence]; cbn [processCommand] in H;
    (destruct (turn _ _ _ _ _ _ _) as [s1|] eqn:E; cbn [bind] in H;
     [|discriminate]);
    apply (f_equal (fun o => match o with Some x => x | None => s end)) in H;
    subst s';
    destruct (turn_setSpeed_post _ _ _ _ _ _ _ E) as (A & B & C);
    (split; [exact A|]); (split; [|exact C]);
    change (motor2 (println _ s1)) with (motor2 s1);
    change (motor1 (println _ s1)) with (motor1 s1);
    rewrite A, B; reflexivity.
Qed.

Lemma applyBoost_disabled id v s :
  enabled (boostConfig s) = false -> applyBoost id v s = setSpeed id v s.
Proof. intros H. unfold applyBoost. rewrite H. reflexivity. Qed.

Lemma turn_disabled rate fuel d1 d2 v s :
  enabled (boostConfig s) = false ->
  turn rate fuel d1 d2 applyBoost v s = turn rate fuel d1 d2 setSpeed v s.
Proof.
  intros He. unfold turn.
  destruct (setDirection rate fuel M1 d1 s) as [s1|] eqn:E1; cbn [bind];
    [|reflexivity].
  destruct (setDirection rate fuel M2 d2 s1) as [s2|] eqn:E2; cbn [bind];
    [|reflexivity].
  destruct (setDirection_post _ _ _ _ _ _ E1) as (_ & _ & C1).
  destruct (setDirection_post _ _ _ _ _ _ E2) as (_ & _ & C2).
  assert (H2 : enabled (boostConfig s2) = false) by (rewrite C2, C1; exact He).
  rewrite (applyBoost_disabled M1 v s2 H2).
  rewrite (applyBoost_disabled M2 v (setSpeed M1 v s2)); [reflexivity|].
  destruct (setSpeed_frame M1 v s2) as (Hc & _). rewrite Hc. exact H2.
Qed.

(** X8.  With boost disabled, BOOST:LEFT and BOOST:RIGHT are SPIN:LEFT and
    SPIN:RIGHT: the same outcome, or both never return, and only the
    acknowledgement differs. *)
Theorem boost_disabled_is_spin : forall rate fuel v s,
  enabled (boostConfig s) = false ->
  sameOutcome (processCommand rate fuel (CmdSpin SpinLeft v) s)
              (processCommand rate fuel (CmdBoost BoostLeft v) s)
  /\ sameOutcome (processCommand rate fuel (CmdSpin SpinRight v) s)
                 (processCommand rate fuel (CmdBoost BoostRight v) s).
Proof.
  intros rate fuel v s He. cbn [processCommand].
  rewrite !(turn_disabled rate fuel _ _ v s He).
  split.
  - destruct (turn rate fuel (-1) 1 setSpeed v s); cbn; [|exact I].
    repeat split.
  - destruct (turn rate fuel 1 (-1) setSpeed v s); cbn; [|exact I].
    repeat split.
Qed.

(** ** STOP without boost *)

(** One iteration of the stop wait on a motor without active boost: the
    target stays 0 and the speed falls by a whole [accelStep] or to 0. *)
Lemma rampM_stopping cfg now m :
  boostActive m = false -> targetSpeed m = 0 -> speed_ok m ->
  1 < currentSpeed m ->
  let m' := rampM ACCEL_RATE cfg now m in
  boostActive m' = false /\ targetSpeed m' = 0 /\ speed_ok m'
  /\ (currentSpeed m' <= currentSpeed m - 80 \/ currentSpeed m' == 0)
  /\ currentSpeed m' <= currentSpeed m.
Proof.
  intros Hb Ht [H0 H1] Hc m'.
  destruct (rampM_no_boost ACCEL_RATE cfg now m Hb) as (A & B).
  split; [exact A|]. split; [subst m'; rewrite B; exact Ht|].
  split; [apply rampM_speed_ok|].
  subst m'. unfold rampM, boostExpired. rewrite Hb.
  destruct (isRunning m); cbn [negb andb currentSpeed set_currentSpeed].
  - unfold rampValue. rewrite Ht, abs_Qabs.
    pose proof accelStep_ACCEL_RATE as Hs.
    destruct (Qgtb (Qabs (0 - currentSpeed m)) (accelStep ACCEL_RATE)) eqn:E1.
    + apply Qgtb_true in E1. rewrite Qabs_neg in E1 by lra.
      destruct (Qgtb (0 - currentSpeed m) 0) eqn:E2; qfacts; [lra|].
      unfold MAX_SPEED in H1.
      rewrite constrain_id; unfold MAX_SPEED; lra.
    + rewrite constrain_id by (unfold MAX_SPEED; lra). lra.
  - lra.
Qed.

Lemma waitBelow_stopping id : forall fuel s,
  boostActive (getM id s) = false -> targetSpeed (getM id s) = 0 ->
  speed_ok (getM id s) ->
  currentSpeed (getM id s) <= 1 + 80 * inject_Z (Z.of_nat fuel) ->
  exists n, (n <= fuel)%nat
    /\ waitBelow ACCEL_RATE 1 fuel id s = Some (waitIter ACCEL_RATE id n s)
    /\ currentSpeed (getM id (waitIter ACCEL_RATE id n s)) <= 1
    /\ (forall k, (k < n)%nat ->
          1 < currentSpeed (getM id (waitIter ACCEL_RATE id k s))
          /\ currentSpeed (getM id (waitIter ACCEL_RATE id (S k) s))
             <= currentSpeed (getM id (waitIter ACCEL_RATE id k s))).
Proof.
  induction fuel as [|fuel IH]; intros s Hb Ht Hok Hc.
  - exists 0%nat. change (inject_Z (Z.of_nat 0)) with 0 in Hc.
    assert (Hle : currentSpeed (getM id s) <= 1) by lra.
    split; [lia|]. cbn [waitBelow].
    apply Qgtb_false in Hle as Hg. rewrite Hg.
    split; [reflexivity|]. split; [exact Hle|]. intros; lia.
  - cbn [waitBelow].
    destruct (Qgtb (currentSpeed (getM id s)) 1) eqn:Hg.
    + apply Qgtb_true in Hg.
      pose proof (rampM_stopping (boostConfig s) (clock s) (getM id s)
                    Hb Ht Hok Hg) as (A & B & C & D & D').
      rewrite <- waitBody_getM in A, B, C, D, D'.
      fold (waitBody ACCEL_RATE id s).
      destruct (IH (waitBody ACCEL_RATE id s) A B C) as (n & Hn & Hr & Hf & Hk).
      { rewrite Nat2Z.inj_succ in Hc. unfold Z.succ in Hc.
        rewrite inject_Z_plus in Hc. change (inject_Z 1) with 1 in Hc.
        assert (0 <= inject_Z (Z.of_nat fuel)).
        { change 0 with (inject_Z 0). rewrite <- Zle_Qle. lia. }
        destruct D as [D|D]; lra. }
      exists (S n). split; [lia|]. rewrite waitIter_succ.
      split; [exact Hr|]. split; [exact Hf|].
      intros [|k] Hlt.
      * change (waitIter ACCEL_RATE id 1 s) with (waitBody ACCEL_RATE id s).
        change (waitIter ACCEL_RATE id 0 s) with s.
        split; [exact Hg|exact D'].
      * destruct (Hk k) as (K1 & K2); [lia|].
        rewrite (waitIter_succ ACCEL_RATE id (S k) s),
                (waitIter_succ ACCEL_RATE id k s).
        split; assumption.
    + exists 0%nat. split; [lia|]. apply Qgtb_false in Hg.
      split; [reflexivity|]. split; [exact Hg|]. intros; lia.
Qed.

Lemma waitIter_still rate id k : forall s,
  stillStep s (waitIter rate id k s).
Proof.
  induction k as [|k IH]; intros s.
  - split; [|split; reflexivity]. intros id'. auto.
  - rewrite waitIter_succ.
    destruct (IH (waitBody rate id s)) as (Hm & Hp & Hc).
    destruct (softStep_still _ _ (updateSpeed_softStep rate id s))
      as (Hm' & Hp' & Hc').
    split; [|split].
    + intros id'. destruct (Hm id') as (A & B & C & D).
      destruct (Hm' id') as (A' & B' & C' & D').
      unfold waitBody in *.
      change (getM id' (delay accelUpdateInterval ?x)) with (getM id' x) in *.
      rewrite A, B, C, D. auto.
    + rewrite Hp. exact Hp'.
    + rewrite Hc. exact Hc'.
Qed.

(** X9.  STOP on a motor whose boost is not active returns (250 iterations
    always suffice): the speed never rises during the wait and is at most
    1 step/s when the wait ends; on return the motor is at rest, not
    running, with its timer ended and a target of 0, and its direction and
    position, the pins and the other motor are untouched. *)
Theorem stopMotor_without_boost : forall fuel id s,
  boostActive (getM id s) = false -> speed_ok (getM id s) ->
  (250 <= fuel)%nat ->
  let s0 := modM id (set_targetSpeed 0) s in
  exists n s',
    (n <= fuel)%nat
    /\ stopMotor ACCEL_RATE fuel id s = Some s'
    /\ s' = halt id (waitIter ACCEL_RATE id n s0)
    /\ currentSpeed (getM id (waitIter ACCEL_RATE id n s0)) <= 1
    /\ (forall k, (k < n)%nat ->
          currentSpeed (getM id (waitIter ACCEL_RATE id (S k) s0))
          <= currentSpeed (getM id (waitIter ACCEL_RATE id k s0)))
    /\ currentSpeed (getM id s') = 0 /\ isRunning (getM id s') = false
    /\ timer (getM id s') = None /\ targetSpeed (getM id s') = 0
    /\ direction (getM id s') = direction (getM id s)
    /\ position (getM id s') = position (getM id s)
    /\ pins s' = pins s
    /\ getM (other id) s' = getM (other id) s.
Proof.
  intros fuel id s Hb Hok Hfuel s0.
  assert (Hm0 : getM id s0 = set_targetSpeed 0 (getM id s))
    by (subst s0; destruct id; reflexivity).
  destruct (waitBelow_stopping id fuel s0) as (n & Hn & Hr & Hf & Hk).
  - rewrite Hm0. exact Hb.
  - rewrite Hm0. reflexivity.
  - rewrite Hm0. exact Hok.
  - rewrite Hm0. cbn [currentSpeed set_targetSpeed].
    destruct Hok as [_ H1]. unfold MAX_SPEED in H1.
    assert (250 <= inject_Z (Z.of_nat fuel)).
    { change 250 with (inject_Z 250). rewrite <- Zle_Qle. lia. }
    lra.
  - exists n. eexists. split; [exact Hn|].
    split; [unfold stopMotor; fold s0; rewrite Hr; reflexivity|].
    split; [reflexivity|]. split; [exact Hf|].
    split; [intros k Hlt; apply (Hk k Hlt)|].
    set (sw := waitIter ACCEL_RATE id n s0).
    destruct (waitIter_still ACCEL_RATE id n s0) as (Hm & Hp & _). fold sw in Hm, Hp.
    destruct (Hm id) as (_ & _ & C & D). rewrite Hm0 in C, D.
    assert (Ht : targetSpeed (getM id sw) = 0).
    { subst sw. clear -Hb Hm0.
      assert (G : forall k x, boostActive (getM id x) = false ->
                  boostActive (getM id (waitIter ACCEL_RATE id k x)) = false
                  /\ targetSpeed (getM id (waitIter ACCEL_RATE id k x))
                     = targetSpeed (getM id x)).
      { induction k as [|k IH]; intros x Hx; [auto|].
        rewrite waitIter_succ.
        destruct (rampM_no_boost ACCEL_RATE (boostConfig x) (clock x)
                    (getM id x) Hx) as (A & B).
        rewrite <- waitBody_getM in A, B.
        destruct (IH _ A) as (A' & B'). split; [exact A'|].
        rewrite B', B. reflexivity. }
      destruct (G n s0) as (_ & T); [rewrite Hm0; exact Hb|].
      rewrite T, Hm0. reflexivity. }
    assert (Ho : getM (other id) sw = getM (other id) s).
    { subst sw. clear.
      assert (G : forall k x, getM (other id) (waitIter ACCEL_RATE id k x)
                              = getM (other id) x).
      { induction k as [|k IH]; intros x; [reflexivity|].
        rewrite waitIter_succ, IH. unfold waitBody.
        change (getM (other id) (delay accelUpdateInterval ?y))
          with (getM (other id) y).
        apply updateSpeed_other. }
      rewrite G. subst s0. destruct id; reflexivity. }
    unfold halt.
    split; [destruct id; reflexivity|].
    split; [destruct id; reflexivity|].
    split; [destruct id; reflexivity|].
    split; [destruct id; exact Ht|].
    split; [destruct id; exact D|].
    split; [destruct id; exact C|].
    split; [destruct id; exact Hp|].
    destruct id; exact Ho.
Qed.

(** ** How much speed the emergency stop cuts off *)

Lemma rampM_stopping_exact cfg now m :
  stopping m ->
  let m' := rampM ACCEL_RATE cfg now m in
  stopping m'
  /\ (80 < currentSpeed m -> currentSpeed m' == currentSpeed m - 80)
  /\ (currentSpeed m <= 80 -> currentSpeed m' == 0).
Proof.
  intros (Hr & Hb & Ht & [H0 H1]) m'.
  destruct (rampM_no_boost ACCEL_RATE cfg now m Hb) as (A & B).
  assert (Hv : currentSpeed m'
               = constrain (rampValue ACCEL_RATE m) 0 MAX_SPEED).
  { subst m'. unfold rampM, boostExpired. rewrite Hr, Hb. reflexivity. }
  split.
  { split; [subst m'; unfold rampM; rewrite Hr; cbn [negb];
            destruct (boostExpired cfg now m); cbn; exact Hr|].
    split; [exact A|]. split; [subst m'; rewrite B; exact Ht|].
    apply rampM_speed_ok. }
  rewrite Hv. unfold rampValue. rewrite Ht, abs_Qabs.
  pose proof accelStep_ACCEL_RATE as Hs.
  unfold MAX_SPEED in H1.
  destruct (Qgtb (Qabs (0 - currentSpeed m)) (accelStep ACCEL_RATE)) eqn:E1;
    qfacts; rewrite Qabs_neg in E1 by lra; split; intros Hc; try lra.
  - destruct (Qgtb (0 - currentSpeed m) 0) eqn:E2; qfacts; [lra|].
    rewrite constrain_id; unfold MAX_SPEED; lra.
  - rewrite constrain_id by (unfold MAX_SPEED; lra). reflexivity.
Qed.

Lemma estopIter_stopping id : forall k s,
  stopping (getM id s) ->
  stopping (getM id (estopIter ACCEL_RATE k s))
  /\ (80 * inject_Z (Z.of_nat k) < currentSpeed (getM id s) ->
      currentSpeed (getM id (estopIter ACCEL_RATE k s))
      == currentSpeed (getM id s) - 80 * inject_Z (Z.of_nat k))
  /\ (currentSpeed (getM id s) <= 80 * inject_Z (Z.of_nat k) ->
      currentSpeed (getM id (estopIter ACCEL_RATE k s)) == 0).
Proof.
  induction k as [|k IH]; intros s Hs.
  - change (estopIter ACCEL_RATE 0 s) with s.
    change (inject_Z (Z.of_nat 0)) with 0.
    split; [exact Hs|]. destruct Hs as (_ & _ & _ & [H0 _]).
    split; intros; lra.
  - rewrite estopIter_succ.
    destruct (rampM_stopping_exact (boostConfig s) (clock s) (getM id s) Hs)
      as (A & B & C).
    rewrite <- estopBody_getM in A, B, C.
    destruct (IH (estopBody ACCEL_RATE s) A) as (A' & B' & C').
    rewrite Nat2Z.inj_succ. unfold Z.succ. rewrite inject_Z_plus.
    change (inject_Z 1) with 1.
    assert (Hk : 0 <= inject_Z (Z.of_nat k)).
    { change 0 with (inject_Z 0). rewrite <- Zle_Qle. lia. }
    split; [exact A'|]. split; intros Hc.
    + assert (H80 : 80 < currentSpeed (getM id s)) by lra.
      specialize (B H80). rewrite B' by lra. lra.
    + destruct (Qlt_le_dec 80 (currentSpeed (getM id s))) as [H80|H80].
      * specialize (B H80). apply C'. lra.
      * specialize (C H80). apply C'. lra.
Qed.

Lemma estopLoop_exit rate t0 fuel : forall s s',
  estopLoop rate t0 fuel s = Some s' -> estopCond t0 s' = false.
Proof.
  induction fuel as [|fuel IH]; intros s s'; cbn [estopLoop];
    destruct (estopCond t0 s) eqn:E; try discriminate;
    try (intros [= <-]; exact E).
  apply IH.
Qed.

(** X11.  The emergency stop of a running motor without active boost is a ramp
    up to 4000 steps/s (the speed before the final forced write is at most
    1), and a cut above: the loop runs its full 50 iterations and the
    forced write takes the remaining [currentSpeed - 4000] away at once. *)
Theorem estop_residual : forall fuel id s,
  isRunning (getM id s) = true -> boostActive (getM id s) = false ->
  speed_ok (getM id s) -> (50 <= fuel)%nat ->
  exists n,
    (n <= 50)%nat
    /\ emergencyStop ACCEL_RATE fuel s
       = Some (estopForce (estopIter ACCEL_RATE n (estopStart s)))
    /\ (currentSpeed (getM id s) <= 4000 ->
        currentSpeed (getM id (estopIter ACCEL_RATE n (estopStart s))) <= 1)
    /\ (4000 < currentSpeed (getM id s) ->
        n = 50%nat
        /\ currentSpeed (getM id (estopIter ACCEL_RATE n (estopStart s)))
           == currentSpeed (getM id s) - 4000).
Proof.
  intros fuel id s Hr Hb Hok Hfuel.
  set (s0 := estopStart s).
  assert (Hs0 : stopping (getM id s0)).
  { subst s0. destruct id; repeat split; try assumption; apply Hok. }
  assert (Hc0 : currentSpeed (getM id s0) = currentSpeed (getM id s))
    by (subst s0; destruct id; reflexivity).
  destruct (estopLoop_bound ACCEL_RATE (millis s0) 50 fuel s0)
    as (n & Hn & Hrun & Hcond); try lia.
  { unfold millis, wrap32. rewrite Z.sub_diag. reflexivity. }
  pose proof (estopLoop_exit _ _ _ _ _ Hrun) as Hexit.
  destruct (estopIter_stopping id n s0 Hs0) as (_ & Hfast & Hslow).
  rewrite Hc0 in Hfast, Hslow.
  assert (Hle : inject_Z (Z.of_nat n) <= 50).
  { change 50 with (inject_Z 50). rewrite <- Zle_Qle. lia. }
  assert (Hearly : (n < 50)%nat ->
            currentSpeed (getM id (estopIter ACCEL_RATE n s0)) <= 1).
  { intros Hlt. unfold estopCond in Hexit.
    assert (Ht : (wrap32 (millis (estopIter ACCEL_RATE n s0) - millis s0)
                    <? 500)%Z = true).
    { unfold millis. rewrite estopIter_elapsed.
      rewrite wrap32_small by lia. apply Z.ltb_lt. lia. }
    rewrite Ht, andb_true_r in Hexit.
    apply orb_false_iff in Hexit. destruct Hexit as [E1 E2].
    destruct id; cbn [getM]; qfacts; assumption. }
  exists n. split; [exact Hn|].
  split; [unfold emergencyStop; fold s0; rewrite Hrun; reflexivity|].
  split.
  - intros Hc. destruct (Nat.eq_dec n 50) as [->|Hne].
    + rewrite Hslow; [lra|]. change (inject_Z (Z.of_nat 50)) with 50. lra.
    + apply Hearly. lia.
  - intros Hc.
    assert (Hn50 : n = 50%nat).
    { destruct (Nat.eq_dec n 50) as [E|Hne]; [exact E|exfalso].
      assert (Hlt : (n < 50)%nat) by lia.
      specialize (Hearly Hlt).
      assert (inject_Z (Z.of_nat n) <= 49).
      { change 49 with (inject_Z 49). rewrite <- Zle_Qle. lia. }
      rewrite Hfast in Hearly by lra. lra. }
    split; [exact Hn50|]. subst n.
    rewrite Hfast; change (inject_Z (Z.of_nat 50)) with 50; lra.
Qed.

(** ** The further properties at concrete inputs *)

Lemma direction_output_consistent_witness :
  reachable s_reversed
  /\ direction (getM M2 s_reversed) = (-1)%Z
  /\ pins s_reversed (dirPin (getM M2 s_reversed)) = true.
Proof.
  assert (R : reachable s_reversed) by (apply after_reachable; reflexivity).
  split; [exact R|].
  assert (D : direction (getM M2 s_reversed) = (-1)%Z)
    by (vm_compute; reflexivity).
  split; [exact D|].
  exact (eq_trans (proj1 (proj2 (direction_output_consistent s_reversed M2 R)))
                  (f_equal (fun d => negb (d =? 1)%Z) D)).
Defined.

Lemma step_period_bounded_witness :
  reachable s_cruise
  /\ timer (getM M1 s_cruise) = Some (1000000 # 5000)
  /\ 50 <= 1000000 # 5000.
Proof.
  split; [exact s_cruise_reachable|].
  assert (T : timer (getM M1 s_cruise) = Some (1000000 # 5000))
    by (vm_compute; reflexivity).
  split; [exact T|].
  exact (step_period_bounded s_cruise M1 _ s_cruise_reachable T).
Defined.

Lemma s_drifted_next_run :
  loop ACCEL_RATE 0 None (delay 10 s_drifted) = Some s_drifted_next.
Proof. vm_compute. reflexivity. Qed.

Lemma loop_keeps_position_and_config_witness :
  loop ACCEL_RATE 0 None (delay 10 s_drifted) = Some s_drifted_next
  /\ position (getM M1 s_drifted_next) = 101%Z
  /\ boostConfig s_drifted_next = boostConfig (delay 10 s_drifted).
Proof.
  split; [exact s_drifted_next_run|].
  destruct (loop_keeps_position_and_config 0 None (delay 10 s_drifted)
              s_drifted_next s_drifted_next_run) as [Hp Hc].
  assert (P0 : position (getM M1 (delay 10 s_drifted)) = 101%Z)
    by (vm_compute; reflexivity).
  split.
  - exact (eq_trans (Hp (fun cmd E => ltac:(discriminate E)) M1) P0).
  - exact (Hc (fun cmd E => ltac:(discriminate E))).
Defined.

Lemma stepISR_counts_witness :
  (LONG_MIN <= position (getM M1 s_cruise) <= LONG_MAX)%Z
  /\ position (getM M1 (Nat.iter 101 (stepISR M1) s_cruise))
     = wrap_long (position (getM M1 s_cruise)
                  + Z.of_nat 101 * direction (getM M1 s_cruise)).
Proof.
  assert (H : (LONG_MIN <= position (getM M1 s_cruise) <= LONG_MAX)%Z)
    by (split; vm_compute; intro E; discriminate E).
  split; [exact H|].
  exact (proj1 (stepISR_counts 101 M1 s_cruise H)).
Defined.

Lemma loop_quiescent_witness :
  loop ACCEL_RATE 0 None (delay 10 s_drifted) = Some s_drifted_next
  /\ loop ACCEL_RATE 0 None s_drifted_next = Some s_drifted_next.
Proof.
  split; [exact s_drifted_next_run|].
  exact (loop_quiescent ACCEL_RATE 0 0 None (delay 10 s_drifted)
           s_drifted_next s_drifted_next_run).
Defined.

Lemma boost_disabled_is_spin_witness :
  enabled (boostConfig s_noboost) = false
  /\ sameOutcome
       (processCommand ACCEL_RATE 0 (CmdSpin SpinLeft 1000) s_noboost)
       (processCommand ACCEL_RATE 0 (CmdBoost BoostLeft 1000) s_noboost).
Proof.
  assert (H : enabled (boostConfig s_noboost) = false)
    by (vm_compute; reflexivity).
  split; [exact H|].
  exact (proj1 (boost_disabled_is_spin ACCEL_RATE 0 1000 s_noboost H)).
Defined.

Lemma s_spun_run :
  processCommand ACCEL_RATE 0 (CmdSpin SpinLeft 0) s_slow = Some s_spun.
Proof. vm_compute. reflexivity. Qed.

Lemma spin_result_witness :
  processCommand ACCEL_RATE 0 (CmdSpin SpinLeft 0) s_slow = Some s_spun
  /\ SpinLeft <> SpinInvalid
  /\ direction (motor1 s_spun) = (-1)%Z
  /\ isRunning (getM M1 s_spun) = true.
Proof.
  assert (N : SpinLeft <> SpinInvalid) by discriminate.
  split; [exact s_spun_run|]. split; [exact N|].
  destruct (spin_result ACCEL_RATE 0 SpinLeft 0 s_slow s_spun s_spun_run N)
    as (A & _ & C).
  split; [exact A|exact (proj2 (C M1))].
Defined.

Lemma s_cruise_speed_ok : speed_ok (getM M1 s_cruise).
Proof.
  exact (proj1 (speeds_ok_getM s_cruise)
                (reachable_speeds_ok s_cruise s_cruise_reachable) M1).
Qed.

Lemma stopMotor_without_boost_witness :
  boostActive (getM M1 s_cruise) = false
  /\ (250 <= 250)%nat
  /\ exists s', stopMotor ACCEL_RATE 250 M1 s_cruise = Some s'
                /\ currentSpeed (getM M1 s') = 0.
Proof.
  assert (B : boostActive (getM M1 s_cruise) = false)
    by (vm_compute; reflexivity).
  split; [exact B|]. split; [apply le_n|].
  destruct (stopMotor_without_boost 250 M1 s_cruise B s_cruise_speed_ok
              (le_n 250))
    as (n & s' & _ & Hr & _ & _ & _ & Hz & _).
  exists s'. split; [exact Hr|exact Hz].
Defined.

Lemma setDirection_without_boost_witness :
  boostActive (getM M1 s_cruise) = false
  /\ (-1)%Z <> direction (getM M1 s_cruise)
  /\ 500 < currentSpeed (getM M1 s_cruise)
  /\ exists s', setDirection ACCEL_RATE 250 M1 (-1) s_cruise = Some s'
                /\ direction (getM M1 s') = (-1)%Z
                /\ currentSpeed (getM M1 s') <= 300.
Proof.
  assert (B : boostActive (getM M1 s_cruise) = false)
    by (vm_compute; reflexivity).
  assert (D : (if (-1 >=? 0)%Z then 1%Z else (-1)%Z)
              <> direction (getM M1 s_cruise))
    by (vm_compute; intro E; discriminate E).
  assert (C : 500 < currentSpeed (getM M1 s_cruise))
    by (vm_compute; reflexivity).
  split; [exact B|]. split; [exact D|]. split; [exact C|].
  destruct (setDirection_without_boost 250 M1 (-1) s_cruise B
              s_cruise_speed_ok D C (le_n 250))
    as (n & s' & _ & Hr & Hd & _ & _ & Hc & _).
  exists s'. split; [exact Hr|]. split; [exact Hd|exact Hc].
Defined.

Lemma estop_residual_witness :
  isRunning (getM M1 s_cruise) = true
  /\ boostActive (getM M1 s_cruise) = false
  /\ (50 <= 50)%nat
  /\ currentSpeed (getM M1 (estopIter ACCEL_RATE 50 (estopStart s_cruise)))
     == currentSpeed (getM M1 s_cruise) - 4000.
Proof.
  assert (R : isRunning (getM M1 s_cruise) = true)
    by (vm_compute; reflexivity).
  assert (B : boostActive (getM M1 s_cruise) = false)
    by (vm_compute; reflexivity).
  assert (C : 4000 < currentSpeed (getM M1 s_cruise))
    by (vm_compute; reflexivity).
  split; [exact R|]. split; [exact B|]. split; [apply le_n|].
  destruct (estop_residual 50 M1 s_cruise R B s_cruise_speed_ok (le_n 50))
    as (n & _ & _ & _ & Hcut).
  destruct (Hcut C) as [-> Hres]. exact Hres.
Defined.

(** ** Repeated SPEED commands *)

Lemma setSpeed_twice id v s :
  getM id (setSpeed id v (setSpeed id v s)) = getM id (setSpeed id v s).
Proof.
  rewrite (setSpeed_getM id v (setSpeed id v s)).
  rewrite (setSpeed_getM id v s). cbv zeta.
  set (c := constrain v 0 MAX_SPEED).
  destruct (Qgtb c 0) eqn:E1; cbn [andb].
  - assert (E2 : Qeq_bool c 0 = false).
    { apply Qgtb_true in E1. destruct (Qeq_bool c 0) eqn:E; [|reflexivity].
      apply Qeq_bool_iff in E. lra. }
    rewrite E2.
    destruct (isRunning (getM id s)) eqn:R; cbn [isRunning set_targetSpeed negb];
      rewrite ?R; cbn [negb isRunning set_isRunning set_targetSpeed negb];
      try rewrite R; reflexivity.
  - destruct (Qeq_bool c 0); reflexivity.
Qed.

Lemma setSpeed_book id v s :
  lastAccelUpdate (setSpeed id v s) = lastAccelUpdate s
  /\ lastSyncCheck (setSpeed id v s) = lastSyncCheck s
  /\ lastBlink (setSpeed id v s) = lastBlink s.
Proof.
  unfold setSpeed.
  destruct (_ && _)%bool; [|destruct (Qeq_bool _ _)]; destruct id;
    repeat split; reflexivity.
Qed.

(** X12.  A SPEED command received twice in a row leaves the state the first one
    left, up to the second acknowledgement. *)
Theorem speed_command_idempotent : forall rate fuel t v s,
  exists s1 s2,
    processCommand rate fuel (CmdSpeed t v) s = Some s1
    /\ processCommand rate fuel (CmdSpeed t v) s1 = Some s2
    /\ sameButSerial s1 s2.
Proof.
  intros rate fuel t v s. do 2 eexists.
  split; [reflexivity|]. split; [reflexivity|].
  set (s1 := onTarget t (fun id => setSpeed id v) s).
  assert (Hm : forall id,
            getM id (onTarget t (fun id => setSpeed id v)
                       (println (MsgSpeedSet t v) s1))
            = getM id s1).
  { intros id. subst s1. destruct t as [|i]; cbn [onTarget].
    - destruct id.
      + rewrite (setSpeed_other M2 v _ : getM M1 _ = getM M1 _).
        rewrite (setSpeed_other M2 v (setSpeed M1 v s) : getM M1 _ = getM M1 _).
        rewrite (setSpeed_getM M1 v (println _ _)).
        change (getM M1 (println ?m ?x)) with (getM M1 x).
        rewrite (setSpeed_other M2 v (setSpeed M1 v s) : getM M1 _ = getM M1 _).
        rewrite <- (setSpeed_getM M1 v (setSpeed M1 v s)).
        apply setSpeed_twice.
      + rewrite (setSpeed_getM M2 v (setSpeed M1 v (println _ _))).
        rewrite (setSpeed_other M1 v (println _ _) : getM M2 _ = getM M2 _).
        change (getM M2 (println ?m ?x)) with (getM M2 x).
        rewrite <- (setSpeed_getM M2 v (setSpeed M2 v (setSpeed M1 v s))).
        apply setSpeed_twice.
    - destruct (MotorId_cases i id) as [-> | ->].
      + rewrite (setSpeed_getM i v (println _ _)).
        change (getM i (println ?m ?x)) with (getM i x).
        rewrite <- (setSpeed_getM i v (setSpeed i v s)).
        apply setSpeed_twice.
      + rewrite !setSpeed_other.
        change (getM (other i) (println ?m ?x)) with (getM (other i) x).
        apply setSpeed_other. }
  assert (Hf : forall x,
            boostConfig (onTarget t (fun id => setSpeed id v) x) = boostConfig x
            /\ clock (onTarget t (fun id => setSpeed id v) x) = clock x
            /\ pins (onTarget t (fun id => setSpeed id v) x) = pins x
            /\ lastAccelUpdate (onTarget t (fun id => setSpeed id v) x)
               = lastAccelUpdate x
            /\ lastSyncCheck (onTarget t (fun id => setSpeed id v) x)
               = lastSyncCheck x
            /\ lastBlink (onTarget t (fun id => setSpeed id v) x) = lastBlink x).
  { intros x. destruct t as [|i]; cbn [onTarget].
    - destruct (setSpeed_frame M1 v x) as (A1 & A2 & A3 & _).
      destruct (setSpeed_frame M2 v (setSpeed M1 v x)) as (B1 & B2 & B3 & _).
      destruct (setSpeed_book M1 v x) as (C1 & C2 & C3).
      destruct (setSpeed_book M2 v (setSpeed M1 v x)) as (D1 & D2 & D3).
      rewrite B1, B2, B3, D1, D2, D3. auto 10.
    - destruct (setSpeed_frame i v x) as (A1 & A2 & A3 & _).
      destruct (setSpeed_book i v x) as (C1 & C2 & C3). auto 10. }
  destruct (Hf (println (MsgSpeedSet t v) s1)) as (F1 & F2 & F3 & F4 & F5 & F6).
  unfold sameButSerial.
  change (motor1 (println ?m ?x)) with (motor1 x).
  change (motor2 (println ?m ?x)) with (motor2 x).
  split; [exact (Hm M1)|]. split; [exact (Hm M2)|].
  repeat split; assumption.
Qed.

(** ** Motors commanded together stay together *)

Lemma rampM_kinematics rate cfg now m1 m2 :
  kinematics m1 = kinematics m2 ->
  kinematics (rampM rate cfg now m1) = kinematics (rampM rate cfg now m2).
Proof.
  destruct m1 as [p1 d1 x1 c1 t1 r1 dr1 tm1 n1 ba1 bs1 bsp1 ns1].
  destruct m2 as [p2 d2 x2 c2 t2 r2 dr2 tm2 n2 ba2 bs2 bsp2 ns2].
  unfold kinematics. cbn. intros [= -> -> -> -> -> ->].
  unfold rampM, boostExpired, rampValue. cbn.
  destruct r2; cbn; [|reflexivity].
  destruct (ba2 && _)%bool; cbn;
    (destruct (Qgtb (abs _) _); [destruct (Qgtb _ 0)|]; reflexivity).
Qed.

Lemma setSpeed_kinematics id v s :
  kinematics (getM id (setSpeed id v s))
  = let c := constrain v 0 MAX_SPEED in
    let '(cur, _, run, ba, bst, ns) := kinematics (getM id s) in
    (cur, c,
     if Qgtb c 0 && negb run then true
     else if Qeq_bool c 0 then false else run,
     ba, bst, ns).
Proof.
  rewrite setSpeed_getM. cbv zeta. unfold kinematics.
  cbn [isRunning set_targetSpeed].
  destruct (_ && _)%bool; [|destruct (Qeq_bool _ _)]; reflexivity.
Qed.

(** X13.  If the two motors are in the same kinematic state, they still are after
    a control tick - with the same step period - and after a SPEED or RUN
    command addressed to both. *)
Theorem motors_in_lockstep : forall rate fuel s,
  twin s ->
  (twin (tick rate s)
   /\ timer (motor1 (tick rate s)) = timer (motor2 (tick rate s)))
  /\ (forall v, exists s',
        processCommand rate fuel (CmdSpeed Both v) s = Some s' /\ twin s')
  /\ (exists s', processCommand rate fuel (CmdRun Both) s = Some s' /\ twin s').
Proof.
  intros rate fuel s H. unfold twin in *.
  split; [|split].
  - assert (K : kinematics (getM M1 (updateSpeed rate M2 (updateSpeed rate M1 s)))
                = kinematics (getM M2 (updateSpeed rate M2 (updateSpeed rate M1 s)))).
    { rewrite (updateSpeed_other rate M2 _ : getM M1 _ = getM M1 _).
      rewrite !updateSpeed_getM.
      destruct (updateSpeed_frame rate M1 s) as (Hc & Hk & _).
      rewrite Hc, Hk.
      rewrite (updateSpeed_other rate M1 s : getM M2 _ = getM M2 _).
      apply rampM_kinematics. exact H. }
    set (s2 := updateSpeed rate M2 (updateSpeed rate M1 s)) in *.
    change (motor1 (tick rate s)) with (getM M1 (updateTimers s2)).
    change (motor2 (tick rate s)) with (getM M2 (updateTimers s2)).
    rewrite !updateTimers_getM.
    unfold kinematics in K. injection K as K1 K2 K3 K4 K5 K6.
    cbn [getM] in *. rewrite K1, K3.
    destruct (Qgtb (currentSpeed (motor2 s2)) 0 && isRunning (motor2 s2))%bool;
      unfold kinematics; cbn [currentSpeed targetSpeed isRunning boostActive
                               boostStartTime normalSpeed timer set_timer];
      rewrite ?K1, ?K2, ?K3, ?K4, ?K5, ?K6; split; reflexivity.
  - intros v. eexists. split; [reflexivity|].
    change (kinematics (getM M1 (setSpeed M2 v (setSpeed M1 v s)))
            = kinematics (getM M2 (setSpeed M2 v (setSpeed M1 v s)))).
    rewrite (setSpeed_other M2 v _ : getM M1 _ = getM M1 _).
    rewrite !setSpeed_kinematics.
    rewrite (setSpeed_other M1 v s : getM M2 _ = getM M2 _).
    cbn [getM]. rewrite H. reflexivity.
  - eexists. split; [reflexivity|].
    unfold kinematics in *. cbn. injection H as -> -> _ -> -> ->.
    reflexivity.
Qed.

Lemma motors_in_lockstep_witness :
  twin s_cruise
  /\ timer (motor1 (tick ACCEL_RATE s_cruise))
     = timer (motor2 (tick ACCEL_RATE s_cruise)).
Proof.
  assert (H : twin s_cruise) by (vm_compute; reflexivity).
  split; [exact H|].
  exact (proj2 (proj1 (motors_in_lockstep ACCEL_RATE 0 s_cruise H))).
Defined.

(** * Properties of the binary32 embedding

    From here on the names of the firmware's functions are those of module
    [Binary32]. *)

Import Binary32.
Local Open Scope Z_scope.

(** ** Binary32 arithmetic

    What the library's [SFadd], [SFsub], [SFmul] and [SFcompare] compute at
    precision 24, in terms of integer arithmetic on units of [2^-149]. *)

Lemma fexp32 z : fexp 24 128 z = Z.max (z - 24) (-149).
Proof. reflexivity. Qed.

Lemma digits2_log2 m : Zpos (digits2_pos m) = Z.log2 (Zpos m) + 1.
Proof.
  induction m as [m IH|m IH|]; [| |reflexivity].
  - cbn [digits2_pos]. rewrite Pos2Z.inj_succ, IH.
    destruct m; cbn [Z.log2 Pos.size]; rewrite ?Pos2Z.inj_succ; lia.
  - cbn [digits2_pos]. rewrite Pos2Z.inj_succ, IH.
    destruct m; cbn [Z.log2 Pos.size]; rewrite ?Pos2Z.inj_succ; lia.
Qed.

Lemma digits2_bounds m :
  2 ^ (Zpos (digits2_pos m) - 1) <= Zpos m < 2 ^ Zpos (digits2_pos m).
Proof.
  rewrite digits2_log2.
  replace (Z.log2 (Zpos m) + 1 - 1) with (Z.log2 (Zpos m)) by lia.
  replace (Z.log2 (Zpos m) + 1) with (Z.succ (Z.log2 (Zpos m))) by lia.
  apply Z.log2_spec. lia.
Qed.

Lemma digits2_unique m d :
  2 ^ (d - 1) <= Zpos m < 2 ^ d -> Zpos (digits2_pos m) = d.
Proof.
  intros H. rewrite digits2_log2.
  assert (0 <= d - 1).
  { destruct (Z.le_gt_cases 0 (d - 1)) as [|Hn]; [assumption|].
    assert (d <= 0) by lia.
    assert (2 ^ d <= 2 ^ 0) by (destruct (Z.eq_dec d 0) as [->|]; [lia|];
      rewrite (Z.pow_neg_r 2 d) by lia; cbn; lia).
    cbn in *. lia. }
  rewrite (Z.log2_unique (Zpos m) (d - 1)); [lia|lia|].
  replace (Z.succ (d - 1)) with d by lia. exact H.
Qed.

Lemma shr_1_nonneg m r s :
  0 <= m ->
  shr_1 (Build_shr_record m r s) = Build_shr_record (m / 2) (Z.odd m) (r || s).
Proof.
  intros H. rewrite <- Z.div2_div.
  destruct m as [|p|p]; [reflexivity| |lia].
  destruct p; reflexivity.
Qed.

Lemma iter_pos_nat {A : Type} (f : A -> A) p : forall x,
  iter_pos f p x = Nat.iter (Pos.to_nat p) f x.
Proof.
  induction p as [p IH|p IH|]; intros x; cbn [iter_pos].
  - rewrite !IH, Pos2Nat.inj_xI.
    replace (S (2 * Pos.to_nat p)) with (Pos.to_nat p + (Pos.to_nat p + 1))%nat by lia.
    rewrite !Nat.iter_add. reflexivity.
  - rewrite !IH, Pos2Nat.inj_xO.
    replace (2 * Pos.to_nat p)%nat with (Pos.to_nat p + Pos.to_nat p)%nat by lia.
    rewrite Nat.iter_add. reflexivity.
  - reflexivity.
Qed.

Lemma mod_pow2_succ V k :
  0 <= k -> V mod 2 ^ (k + 1) = V mod 2 ^ k + 2 ^ k * ((V / 2 ^ k) mod 2).
Proof.
  intros Hk. rewrite Z.pow_add_r by lia. change (2 ^ 1) with 2.
  apply Z.rem_mul_r; [|lia]. apply Z.pow_nonzero; lia.
Qed.

Lemma odd_mod2 a : Z.odd a = (1 <=? a mod 2).
Proof.
  rewrite Zmod_odd. destruct (Z.odd a); reflexivity.
Qed.

Lemma shr_spec_step V k :
  0 <= V -> 1 <= k -> shr_1 (shr_spec V k) = shr_spec V (k + 1).
Proof.
  intros HV Hk. unfold shr_spec.
  rewrite shr_1_nonneg by (apply Z.div_pos; [lia|apply Z.pow_pos_nonneg; lia]).
  assert (P : 0 < 2 ^ k) by (apply Z.pow_pos_nonneg; lia).
  assert (P' : 0 < 2 ^ (k - 1)) by (apply Z.pow_pos_nonneg; lia).
  f_equal.
  - rewrite Z.pow_add_r by lia. rewrite Z.div_div by lia. reflexivity.
  - rewrite mod_pow2_succ by lia. replace (k + 1 - 1) with k by lia.
    rewrite odd_mod2.
    pose proof (Z.mod_pos_bound V (2 ^ k) P).
    pose proof (Z.mod_pos_bound (V / 2 ^ k) 2 ltac:(lia)).
    destruct (Z.leb_spec 1 ((V / 2 ^ k) mod 2)); symmetry;
      [apply Z.leb_le|apply Z.leb_gt]; nia.
  - replace (k + 1 - 1) with k by lia.
    pose proof (mod_pow2_succ V (k - 1) ltac:(lia)) as E.
    replace (k - 1 + 1) with k in E by lia.
    pose proof (Z.mod_pos_bound V (2 ^ (k - 1)) P').
    assert (B : (V / 2 ^ (k - 1)) mod 2 = 0 \/ (V / 2 ^ (k - 1)) mod 2 = 1)
      by (pose proof (Z.mod_pos_bound (V / 2 ^ (k - 1)) 2 ltac:(lia)); lia).
    destruct B as [B|B]; rewrite B in E;
    destruct (Z.leb_spec (2 ^ (k - 1)) (V mod 2 ^ k));
      destruct (Z.eqb_spec (V mod 2 ^ (k - 1)) 0);
      destruct (Z.eqb_spec (V mod 2 ^ k) 0); cbn; try reflexivity; exfalso; lia.
Qed.

Lemma shr_spec_one V : 0 <= V -> shr_1 (Build_shr_record V false false) = shr_spec V 1.
Proof.
  intros HV. rewrite shr_1_nonneg by assumption. unfold shr_spec.
  change (2 ^ 1) with 2. change (2 ^ (1 - 1)) with 1.
  rewrite Z.mod_1_r, odd_mod2. reflexivity.
Qed.

Lemma shr_iter V n :
  0 <= V ->
  Nat.iter (S n) shr_1 (Build_shr_record V false false)
  = shr_spec V (Z.of_nat (S n)).
Proof.
  intros HV. induction n as [|n IH].
  - apply shr_spec_one, HV.
  - change (Nat.iter (S (S n)) shr_1 ?x) with (shr_1 (Nat.iter (S n) shr_1 x)).
    rewrite IH, shr_spec_step by lia. f_equal. lia.
Qed.

Lemma shr_pos V p :
  0 <= V ->
  iter_pos shr_1 p (Build_shr_record V false false) = shr_spec V (Zpos p).
Proof.
  intros HV. rewrite iter_pos_nat.
  destruct (Pos2Nat.is_succ p) as [n E]. rewrite E, shr_iter by assumption.
  f_equal. lia.
Qed.

Lemma rne_shr V k :
  0 <= V -> 1 <= k ->
  round_nearest_even (shr_m (shr_spec V k)) (loc_of_shr_record (shr_spec V k))
  = rne_div V k.
Proof.
  intros HV Hk. unfold shr_spec, rne_div. cbn [shr_m loc_of_shr_record].
  assert (P' : 0 < 2 ^ (k - 1)) by (apply Z.pow_pos_nonneg; lia).
  assert (E2 : 2 ^ k = 2 * 2 ^ (k - 1)).
  { replace k with (k - 1 + 1) at 1 by lia. rewrite Z.pow_add_r by lia. lia. }
  pose proof (mod_pow2_succ V (k - 1) ltac:(lia)) as E.
  replace (k - 1 + 1) with k in E by lia.
  pose proof (Z.mod_pos_bound V (2 ^ (k - 1)) P').
  assert (B : (V / 2 ^ (k - 1)) mod 2 = 0 \/ (V / 2 ^ (k - 1)) mod 2 = 1)
    by (pose proof (Z.mod_pos_bound (V / 2 ^ (k - 1)) 2 ltac:(lia)); lia).
  destruct B as [B|B]; rewrite B in E;
  destruct (Z.leb_spec (2 ^ (k - 1)) (V mod 2 ^ k));
    destruct (Z.eqb_spec (V mod 2 ^ (k - 1)) 0); cbn [negb round_nearest_even];
    destruct (Z.compare_spec (2 * (V mod 2 ^ k)) (2 ^ k)); try reflexivity;
    exfalso; lia.
Qed.

Lemma rne_div_0 V : rne_div V 0 = V.
Proof.
  unfold rne_div. change (2 ^ 0) with 1. rewrite Z.mod_1_r, Z.div_1_r. reflexivity.
Qed.

Lemma rne_div_cases V n :
  rne_div V n = V / 2 ^ n \/ rne_div V n = V / 2 ^ n + 1.
Proof.
  unfold rne_div. destruct (_ ?= _); [destruct (Z.even _)| |]; auto.
Qed.

Lemma rne_div_exact V n : 0 <= n -> V mod 2 ^ n = 0 -> rne_div V n = V / 2 ^ n.
Proof.
  intros Hn H. unfold rne_div. rewrite H.
  assert (0 < 2 ^ n) by (apply Z.pow_pos_nonneg; lia).
  destruct (Z.compare_spec (2 * 0) (2 ^ n)); try reflexivity; lia.
Qed.

Lemma rne_div_err V n :
  0 <= n -> 2 * Z.abs (rne_div V n * 2 ^ n - V) <= 2 ^ n.
Proof.
  intros Hn. unfold rne_div.
  assert (P : 0 < 2 ^ n) by (apply Z.pow_pos_nonneg; lia).
  pose proof (Z.div_mod V (2 ^ n) ltac:(lia)) as E.
  pose proof (Z.mod_pos_bound V (2 ^ n) P) as B.
  set (q := V / 2 ^ n) in *. set (r := V mod 2 ^ n) in *. set (h := 2 ^ n) in *.
  destruct (Z.compare_spec (2 * r) h); [destruct (Z.even q)| |]; nia.
Qed.

(** The quotient of a [d]-digit number by [2^(d-24)] has 24 digits. *)
Lemma quotient_normal mx n :
  0 <= n -> Zpos (digits2_pos mx) = n + 24 ->
  2 ^ 23 <= Zpos mx / 2 ^ n < 2 ^ 24.
Proof.
  intros Hn Hd. pose proof (digits2_bounds mx) as B. rewrite Hd in B.
  assert (P : 0 < 2 ^ n) by (apply Z.pow_pos_nonneg; lia).
  replace (n + 24 - 1) with (23 + n) in B by lia.
  replace (n + 24) with (24 + n) in B by lia.
  rewrite !Z.pow_add_r in B by lia.
  split.
  - apply Z.div_le_lower_bound; lia.
  - apply Z.div_lt_upper_bound; lia.
Qed.

Lemma quotient_subnormal mx n :
  0 <= n -> Zpos (digits2_pos mx) <= n + 23 -> Zpos mx / 2 ^ n < 2 ^ 23.
Proof.
  intros Hn Hd. pose proof (digits2_bounds mx) as [_ B].
  assert (P : 0 < 2 ^ n) by (apply Z.pow_pos_nonneg; lia).
  assert (2 ^ Zpos (digits2_pos mx) <= 2 ^ (23 + n))
    by (apply Z.pow_le_mono_r; lia).
  rewrite Z.pow_add_r in H by lia.
  apply Z.div_lt_upper_bound; lia.
Qed.

Lemma rne_div_nonneg V n : 0 <= V -> 0 <= n -> 0 <= V / 2 ^ n <= rne_div V n.
Proof.
  intros HV Hn.
  assert (0 <= V / 2 ^ n) by (apply Z.div_pos; [lia|apply Z.pow_pos_nonneg; lia]).
  destruct (rne_div_cases V n); lia.
Qed.

(** The mantissa that [binary_round_aux] rounds to. *)
Lemma rounded_mantissa mx ex :
  let E := fexp 24 128 (Zpos (digits2_pos mx) + ex) in
  ex <= E ->
  let M := rne_div (Zpos mx) (E - ex) in
  0 <= M <= 2 ^ 24 /\ (-149 < E -> 2 ^ 23 <= M) /\ -149 <= E.
Proof.
  intros E HE M. subst M. unfold E in *. clear E. rewrite fexp32 in *.
  set (d := Zpos (digits2_pos mx)) in *.
  destruct (rne_div_nonneg (Zpos mx) (Z.max (d + ex - 24) (-149) - ex)
              ltac:(lia) ltac:(lia)) as [Hq0 Hq].
  destruct (rne_div_cases (Zpos mx) (Z.max (d + ex - 24) (-149) - ex)) as [C|C].
  all: destruct (Z.max_spec (d + ex - 24) (-149)) as [[Hlt Hm]|[Hge Hm]];
    rewrite Hm in *.
  all: try (pose proof (quotient_subnormal mx (-149 - ex) ltac:(lia) ltac:(lia)));
       try (pose proof (quotient_normal mx (d + ex - 24 - ex) ltac:(lia) ltac:(lia)));
       rewrite C; lia.
Qed.

Lemma Zdigits2_pos M :
  0 < M -> Zdigits2 M = Zpos (digits2_pos (Z.to_pos M)).
Proof. destruct M; try lia. reflexivity. Qed.

Lemma aux_spec s mx ex :
  let E := fexp 24 128 (Zpos (digits2_pos mx) + ex) in
  ex <= E ->
  binary_round_aux 24 128 s (Zpos mx) ex loc_Exact
  = round_result s (rne_div (Zpos mx) (E - ex)) E.
Proof.
  intros E HE.
  (* first shift *)
  assert (S1 : exists mrs,
    shr (shr_record_of_loc (Zpos mx) loc_Exact) ex (E - ex) = (mrs, E)
    /\ round_nearest_even (shr_m mrs) (loc_of_shr_record mrs)
       = rne_div (Zpos mx) (E - ex)).
  { unfold shr. cbn [shr_record_of_loc].
    destruct (E - ex) as [|p|p] eqn:En; [| |lia].
    - eexists; split; [f_equal; lia|]. cbn. symmetry. apply rne_div_0.
    - eexists; split; [f_equal; lia|].
      rewrite shr_pos by lia. apply rne_shr; lia. }
  destruct (rounded_mantissa mx ex HE) as (HM & Hn & HEm).
  fold E in HM, Hn, HEm, S1.
  set (M := rne_div (Zpos mx) (E - ex)) in *.
  unfold binary_round_aux, shr_fexp. cbn [Zdigits2]. fold E.
  destruct S1 as (mrs & -> & ->).
  (* second shift *)
  unfold round_result.
  destruct (Z.eqb_spec M 0) as [M0|M0].
  { rewrite M0. cbn [Zdigits2]. rewrite fexp32.
    unfold shr. cbn [shr_record_of_loc].
    destruct (Z.max (0 + E - 24) (-149) - E) eqn:En; try reflexivity. lia. }
  assert (Mpos : 0 < M) by lia.
  rewrite (Zdigits2_pos M Mpos), fexp32.
  destruct (Z.eqb_spec M (2 ^ 24)) as [M24|M24].
  - rewrite M24.
    replace (Zpos (digits2_pos (Z.to_pos (2 ^ 24)))) with 25 by reflexivity.
    replace (Z.max (25 + E - 24) (-149) - E) with 1 by lia.
    cbn [shr shr_record_of_loc iter_pos]. rewrite shr_1_nonneg by (cbn; lia).
    cbn [shr_m]. replace (2 ^ 24 / 2) with (Zpos (Z.to_pos (2 ^ 23))) by reflexivity.
    cbv iota. cbn [Z.sub]. replace (128 - 24) with 104 by reflexivity.
    reflexivity.
  - assert (D : Zpos (digits2_pos (Z.to_pos M)) <= 24).
    { pose proof (digits2_bounds (Z.to_pos M)) as [B _].
      rewrite Z2Pos.id in B by lia.
      destruct (Z.le_gt_cases (Zpos (digits2_pos (Z.to_pos M))) 24) as [|G];
        [assumption|].
      assert (2 ^ 24 <= 2 ^ (Zpos (digits2_pos (Z.to_pos M)) - 1))
        by (apply Z.pow_le_mono_r; lia).
      lia. }
    unfold shr. cbn [shr_record_of_loc].
    destruct (Z.max (Zpos (digits2_pos (Z.to_pos M)) + E - 24) (-149) - E) eqn:En;
      [| lia |]; cbn [shr_m];
      (destruct M as [|pm|pm]; [lia| |lia]); cbn [Z.to_pos];
      replace (128 - 24) with 104 by reflexivity; reflexivity.
Qed.

Lemma valid_finite_iff s m e :
  valid (S754_finite s m e) = true
  <-> Z.max (Zpos (digits2_pos m) + e - 24) (-149) = e /\ e <= 104.
Proof.
  unfold valid, valid_binary, bounded, canonical_mantissa. rewrite fexp32.
  rewrite andb_true_iff, Z.eqb_eq, Z.leb_le. reflexivity.
Qed.

Lemma round_result_valid s M E :
  0 <= M <= 2 ^ 24 -> (-149 < E -> 2 ^ 23 <= M) -> -149 <= E ->
  valid (round_result s M E) = true /\ is_nan (round_result s M E) = false.
Proof.
  intros HM Hn HE. unfold round_result.
  destruct (Z.eqb_spec M 0); [split; reflexivity|].
  destruct (Z.eqb_spec M (2 ^ 24)).
  - destruct (Z.leb_spec (E + 1) 104); [|split; reflexivity].
    split; [|reflexivity]. apply valid_finite_iff.
    replace (Zpos (digits2_pos (Z.to_pos (2 ^ 23)))) with 24 by reflexivity. lia.
  - destruct (Z.leb_spec E 104); [|split; reflexivity].
    split; [|reflexivity]. apply valid_finite_iff. split; [|assumption].
    pose proof (digits2_bounds (Z.to_pos M)) as [B1 B2].
    rewrite Z2Pos.id in B1, B2 by lia.
    set (d := Zpos (digits2_pos (Z.to_pos M))) in *.
    assert (d <= 24).
    { destruct (Z.le_gt_cases d 24) as [|G]; [assumption|].
      assert (2 ^ 24 <= 2 ^ (d - 1)) by (apply Z.pow_le_mono_r; lia). lia. }
    destruct (Z.eq_dec E (-149)) as [->|]; [lia|].
    assert (24 <= d).
    { destruct (Z.le_gt_cases 24 d) as [|G]; [assumption|].
      assert (2 ^ d <= 2 ^ 23) by (apply Z.pow_le_mono_r; lia). lia. }
    lia.
Qed.

Lemma round_result_ulps s M E :
  0 <= M -> -149 <= E -> finite (round_result s M E) = true ->
  ulps (round_result s M E) = cond_Zopp s (M * 2 ^ (E + 149)).
Proof.
  intros HM HE. unfold round_result.
  destruct (Z.eqb_spec M 0) as [->|].
  { intros _. destruct s; reflexivity. }
  destruct (Z.eqb_spec M (2 ^ 24)) as [->|].
  - destruct (Z.leb_spec (E + 1) 104); [|discriminate]. intros _.
    cbn [ulps]. f_equal.
    replace (E + 1 + 149) with (1 + (E + 149)) by lia.
    rewrite Z.pow_add_r by lia. rewrite Z2Pos.id by (cbn; lia).
    change (2 ^ 24) with (2 ^ 23 * 2 ^ 1). lia.
  - destruct (Z.leb_spec E 104); [|discriminate]. intros _.
    cbn [ulps]. rewrite Z2Pos.id by lia. reflexivity.
Qed.

Lemma round_result_finite s M E :
  0 <= M <= 2 ^ 24 -> E < 104 -> finite (round_result s M E) = true.
Proof.
  intros HM HE. unfold round_result.
  destruct (Z.eqb_spec M 0); [reflexivity|].
  destruct (Z.eqb_spec M (2 ^ 24)).
  - destruct (Z.leb_spec (E + 1) 104); [reflexivity|lia].
  - destruct (Z.leb_spec E 104); [reflexivity|lia].
Qed.

(** Scaling numerator and denominator does not change the rounded quotient. *)
Lemma rne_div_scale a n j :
  0 <= n -> 0 <= j -> rne_div (a * 2 ^ j) (n + j) = rne_div a n.
Proof.
  intros Hn Hj. unfold rne_div.
  assert (Pn : 0 < 2 ^ n) by (apply Z.pow_pos_nonneg; lia).
  assert (Pj : 0 < 2 ^ j) by (apply Z.pow_pos_nonneg; lia).
  rewrite Z.pow_add_r by lia.
  rewrite Z.div_mul_cancel_r by lia.
  rewrite Z.mul_mod_distr_r by lia.
  replace (2 * (a mod 2 ^ n * 2 ^ j)) with (2 * (a mod 2 ^ n) * 2 ^ j) by lia.
  rewrite <- Zmult_compare_compat_r by lia. reflexivity.
Qed.

Lemma shift_digits m k :
  0 <= k ->
  forall mz, Zpos mz = Zpos m * 2 ^ k ->
  Zpos (digits2_pos mz) = Zpos (digits2_pos m) + k.
Proof.
  intros Hk mz E. apply digits2_unique. rewrite E.
  pose proof (digits2_bounds m) as [B1 B2].
  assert (P : 0 < 2 ^ k) by (apply Z.pow_pos_nonneg; lia).
  replace (Zpos (digits2_pos m) + k - 1) with (Zpos (digits2_pos m) - 1 + k) by lia.
  rewrite !Z.pow_add_r by lia. nia.
Qed.

Lemma iter_xO m d : Zpos (Pos.iter xO m d) = Zpos m * 2 ^ Zpos d.
Proof.
  revert m. induction d using Pos.peano_ind; intros m.
  - cbn [Pos.iter]. lia.
  - rewrite Pos.iter_succ, Pos2Z.inj_xO, IHd, Pos2Z.inj_succ, Z.pow_succ_r by lia.
    lia.
Qed.

Lemma shl_align_spec m e e' :
  let '(mz, ez) := shl_align m e e' in
  ez = Z.min e e' /\ Zpos mz = Zpos m * 2 ^ (e - ez).
Proof.
  unfold shl_align. destruct (e' - e) as [|p|p] eqn:E.
  - split; [lia|]. replace (e - e) with 0 by lia. lia.
  - split; [lia|]. replace (e - e) with 0 by lia. lia.
  - split; [lia|]. rewrite iter_xO. f_equal. f_equal. lia.
Qed.

Lemma log2_ulps m j : 0 <= j -> Z.log2 (Zpos m * 2 ^ j) = Zpos (digits2_pos m) - 1 + j.
Proof.
  intros Hj. rewrite Z.log2_mul_pow2 by lia. rewrite digits2_log2. lia.
Qed.

Theorem binary_round_spec s m e :
  -149 <= e ->
  binary_round 24 128 s m e = roundF s (Zpos m * 2 ^ (e + 149)).
Proof.
  intros He. unfold binary_round, roundF, expoZ.
  rewrite log2_ulps by lia.
  pose proof (shl_align_spec m e (fexp 24 128 (Zpos (digits2_pos m) + e))) as A.
  destruct (shl_align m e _) as [mz ez]. destruct A as [Hez Hmz].
  rewrite fexp32 in Hez.
  assert (Hd : Zpos (digits2_pos mz) + ez = Zpos (digits2_pos m) + e).
  { rewrite (shift_digits m (e - ez)) by (lia || assumption). lia. }
  rewrite aux_spec; rewrite Hd, fexp32; [|lia].
  set (d := Zpos (digits2_pos m)) in *.
  replace (Z.max (d - 1 + (e + 149) - 23) 0 - 149) with (Z.max (d + e - 24) (-149)) by lia.
  f_equal.
  replace (Zpos m * 2 ^ (e + 149)) with (Zpos mz * 2 ^ (ez + 149)).
  - replace (Z.max (d - 1 + (e + 149) - 23) 0)
      with (Z.max (d + e - 24) (-149) - ez + (ez + 149)) by lia.
    symmetry. apply rne_div_scale; lia.
  - rewrite Hmz, <- Z.mul_assoc, <- Z.pow_add_r by lia. f_equal. f_equal. lia.
Qed.

Lemma expoZ_nonneg V : 0 <= expoZ V.
Proof. unfold expoZ. lia. Qed.

Lemma expoZ_normal V : 0 < V -> 0 < expoZ V -> 2 ^ (expoZ V + 23) <= V < 2 ^ (expoZ V + 24).
Proof.
  unfold expoZ. intros HV H.
  replace (Z.max (Z.log2 V - 23) 0) with (Z.log2 V - 23) by lia.
  replace (Z.log2 V - 23 + 23) with (Z.log2 V) by lia.
  replace (Z.log2 V - 23 + 24) with (Z.succ (Z.log2 V)) by lia.
  apply Z.log2_spec, HV.
Qed.

Lemma expoZ_small V : 0 < V -> expoZ V = 0 -> V < 2 ^ 24.
Proof.
  unfold expoZ. intros HV H.
  pose proof (Z.log2_spec V HV) as [_ B].
  assert (2 ^ Z.succ (Z.log2 V) <= 2 ^ 24) by (apply Z.pow_le_mono_r; lia). lia.
Qed.

Lemma expoZ_le V k : 0 < V < 2 ^ k -> expoZ V <= Z.max (k - 24) 0.
Proof.
  intros [HV B]. unfold expoZ.
  assert (Z.log2 V < k) by (apply Z.log2_lt_pow2; lia). lia.
Qed.

Lemma rounded_quotient V :
  0 < V ->
  0 < rne_div V (expoZ V) <= 2 ^ 24
  /\ (0 < expoZ V -> 2 ^ 23 <= rne_div V (expoZ V)).
Proof.
  intros HV. pose proof (expoZ_nonneg V) as G0.
  destruct (rne_div_nonneg V (expoZ V) ltac:(lia) G0) as [Q0 Q1].
  assert (P : 0 < 2 ^ expoZ V) by (apply Z.pow_pos_nonneg; lia).
  destruct (Z.eq_dec (expoZ V) 0) as [E0|E0].
  - pose proof (expoZ_small V HV E0). rewrite E0, rne_div_0 in *. lia.
  - destruct (expoZ_normal V HV ltac:(lia)) as [B1 B2].
    rewrite !Z.pow_add_r in * by lia.
    assert (2 ^ 23 <= V / 2 ^ expoZ V) by (apply Z.div_le_lower_bound; lia).
    assert (V / 2 ^ expoZ V < 2 ^ 24) by (apply Z.div_lt_upper_bound; lia).
    destruct (rne_div_cases V (expoZ V)); lia.
Qed.

Lemma roundF_valid s V :
  0 < V -> valid (roundF s V) = true /\ is_nan (roundF s V) = false.
Proof.
  intros HV. destruct (rounded_quotient V HV) as [Q N].
  pose proof (expoZ_nonneg V).
  apply round_result_valid; lia.
Qed.

Lemma roundF_ulps s V :
  0 < V -> finite (roundF s V) = true ->
  ulps (roundF s V) = cond_Zopp s (roundZ V).
Proof.
  intros HV F. destruct (rounded_quotient V HV) as [Q N].
  pose proof (expoZ_nonneg V).
  unfold roundF in *. rewrite round_result_ulps by (lia || assumption).
  unfold roundZ. do 3 f_equal. lia.
Qed.

Lemma roundF_finite s V : 0 < V < 2 ^ 276 -> finite (roundF s V) = true.
Proof.
  intros HV. destruct (rounded_quotient V ltac:(lia)) as [Q N].
  apply round_result_finite; [lia|].
  pose proof (expoZ_le V 276 HV). lia.
Qed.

Lemma roundZ_pos V : 0 < V -> 0 < roundZ V.
Proof.
  intros HV. destruct (rounded_quotient V HV) as [Q N]. unfold roundZ.
  assert (0 < 2 ^ expoZ V) by (apply Z.pow_pos_nonneg; pose proof (expoZ_nonneg V); lia).
  nia.
Qed.

Lemma roundZ_err V : 2 * Z.abs (roundZ V - V) <= 2 ^ expoZ V.
Proof. apply rne_div_err, expoZ_nonneg. Qed.

Lemma roundZ_exact V g :
  0 <= g -> 0 < V < 2 ^ (24 + g) -> V mod 2 ^ g = 0 -> roundZ V = V.
Proof.
  intros Hg HV Hm. unfold roundZ.
  pose proof (expoZ_nonneg V) as G0.
  pose proof (expoZ_le V (24 + g) HV) as GB.
  assert (D : V mod 2 ^ expoZ V = 0).
  { apply Z.mod_divide; [apply Z.pow_nonzero; lia|].
    apply Z.divide_trans with (2 ^ g).
    - exists (2 ^ (g - expoZ V)). rewrite <- Z.pow_add_r by lia. f_equal. lia.
    - apply Z.mod_divide; [apply Z.pow_nonzero; lia|assumption]. }
  rewrite rne_div_exact by assumption.
  pose proof (Z.div_mod V (2 ^ expoZ V) ltac:(apply Z.pow_nonzero; lia)). lia.
Qed.

(** The relative error of one rounding is at most [2^-24]. *)
Lemma roundZ_rel V : 0 < V -> 2 ^ 24 * Z.abs (roundZ V - V) <= V.
Proof.
  intros HV. pose proof (roundZ_err V) as E.
  destruct (Z.eq_dec (expoZ V) 0) as [E0|E0].
  - unfold roundZ. rewrite E0, rne_div_0, Z.pow_0_r, Z.mul_1_r, Z.sub_diag.
    cbn. lia.
  - pose proof (expoZ_nonneg V).
    destruct (expoZ_normal V HV ltac:(lia)) as [B _].
    rewrite Z.pow_add_r in B by lia.
    replace (2 ^ expoZ V) with (2 * 2 ^ (expoZ V - 1)) in *
      by (rewrite <- Z.pow_succ_r by lia; f_equal; lia).
    change (2 ^ 24) with (2 * 2 ^ 23). nia.
Qed.

(** A binary32 number is its own rounding. *)
Lemma valid_digits s m e :
  valid (S754_finite s m e) = true ->
  -149 <= e <= 104 /\ Zpos m < 2 ^ 24 /\ (-149 < e -> 2 ^ 23 <= Zpos m).
Proof.
  intros H. apply valid_finite_iff in H. destruct H as [C L].
  pose proof (digits2_bounds m) as [B1 B2].
  set (d := Zpos (digits2_pos m)) in *.
  assert (d <= 24) by lia.
  assert (2 ^ d <= 2 ^ 24) by (apply Z.pow_le_mono_r; lia).
  repeat split; try lia.
  intros G. assert (d = 24) by lia. subst d. rewrite H1 in B1. exact B1.
Qed.

Lemma ulps_finite_pos m e :
  valid (S754_finite false m e) = true ->
  0 < Zpos m * 2 ^ (e + 149) < 2 ^ (24 + (e + 149))
  /\ (Zpos m * 2 ^ (e + 149)) mod 2 ^ (e + 149) = 0.
Proof.
  intros H. destruct (valid_digits _ _ _ H) as (He & Hm & _).
  assert (P : 0 < 2 ^ (e + 149)) by (apply Z.pow_pos_nonneg; lia).
  rewrite (Z.pow_add_r 2 24 (e + 149)) by lia. split; [|apply Z.mod_mul; lia].
  split; [apply Z.mul_pos_pos; lia|]. apply Z.mul_lt_mono_pos_r; assumption.
Qed.

Lemma roundZ_ulps m e :
  valid (S754_finite false m e) = true ->
  roundZ (Zpos m * 2 ^ (e + 149)) = Zpos m * 2 ^ (e + 149).
Proof.
  intros H. destruct (valid_digits _ _ _ H) as (He & _).
  destruct (ulps_finite_pos m e H) as [B D].
  apply (roundZ_exact _ (e + 149)); (lia || assumption).
Qed.

Lemma valid_sign s s' m e :
  valid (S754_finite s m e) = valid (S754_finite s' m e).
Proof. reflexivity. Qed.

Lemma sroundZ_ulps x : valid x = true -> sroundZ (ulps x) = ulps x.
Proof.
  intros H. destruct x as [s|s| |s m e]; try reflexivity.
  rewrite (valid_sign s false) in H.
  pose proof (roundZ_ulps m e H) as R.
  destruct (ulps_finite_pos m e H) as [[B _] _].
  unfold sroundZ, ulps. destruct s; cbn [cond_Zopp].
  - rewrite Z.sgn_neg, Z.abs_neq, Z.opp_involutive, R by lia. lia.
  - rewrite Z.sgn_pos, Z.abs_eq, R by lia. lia.
Qed.

Lemma sroundF_valid V :
  valid (sroundF V) = true /\ is_nan (sroundF V) = false.
Proof.
  destruct V; [split; reflexivity| |]; cbn [sroundF]; apply roundF_valid; lia.
Qed.

Lemma sroundF_finite V :
  Z.abs V < 2 ^ 276 -> finite (sroundF V) = true /\ ulps (sroundF V) = sroundZ V.
Proof.
  intros B. destruct V as [|p|p]; cbn [sroundF].
  - split; reflexivity.
  - assert (F : finite (roundF false (Zpos p)) = true) by (apply roundF_finite; lia).
    split; [exact F|]. rewrite roundF_ulps by (lia || assumption).
    unfold sroundZ. cbn [cond_Zopp]. rewrite Z.sgn_pos, Z.abs_eq by lia. lia.
  - assert (F : finite (roundF true (- Zneg p)) = true) by (apply roundF_finite; lia).
    split; [exact F|]. rewrite roundF_ulps by (lia || assumption).
    unfold sroundZ. cbn [cond_Zopp]. rewrite Z.sgn_neg, Z.abs_neq by lia. lia.
Qed.

Lemma binary_normalize_spec S e :
  -149 <= e -> binary_normalize 24 128 S e false = sroundF (S * 2 ^ (e + 149)).
Proof.
  intros He. assert (P : 0 < 2 ^ (e + 149)) by (apply Z.pow_pos_nonneg; lia).
  destruct S as [|p|p]; cbn [binary_normalize].
  - reflexivity.
  - rewrite binary_round_spec by assumption.
    destruct (Zpos p * 2 ^ (e + 149)) eqn:E; try lia. reflexivity.
  - rewrite binary_round_spec by assumption.
    destruct (Zneg p * 2 ^ (e + 149)) eqn:E; try lia. cbn [sroundF].
    f_equal. rewrite <- E. lia.
Qed.

Lemma aligned_ulps s m e ez :
  -149 <= ez <= e ->
  cond_Zopp s (Zpos (fst (shl_align m e ez))) * 2 ^ (ez + 149)
  = ulps (S754_finite s m e).
Proof.
  intros H. pose proof (shl_align_spec m e ez) as A.
  destruct (shl_align m e ez) as [mz ez']. destruct A as [A1 A2].
  cbn [fst ulps]. rewrite A2.
  replace (Z.min e ez) with ez in * by lia. subst ez'.
  replace (e + 149) with (e - ez + (ez + 149)) by lia.
  rewrite (Z.pow_add_r 2 (e - ez) (ez + 149)) by lia.
  destruct s; cbn [cond_Zopp]; lia.
Qed.

Theorem SFadd_finite sx mx ex sy my ey :
  valid (S754_finite sx mx ex) = true -> valid (S754_finite sy my ey) = true ->
  SFadd 24 128 (S754_finite sx mx ex) (S754_finite sy my ey)
  = sroundF (ulps (S754_finite sx mx ex) + ulps (S754_finite sy my ey)).
Proof.
  intros Hx Hy.
  destruct (valid_digits _ _ _ Hx) as (Ex & _).
  destruct (valid_digits _ _ _ Hy) as (Ey & _).
  cbn [SFadd]. rewrite binary_normalize_spec by lia.
  f_equal. rewrite Z.mul_add_distr_r, !aligned_ulps by lia. reflexivity.
Qed.

Theorem SFsub_finite sx mx ex sy my ey :
  valid (S754_finite sx mx ex) = true -> valid (S754_finite sy my ey) = true ->
  SFsub 24 128 (S754_finite sx mx ex) (S754_finite sy my ey)
  = sroundF (ulps (S754_finite sx mx ex) - ulps (S754_finite sy my ey)).
Proof.
  intros Hx Hy.
  destruct (valid_digits _ _ _ Hx) as (Ex & _).
  destruct (valid_digits _ _ _ Hy) as (Ey & _).
  cbn [SFsub]. rewrite binary_normalize_spec by lia.
  f_equal. rewrite Z.mul_sub_distr_r, !aligned_ulps by lia. reflexivity.
Qed.

Lemma round_result_cases s M E :
  finite (round_result s M E) = true
  \/ (round_result s M E = S754_infinity s /\ 104 <= E).
Proof.
  unfold round_result.
  destruct (Z.eqb_spec M 0); [left; reflexivity|].
  destruct (Z.eqb_spec M (2 ^ 24)).
  - destruct (Z.leb_spec (E + 1) 104); [left; reflexivity|right; split; [reflexivity|lia]].
  - destruct (Z.leb_spec E 104); [left; reflexivity|right; split; [reflexivity|lia]].
Qed.

Lemma roundF_cases s V :
  0 < V ->
  (finite (roundF s V) = true /\ ulps (roundF s V) = cond_Zopp s (roundZ V))
  \/ (roundF s V = S754_infinity s /\ 2 ^ 276 <= V).
Proof.
  intros HV. destruct (round_result_cases s (rne_div V (expoZ V)) (expoZ V - 149))
    as [F|[I B]].
  - left. split; [exact F|]. apply roundF_ulps; assumption.
  - right. split; [exact I|].
    destruct (expoZ_normal V HV ltac:(lia)) as [L _].
    assert (2 ^ 276 <= 2 ^ (expoZ V + 23)) by (apply Z.pow_le_mono_r; lia). lia.
Qed.

Lemma sroundF_cases V :
  (finite (sroundF V) = true /\ ulps (sroundF V) = sroundZ V)
  \/ (sroundF V = S754_infinity (V <? 0) /\ 2 ^ 276 <= Z.abs V).
Proof.
  destruct V as [|p|p]; cbn [sroundF].
  - left. split; reflexivity.
  - destruct (roundF_cases false (Zpos p) ltac:(lia)) as [[F U]|[I B]].
    + left. split; [exact F|]. rewrite U. unfold sroundZ. cbn [cond_Zopp].
      rewrite Z.sgn_pos, Z.abs_eq by lia. lia.
    + right. split; [exact I|lia].
  - destruct (roundF_cases true (- Zneg p) ltac:(lia)) as [[F U]|[I B]].
    + left. split; [exact F|]. rewrite U. unfold sroundZ. cbn [cond_Zopp].
      rewrite Z.sgn_neg, Z.abs_neq by lia. lia.
    + right. split; [exact I|lia].
Qed.

Lemma sroundZ_0 : sroundZ 0 = 0.
Proof. reflexivity. Qed.

Lemma ulps_opp x : ulps (SFopp x) = - ulps x.
Proof. destruct x as [s|s| |[] m e]; cbn; lia. Qed.

Lemma valid_opp x : valid (SFopp x) = valid x.
Proof. destruct x; reflexivity. Qed.

(** Subtraction and addition of finite binary32 numbers: the exact result,
    rounded once. *)
Theorem SFsub_spec x y :
  valid x = true -> valid y = true -> finite x = true -> finite y = true ->
  valid (SFsub 24 128 x y) = true /\ is_nan (SFsub 24 128 x y) = false
  /\ ((finite (SFsub 24 128 x y) = true
       /\ ulps (SFsub 24 128 x y) = sroundZ (ulps x - ulps y))
      \/ (SFsub 24 128 x y = S754_infinity (ulps x - ulps y <? 0)
          /\ 2 ^ 276 <= Z.abs (ulps x - ulps y))).
Proof.
  intros Vx Vy Fx Fy.
  destruct x as [sx|sx| |sx mx ex]; try discriminate;
  destruct y as [sy|sy| |sy my ey]; try discriminate.
  - repeat split; [destruct sx, sy; reflexivity ..|].
    left. split; destruct sx, sy; reflexivity.
  - cbn [SFsub]. repeat split; [exact Vy|].
    left. split; [reflexivity|].
    change (S754_finite (negb sy) my ey) with (SFopp (S754_finite sy my ey)).
    rewrite <- (sroundZ_ulps (SFopp (S754_finite sy my ey))) by exact Vy.
    f_equal. rewrite ulps_opp. cbn [ulps]. lia.
  - cbn [SFsub]. repeat split; [exact Vx|].
    left. split; [reflexivity|].
    rewrite <- (sroundZ_ulps (S754_finite sx mx ex)) at 1 by exact Vx.
    f_equal. cbn [ulps]. lia.
  - rewrite SFsub_finite by assumption.
    destruct (sroundF_valid (ulps (S754_finite sx mx ex) - ulps (S754_finite sy my ey))).
    repeat split; try assumption. apply sroundF_cases.
Qed.

Theorem SFadd_spec x y :
  valid x = true -> valid y = true -> finite x = true -> finite y = true ->
  valid (SFadd 24 128 x y) = true /\ is_nan (SFadd 24 128 x y) = false
  /\ ((finite (SFadd 24 128 x y) = true
       /\ ulps (SFadd 24 128 x y) = sroundZ (ulps x + ulps y))
      \/ (SFadd 24 128 x y = S754_infinity (ulps x + ulps y <? 0)
          /\ 2 ^ 276 <= Z.abs (ulps x + ulps y))).
Proof.
  intros Vx Vy Fx Fy.
  destruct x as [sx|sx| |sx mx ex]; try discriminate;
  destruct y as [sy|sy| |sy my ey]; try discriminate.
  - repeat split; [destruct sx, sy; reflexivity ..|].
    left. split; destruct sx, sy; reflexivity.
  - cbn [SFadd]. repeat split; [exact Vy|].
    left. split; [reflexivity|].
    rewrite <- (sroundZ_ulps (S754_finite sy my ey)) at 1 by exact Vy.
    f_equal.
  - cbn [SFadd]. repeat split; [exact Vx|].
    left. split; [reflexivity|].
    rewrite <- (sroundZ_ulps (S754_finite sx mx ex)) at 1 by exact Vx.
    f_equal. cbn [ulps]. lia.
  - rewrite SFadd_finite by assumption.
    destruct (sroundF_valid (ulps (S754_finite sx mx ex) + ulps (S754_finite sy my ey))).
    repeat split; try assumption. apply sroundF_cases.
Qed.

(** Every result of an addition or subtraction is a binary32 number. *)
Lemma SFadd_valid x y :
  valid x = true -> valid y = true -> valid (SFadd 24 128 x y) = true.
Proof.
  intros Vx Vy.
  destruct (finite x) eqn:Fx; [destruct (finite y) eqn:Fy|].
  - apply SFadd_spec; assumption.
  - destruct x as [sx|sx| |sx mx ex], y as [sy|sy| |sy my ey]; try discriminate;
      reflexivity.
  - destruct x as [sx|sx| |sx mx ex], y as [sy|sy| |sy my ey]; try discriminate;
      try reflexivity; destruct sx, sy; reflexivity.
Qed.

Lemma SFsub_valid x y :
  valid x = true -> valid y = true -> valid (SFsub 24 128 x y) = true.
Proof.
  intros Vx Vy.
  destruct (finite x) eqn:Fx; [destruct (finite y) eqn:Fy|].
  - apply SFsub_spec; assumption.
  - destruct x as [sx|sx| |sx mx ex], y as [sy|sy| |sy my ey]; try discriminate;
      reflexivity.
  - destruct x as [sx|sx| |sx mx ex], y as [sy|sy| |sy my ey]; try discriminate;
      try reflexivity; destruct sx, sy; reflexivity.
Qed.

(** Multiplication: the product of two canonical mantissas has enough digits
    for [binary_round_aux]. *)
Lemma SFmul_finite_valid sx mx ex sy my ey :
  valid (S754_finite sx mx ex) = true -> valid (S754_finite sy my ey) = true ->
  valid (SFmul 24 128 (S754_finite sx mx ex) (S754_finite sy my ey)) = true
  /\ is_nan (SFmul 24 128 (S754_finite sx mx ex) (S754_finite sy my ey)) = false.
Proof.
  intros Hx Hy. cbn [SFmul].
  apply valid_finite_iff in Hx, Hy. destruct Hx as [Cx _], Hy as [Cy _].
  pose proof (digits2_bounds mx) as [X1 X2].
  pose proof (digits2_bounds my) as [Y1 Y2].
  pose proof (digits2_bounds (mx * my)) as [P1 P2].
  set (dx := Zpos (digits2_pos mx)) in *.
  set (dy := Zpos (digits2_pos my)) in *.
  set (dp := Zpos (digits2_pos (mx * my))) in *.
  assert (0 < dx) by (unfold dx; lia). assert (0 < dy) by (unfold dy; lia).
  assert (D : dx + dy - 1 <= dp).
  { destruct (Z.le_gt_cases (dx + dy - 1) dp) as [|G]; [assumption|exfalso].
    assert (2 ^ dp <= 2 ^ (dx - 1 + (dy - 1))) by (apply Z.pow_le_mono_r; lia).
    rewrite Z.pow_add_r in H1 by lia.
    rewrite Pos2Z.inj_mul in P2.
    assert (2 ^ (dx - 1) * 2 ^ (dy - 1) <= Zpos mx * Zpos my)
      by (apply Z.mul_le_mono_nonneg; lia || (apply Z.pow_nonneg; lia)).
    lia. }
  assert (HE : ex + ey <= fexp 24 128 (dp + (ex + ey))) by (rewrite fexp32; lia).
  rewrite aux_spec by exact HE.
  destruct (rounded_mantissa (mx * my) (ex + ey) HE) as (A & B & C).
  apply round_result_valid; assumption.
Qed.

Lemma SFmul_valid x y :
  valid x = true -> valid y = true -> valid (SFmul 24 128 x y) = true.
Proof.
  intros Vx Vy.
  destruct x as [sx|sx| |sx mx ex], y as [sy|sy| |sy my ey]; try reflexivity.
  apply SFmul_finite_valid; assumption.
Qed.

Lemma SFmul_finite_nan x y :
  valid x = true -> valid y = true -> finite x = true -> finite y = true ->
  is_nan (SFmul 24 128 x y) = false.
Proof.
  intros Vx Vy Fx Fy.
  destruct x as [sx|sx| |sx mx ex], y as [sy|sy| |sy my ey]; try discriminate;
    try reflexivity.
  apply SFmul_finite_valid; assumption.
Qed.

(** Comparison of finite binary32 numbers is comparison of their values. *)
Lemma compare_cont_spec m1 m2 :
  Pos.compare_cont Eq m1 m2 = (Zpos m1 ?= Zpos m2).
Proof. reflexivity. Qed.

Lemma compare_same_sign m1 e1 m2 e2 :
  valid (S754_finite false m1 e1) = true ->
  valid (S754_finite false m2 e2) = true ->
  match e1 ?= e2 with
  | Lt => Lt
  | Gt => Gt
  | Eq => Pos.compare_cont Eq m1 m2
  end = (Zpos m1 * 2 ^ (e1 + 149) ?= Zpos m2 * 2 ^ (e2 + 149)).
Proof.
  intros H1 H2.
  destruct (valid_digits _ _ _ H1) as (E1 & M1 & N1).
  destruct (valid_digits _ _ _ H2) as (E2 & M2 & N2).
  assert (Mono : forall ma ea mb eb,
    -149 <= ea -> ea < eb -> Zpos ma < 2 ^ 24 -> 2 ^ 23 <= Zpos mb ->
    Zpos ma * 2 ^ (ea + 149) < Zpos mb * 2 ^ (eb + 149)).
  { intros ma ea mb eb Ha Hlt Hma Hmb.
    replace (eb + 149) with (eb - ea - 1 + (1 + (ea + 149))) by lia.
    rewrite (Z.pow_add_r 2 (eb - ea - 1) (1 + (ea + 149))),
      (Z.pow_add_r 2 1 (ea + 149)) by lia.
    assert (0 < 2 ^ (ea + 149)) by (apply Z.pow_pos_nonneg; lia).
    assert (1 <= 2 ^ (eb - ea - 1)) by (apply (Z.pow_le_mono_r 2 0); lia).
    change (2 ^ 1) with 2. change (2 ^ 24) with (2 * 2 ^ 23) in Hma.
    set (P := 2 ^ (ea + 149)) in *. set (K := 2 ^ (eb - ea - 1)) in *.
    set (B := 2 ^ 23) in *.
    apply Z.lt_le_trans with (2 * B * P); [nia|].
    apply Z.le_trans with (Zpos mb * (1 * (2 * P))); [nia|].
    apply Z.mul_le_mono_nonneg_l; [lia|].
    apply Z.mul_le_mono_nonneg_r; lia. }
  destruct (Z.compare_spec e1 e2) as [->|L|G].
  - rewrite compare_cont_spec.
    apply Zmult_compare_compat_r.
    assert (0 < 2 ^ (e2 + 149)) by (apply Z.pow_pos_nonneg; lia). lia.
  - symmetry. apply Z.compare_lt_iff. apply Mono; lia.
  - symmetry. apply Z.compare_gt_iff. apply Mono; lia.
Qed.

Theorem SFcompare_spec x y :
  valid x = true -> valid y = true -> finite x = true -> finite y = true ->
  SFcompare x y = Some (ulps x ?= ulps y).
Proof.
  intros Vx Vy Fx Fy.
  destruct x as [sx|sx| |sx mx ex]; try discriminate;
  destruct y as [sy|sy| |sy my ey]; try discriminate.
  - reflexivity.
  - rewrite (valid_sign sy false) in Vy.
    destruct (ulps_finite_pos my ey Vy) as [[P _] _].
    cbn [SFcompare ulps]. f_equal. destruct sy; cbn [cond_Zopp]; symmetry.
    + apply Z.compare_gt_iff. lia.
    + apply Z.compare_lt_iff. lia.
  - rewrite (valid_sign sx false) in Vx.
    destruct (ulps_finite_pos mx ex Vx) as [[P _] _].
    cbn [SFcompare ulps]. f_equal. destruct sx; cbn [cond_Zopp]; symmetry.
    + apply Z.compare_lt_iff. lia.
    + apply Z.compare_gt_iff. lia.
  - rewrite (valid_sign sx false) in Vx. rewrite (valid_sign sy false) in Vy.
    destruct (ulps_finite_pos mx ex Vx) as [[Px _] _].
    destruct (ulps_finite_pos my ey Vy) as [[Py _] _].
    cbn [SFcompare ulps]. f_equal. destruct sx, sy; cbn [cond_Zopp].
    + rewrite Z.compare_opp.
      rewrite <- (compare_same_sign my ey mx ex Vy Vx).
      rewrite (Z.compare_antisym ex ey).
      destruct (ex ?= ey); cbn [CompOpp]; try reflexivity.
      rewrite !compare_cont_spec. rewrite (Z.compare_antisym (Zpos mx) (Zpos my)).
      reflexivity.
    + symmetry. apply Z.compare_lt_iff. lia.
    + symmetry. apply Z.compare_gt_iff. lia.
    + apply compare_same_sign; assumption.
Qed.

(** ** The firmware over binary32 numbers *)

(** ** Constants and comparisons *)

Lemma accelStep_firmware : accelStep ACCEL_RATE = of_int 80.
Proof. reflexivity. Qed.

Lemma of_int_0 : of_int 0 = S754_zero false.
Proof. reflexivity. Qed.

Lemma ulps_of_int_small n :
  0 <= n <= 32767 -> valid (of_int n) = true /\ finite (of_int n) = true
                     /\ ulps (of_int n) = units n.
Proof.
  intros Hn. unfold of_int. rewrite binary_normalize_spec by lia.
  change (2 ^ (0 + 149)) with (2 ^ 149). fold (units n).
  destruct (sroundF_valid (units n)) as [V _].
  assert (B : Z.abs (units n) < 2 ^ 276).
  { unfold units. rewrite Z.abs_eq by (apply Z.mul_nonneg_nonneg; lia).
    apply Z.le_lt_trans with (32767 * 2 ^ 149); [|reflexivity].
    apply Z.mul_le_mono_nonneg_r; lia. }
  destruct (sroundF_finite (units n) B) as [F U].
  repeat split; try assumption. rewrite U.
  destruct (Z.eq_dec n 0) as [->|N]; [reflexivity|].
  unfold sroundZ. unfold units in *.
  assert (P : 0 < n * 2 ^ 149) by (apply Z.mul_pos_pos; lia).
  rewrite Z.sgn_pos, Z.abs_eq, Z.mul_1_l by lia.
  apply (roundZ_exact _ 149); [lia| |apply Z.mod_mul; lia].
  split; [exact P|]. rewrite Z.pow_add_r by lia.
  apply Z.mul_lt_mono_pos_r; [lia|]. change (2 ^ 24) with 16777216. lia.
Qed.

(** Comparisons of finite binary32 numbers, on their values. *)
Lemma flt_spec x y :
  valid x = true -> valid y = true -> finite x = true -> finite y = true ->
  flt x y = (ulps x <? ulps y).
Proof.
  intros. unfold flt, SFltb. rewrite SFcompare_spec by assumption.
  unfold Z.ltb. destruct (ulps x ?= ulps y); reflexivity.
Qed.

Lemma fgt_spec x y :
  valid x = true -> valid y = true -> finite x = true -> finite y = true ->
  fgt x y = (ulps y <? ulps x).
Proof. intros. apply flt_spec; assumption. Qed.

Lemma fle_spec x y :
  valid x = true -> valid y = true -> finite x = true -> finite y = true ->
  fle x y = (ulps x <=? ulps y).
Proof.
  intros. unfold fle, SFleb. rewrite SFcompare_spec by assumption.
  unfold Z.leb. destruct (ulps x ?= ulps y); reflexivity.
Qed.

Lemma feq_spec x y :
  valid x = true -> valid y = true -> finite x = true -> finite y = true ->
  feq x y = (ulps x =? ulps y).
Proof.
  intros. unfold feq, SFeqb. rewrite SFcompare_spec by assumption.
  destruct (Z.compare_spec (ulps x) (ulps y));
    destruct (Z.eqb_spec (ulps x) (ulps y)); try reflexivity; lia.
Qed.

(** Every comparison with NaN is false. *)
Lemma compare_nan_l y : SFcompare S754_nan y = None.
Proof. reflexivity. Qed.

Lemma compare_nan_r x : SFcompare x S754_nan = None.
Proof. destruct x; reflexivity. Qed.

Lemma nan_is x : is_nan x = true -> x = S754_nan.
Proof. destruct x; try discriminate. reflexivity. Qed.

(** The three kinds of float. *)
Lemma float_kind x :
  is_nan x = true \/ (exists s, x = S754_infinity s) \/ finite x = true.
Proof. destruct x as [s|s| |s m e]; eauto. Qed.

(** ** The bounds test and [constrain] *)

Lemma in_range_spec c :
  valid c = true ->
  in_range c = true <-> finite c = true /\ 0 <= ulps c <= units MAX_SPEED.
Proof.
  intros V. unfold in_range.
  destruct (ulps_of_int_small 0 ltac:(lia)) as (V0 & F0 & U0).
  destruct (ulps_of_int_small MAX_SPEED ltac:(unfold MAX_SPEED; lia)) as (VM & FM & UM).
  destruct (float_kind c) as [N|[[s ->]|F]].
  - apply nan_is in N. subst c. split; [discriminate|intros [? _]; discriminate].
  - split; [|intros [? _]; discriminate]. destruct s; discriminate.
  - rewrite !fle_spec by assumption. rewrite U0, UM.
    rewrite andb_true_iff, !Z.leb_le. change (units 0) with 0. tauto.
Qed.

Lemma constrain_nan x lo hi : is_nan x = true -> constrain x lo hi = x.
Proof.
  intros N. apply nan_is in N. subst x. unfold constrain, flt, fgt, SFltb.
  rewrite compare_nan_l, compare_nan_r. reflexivity.
Qed.

(** The result of [constrain(x, 0, MAX_SPEED)]: NaN for NaN, otherwise the
    value of [x] clamped. *)
Lemma constrain_spec x :
  valid x = true -> is_nan x = false ->
  let r := constrain x (of_int 0) (of_int MAX_SPEED) in
  valid r = true /\ finite r = true
  /\ 0 <= ulps r <= units MAX_SPEED
  /\ (finite x = true ->
      ulps r = Z.max 0 (Z.min (ulps x) (units MAX_SPEED))).
Proof.
  intros V N r. subst r.
  destruct (ulps_of_int_small 0 ltac:(lia)) as (V0 & F0 & U0).
  destruct (ulps_of_int_small MAX_SPEED ltac:(unfold MAX_SPEED; lia)) as (VM & FM & UM).
  change (units 0) with 0 in U0.
  assert (PM : 0 <= units MAX_SPEED) by (unfold units, MAX_SPEED; lia).
  destruct (float_kind x) as [N'|[[s ->]|F]]; [congruence| |].
  - destruct s; cbn; repeat split; try lia; try discriminate.
  - unfold constrain. rewrite flt_spec, fgt_spec by assumption. rewrite U0, UM.
    destruct (Z.ltb_spec (ulps x) 0).
    + rewrite U0. repeat split; try assumption; lia.
    + destruct (Z.ltb_spec (units MAX_SPEED) (ulps x)).
      * rewrite UM. repeat split; try assumption; lia.
      * repeat split; try assumption; lia.
Qed.

Lemma constrain_valid x :
  valid x = true -> valid (constrain x (of_int 0) (of_int MAX_SPEED)) = true.
Proof.
  intros V. destruct (is_nan x) eqn:N.
  - rewrite constrain_nan by assumption. exact V.
  - apply constrain_spec; assumption.
Qed.

Lemma constrain_is_nan x :
  is_nan (constrain x (of_int 0) (of_int MAX_SPEED)) = is_nan x.
Proof.
  destruct (is_nan x) eqn:N.
  - rewrite constrain_nan by assumption. exact N.
  - destruct x as [s|s| |s m e]; try discriminate; unfold constrain;
      repeat match goal with |- context [if ?b then _ else _] => destruct b end;
      reflexivity.
Qed.

(** [constrain] keeps [currentSpeed] NaN or within the bounds. *)
Lemma constrain_in_range x :
  valid x = true ->
  is_nan (constrain x (of_int 0) (of_int MAX_SPEED)) = true
  \/ in_range (constrain x (of_int 0) (of_int MAX_SPEED)) = true.
Proof.
  intros V. destruct (is_nan x) eqn:N.
  - left. rewrite constrain_is_nan. exact N.
  - right. destruct (constrain_spec x V N) as (Vr & Fr & Br & _).
    apply in_range_spec; auto.
Qed.

(** ** One rounding, signed *)

Lemma sroundZ_pos V : 0 < V -> sroundZ V = roundZ V.
Proof. intros H. unfold sroundZ. rewrite Z.sgn_pos, Z.abs_eq by lia. lia. Qed.

Lemma sroundZ_neg V : V < 0 -> sroundZ V = - roundZ (- V).
Proof. intros H. unfold sroundZ. rewrite Z.sgn_neg, Z.abs_neq by lia. lia. Qed.

Lemma sroundZ_sign V :
  (0 < V -> 0 < sroundZ V) /\ (V < 0 -> sroundZ V < 0).
Proof.
  split; intros H.
  - rewrite sroundZ_pos by assumption. apply roundZ_pos, H.
  - rewrite sroundZ_neg by assumption.
    pose proof (roundZ_pos (- V) ltac:(lia)). lia.
Qed.

(** The relative error of one rounding is at most [2^-24]. *)
Lemma sroundZ_rel V : 2 ^ 24 * Z.abs (sroundZ V - V) <= Z.abs V.
Proof.
  destruct (Z.lt_trichotomy V 0) as [N|[->|P]].
  - rewrite sroundZ_neg by assumption.
    pose proof (roundZ_rel (- V) ltac:(lia)).
    replace (- roundZ (- V) - V) with (- (roundZ (- V) - - V)) by lia.
    rewrite Z.abs_opp. lia.
  - cbn. lia.
  - rewrite sroundZ_pos by assumption.
    pose proof (roundZ_rel V P). lia.
Qed.

(** Below [2^k] units the error of one rounding is at most [2^(k-25)]. *)
Lemma sroundZ_abs V k :
  24 <= k -> Z.abs V < 2 ^ k -> 2 * Z.abs (sroundZ V - V) <= 2 ^ (k - 24).
Proof.
  intros Hk B.
  assert (P : 0 < 2 ^ (k - 24)) by (apply Z.pow_pos_nonneg; lia).
  assert (G : forall W, 0 < W < 2 ^ k -> 2 * Z.abs (roundZ W - W) <= 2 ^ (k - 24)).
  { intros W HW. pose proof (roundZ_err W) as E.
    pose proof (expoZ_le W k HW) as L. pose proof (expoZ_nonneg W).
    assert (2 ^ expoZ W <= 2 ^ (k - 24)) by (apply Z.pow_le_mono_r; lia). lia. }
  destruct (Z.lt_trichotomy V 0) as [N|[->|Q]].
  - rewrite sroundZ_neg by assumption.
    pose proof (G (- V) ltac:(lia)).
    replace (- roundZ (- V) - V) with (- (roundZ (- V) - - V)) by lia.
    rewrite Z.abs_opp. lia.
  - cbn. lia.
  - rewrite sroundZ_pos by assumption. apply G. lia.
Qed.

(** A multiple of [2^g] below [2^(24+g)] is not changed by rounding. *)
Lemma sroundZ_exact V g :
  0 <= g -> Z.abs V < 2 ^ (24 + g) -> V mod 2 ^ g = 0 -> sroundZ V = V.
Proof.
  intros Hg B M.
  destruct (Z.lt_trichotomy V 0) as [N|[->|Q]].
  - rewrite sroundZ_neg by assumption.
    rewrite (roundZ_exact (- V) g); try lia.
    apply Z.mod_divide; [apply Z.pow_nonzero; lia|].
    apply Z.divide_opp_r. apply Z.mod_divide; [apply Z.pow_nonzero; lia|exact M].
  - reflexivity.
  - rewrite sroundZ_pos by assumption. apply (roundZ_exact V g); lia.
Qed.

(** ** The [abs] macro *)

Lemma abs_nan x : is_nan x = true -> is_nan (abs x) = true.
Proof. intros N. apply nan_is in N. subst x. reflexivity. Qed.

Lemma abs_infinity s : abs (S754_infinity s) = S754_infinity false.
Proof. destruct s; reflexivity. Qed.

Lemma abs_finite x :
  valid x = true -> finite x = true ->
  valid (abs x) = true /\ finite (abs x) = true
  /\ ulps (abs x) = Z.abs (ulps x).
Proof.
  intros V F. unfold abs.
  destruct (ulps_of_int_small 0 ltac:(lia)) as (V0 & F0 & U0).
  rewrite fgt_spec by assumption. rewrite U0. change (units 0) with 0.
  destruct (Z.ltb_spec 0 (ulps x)).
  - repeat split; try assumption. lia.
  - rewrite valid_opp, ulps_opp. repeat split; try assumption.
    + destruct x; try discriminate; reflexivity.
    + lia.
Qed.

(** ** One step of the ramp

    With [currentSpeed] within the bounds and a target that is not NaN, the
    value that [updateSpeed] stores is within the bounds and at most 80
    steps/s and one rounding ([2^-10]) away from the old one. *)

Lemma slack_facts :
  units 80 = 81920 * 2 ^ 139 /\ units MAX_SPEED = 20480000 * 2 ^ 139
  /\ 2 ^ 140 = 2 * 2 ^ 139 /\ 2 ^ 164 = 33554432 * 2 ^ 139
  /\ 2 ^ 276 = 2 ^ 137 * 2 ^ 139 /\ 2 ^ 24 = 16777216 /\ 0 < 2 ^ 139
  /\ 33554432 < 2 ^ 137.
Proof. repeat split. Qed.

Lemma fadd_spec x y :
  valid x = true -> valid y = true -> finite x = true -> finite y = true ->
  valid (fadd x y) = true /\ is_nan (fadd x y) = false
  /\ ((finite (fadd x y) = true /\ ulps (fadd x y) = sroundZ (ulps x + ulps y))
      \/ (fadd x y = S754_infinity (ulps x + ulps y <? 0)
          /\ 2 ^ 276 <= Z.abs (ulps x + ulps y))).
Proof. exact (SFadd_spec x y). Qed.

Lemma fsub_spec x y :
  valid x = true -> valid y = true -> finite x = true -> finite y = true ->
  valid (fsub x y) = true /\ is_nan (fsub x y) = false
  /\ ((finite (fsub x y) = true /\ ulps (fsub x y) = sroundZ (ulps x - ulps y))
      \/ (fsub x y = S754_infinity (ulps x - ulps y <? 0)
          /\ 2 ^ 276 <= Z.abs (ulps x - ulps y))).
Proof. exact (SFsub_spec x y). Qed.

Lemma finite_not_nan x : finite x = true -> is_nan x = false.
Proof. destruct x; try discriminate; reflexivity. Qed.

Lemma fsub_infinity s c :
  finite c = true -> fsub (S754_infinity s) c = S754_infinity s.
Proof. destruct c as [sc|sc| |sc mc ec]; try discriminate; reflexivity. Qed.

Lemma rampStep_bound c t :
  valid c = true -> valid t = true ->
  in_range c = true -> is_nan t = false ->
  valid (rampStep c t) = true /\ in_range (rampStep c t) = true
  /\ Z.abs (ulps (rampStep c t) - ulps c) <= units 80 + 2 ^ 139.
Proof.
  intros Vc Vt Rc Nt.
  apply in_range_spec in Rc; [|exact Vc]. destruct Rc as [Fc Bc].
  destruct (ulps_of_int_small 0 ltac:(lia)) as (V0 & F0 & U0).
  destruct (ulps_of_int_small 80 ltac:(lia)) as (Va & Fa & Ua).
  change (units 0) with 0 in U0.
  destruct slack_facts as (E80 & EM & E140 & E164 & E276 & E24 & Hh & H137).
  assert (Up : valid (fadd c (of_int 80)) = true
               /\ finite (fadd c (of_int 80)) = true
               /\ 2 * Z.abs (ulps (fadd c (of_int 80)) - (ulps c + units 80))
                  <= 2 ^ 140).
  { destruct (fadd_spec c (of_int 80) Vc Va Fc Fa) as (V & _ & [[F U]|[_ B]]).
    - repeat split; try assumption. rewrite U, Ua.
      apply (sroundZ_abs _ 164); lia.
    - rewrite Ua in B. lia. }
  assert (Down : valid (fsub c (of_int 80)) = true
               /\ finite (fsub c (of_int 80)) = true
               /\ 2 * Z.abs (ulps (fsub c (of_int 80)) - (ulps c - units 80))
                  <= 2 ^ 140).
  { destruct (fsub_spec c (of_int 80) Vc Va Fc Fa) as (V & _ & [[F U]|[_ B]]).
    - repeat split; try assumption. rewrite U, Ua.
      apply (sroundZ_abs _ 164); lia.
    - rewrite Ua in B. lia. }
  destruct Up as (Vu & Fu & Eu). destruct Down as (Vd & Fd & Ed).
  (* the value before clamping *)
  set (v := if fgt (abs (fsub t c)) (of_int 80) then
              if fgt (fsub t c) (of_int 0) then fadd c (of_int 80)
              else fsub c (of_int 80)
            else t).
  assert (Hv : valid v = true /\ finite v = true
               /\ Z.abs (Z.max 0 (Z.min (ulps v) (units MAX_SPEED)) - ulps c)
                  <= units 80 + 2 ^ 139).
  { destruct (float_kind t) as [N|[[s ->]|Ft]]; [congruence| |].
    - (* infinite target: always a step *)
      subst v. rewrite (fsub_infinity s c Fc), abs_infinity.
      replace (fgt (S754_infinity false) (of_int 80)) with true by reflexivity.
      destruct s.
      + replace (fgt (S754_infinity true) (of_int 0)) with false by reflexivity.
        split; [exact Vd|]. split; [exact Fd|]. lia.
      + replace (fgt (S754_infinity false) (of_int 0)) with true by reflexivity.
        split; [exact Vu|]. split; [exact Fu|]. lia.
    - destruct (fsub_spec t c Vt Vc Ft Fc) as (Vs & Ns & [[Fs Us]|[Is Bs]]).
      + destruct (abs_finite (fsub t c) Vs Fs) as (Vb & Fb & Ub).
        subst v. rewrite fgt_spec by assumption.
        rewrite (fgt_spec (fsub t c)) by assumption.
        rewrite Ub, Ua, U0, Us.
        pose proof (sroundZ_rel (ulps t - ulps c)) as Rel.
        pose proof (sroundZ_sign (ulps t - ulps c)) as [Sp Sn].
        destruct (Z.ltb_spec (units 80) (Z.abs (sroundZ (ulps t - ulps c)))).
        * destruct (Z.ltb_spec 0 (sroundZ (ulps t - ulps c))).
          -- split; [exact Vu|]. split; [exact Fu|]. lia.
          -- split; [exact Vd|]. split; [exact Fd|]. lia.
        * split; [exact Vt|]. split; [exact Ft|]. lia.
      + (* the difference overflows: a step *)
        subst v. rewrite Is, abs_infinity.
        replace (fgt (S754_infinity false) (of_int 80)) with true by reflexivity.
        destruct (ulps t - ulps c <? 0).
        * replace (fgt (S754_infinity true) (of_int 0)) with false by reflexivity.
          split; [exact Vd|]. split; [exact Fd|]. lia.
        * replace (fgt (S754_infinity false) (of_int 0)) with true by reflexivity.
          split; [exact Vu|]. split; [exact Fu|]. lia. }
  destruct Hv as (Vv & Fv & Bv).
  unfold rampStep. fold v.
  destruct (constrain_spec v Vv (finite_not_nan v Fv)) as (Vr & Fr & Br & Ur).
  split; [exact Vr|]. split; [apply in_range_spec; auto|].
  rewrite (Ur Fv). exact Bv.
Qed.

(** ** Handles and the motor-level view *)

(** Reduce the record projections, and nothing of the arithmetic. *)
Ltac fields :=
  cbn [getM setM modM motor1 motor2 boostConfig clock pins serial
       lastAccelUpdate lastSyncCheck lastBlink println delay set_clock
       set_pins digitalWrite set_boostConfig set_lastAccelUpdate
       set_lastSyncCheck set_lastBlink millis
       set_position set_currentSpeed set_targetSpeed set_isRunning
       set_direction set_timer set_boostActive set_boostStartTime
       set_boostSpeed set_normalSpeed
       pwmPin dirPin position currentSpeed targetSpeed isRunning direction
       timer name boostActive boostStartTime boostSpeed normalSpeed
       multiplier duration enabled negb andb other].

(** Read the result off [Some x = Some s'] without normalising [x]. *)
Ltac some_inv s s' :=
  let E := fresh "E" in
  intros E;
  apply (f_equal (fun o => match o with Some x => x | None => s end)) in E;
  subst s'.

Lemma getM_modM_same_b32 id f s : getM id (modM id f s) = f (getM id s).
Proof. destruct id; reflexivity. Qed.

Lemma getM_modM_other_b32 id f s : getM (other id) (modM id f s) = getM (other id) s.
Proof. destruct id; reflexivity. Qed.

Lemma updateSpeed_getM_b32 rate id s :
  getM id (updateSpeed rate id s) = rampM rate (boostConfig s) (clock s) (getM id s).
Proof.
  unfold updateSpeed, rampM, boostExpired, rampValue, millis.
  destruct s as [m1 m2 cfg now io out la ls lb].
  destruct id; fields;
    (destruct (isRunning _); fields; [|reflexivity]);
    (destruct (boostActive _ && _)%bool; fields;
      (destruct (fgt (abs _) _); [destruct (fgt _ (of_int 0))|]; reflexivity)).
Qed.

Lemma updateSpeed_other_b32 rate id s :
  getM (other id) (updateSpeed rate id s) = getM (other id) s.
Proof.
  unfold updateSpeed, millis.
  destruct s as [m1 m2 cfg now io out la ls lb].
  destruct id; fields;
    (destruct (isRunning _); fields; [|reflexivity]);
    (destruct (boostActive _ && _)%bool; fields;
      (destruct (fgt (abs _) _); [destruct (fgt _ (of_int 0))|]; reflexivity)).
Qed.

Lemma updateSpeed_frame_b32 rate id s :
  boostConfig (updateSpeed rate id s) = boostConfig s
  /\ clock (updateSpeed rate id s) = clock s
  /\ pins (updateSpeed rate id s) = pins s.
Proof.
  unfold updateSpeed, millis.
  destruct s as [m1 m2 cfg now io out la ls lb].
  destruct id; fields;
    (destruct (isRunning _); fields; [|repeat split; reflexivity]);
    (destruct (boostActive _ && _)%bool; fields;
      (destruct (fgt (abs _) _); [destruct (fgt _ (of_int 0))|];
       repeat split; reflexivity)).
Qed.

Lemma rampValue_firmware m :
  constrain (rampValue ACCEL_RATE m) (of_int 0) (of_int MAX_SPEED)
  = rampStep (currentSpeed m) (targetSpeed m).
Proof. reflexivity. Qed.

Lemma rampM_stopped_b32 rate cfg now m :
  isRunning m = false -> currentSpeed (rampM rate cfg now m) = of_int 0.
Proof. intros H. unfold rampM. rewrite H. reflexivity. Qed.

Lemma rampM_running cfg now m :
  isRunning m = true ->
  rampM ACCEL_RATE cfg now m
  = set_currentSpeed
      (rampStep (currentSpeed m) (targetSpeed (expire cfg now m)))
      (expire cfg now m).
Proof.
  intros H. unfold rampM, expire. rewrite H. cbn [negb].
  rewrite rampValue_firmware. destruct (boostExpired cfg now m); reflexivity.
Qed.

(** ** What holds in every reachable state *)

Lemma valid_of_int_0 : valid (of_int 0) = true.
Proof. reflexivity. Qed.

Lemma in_range_0 : in_range (of_int 0) = true.
Proof. reflexivity. Qed.

Lemma binary_round_valid s m e : valid (binary_round 24 128 s m e) = true.
Proof.
  unfold binary_round.
  pose proof (shl_align_spec m e (fexp 24 128 (Zpos (digits2_pos m) + e))) as A.
  destruct (shl_align m e _) as [mz ez]. destruct A as [Hez Hmz].
  assert (Hd : Zpos (digits2_pos mz) + ez = Zpos (digits2_pos m) + e).
  { rewrite (shift_digits m (e - ez)) by (lia || assumption). lia. }
  assert (HE : ez <= fexp 24 128 (Zpos (digits2_pos mz) + ez))
    by (rewrite Hd; lia).
  rewrite aux_spec by exact HE.
  destruct (rounded_mantissa mz ez HE) as (A & B & C).
  apply round_result_valid; assumption.
Qed.

Lemma binary_normalize_valid z e sz :
  valid (binary_normalize 24 128 z e sz) = true.
Proof.
  destruct z; cbn [binary_normalize]; [reflexivity| |]; apply binary_round_valid.
Qed.

Lemma valid_float_of_double x : valid (float_of_double x) = true.
Proof.
  destruct x as [s|s| |s m e]; try reflexivity.
  apply binary_normalize_valid.
Qed.

Lemma valid_accelStep rate : valid (accelStep rate) = true.
Proof. apply valid_float_of_double. Qed.

Lemma valid_fadd x y : valid x = true -> valid y = true -> valid (fadd x y) = true.
Proof. exact (SFadd_valid x y). Qed.

Lemma valid_fsub x y : valid x = true -> valid y = true -> valid (fsub x y) = true.
Proof. exact (SFsub_valid x y). Qed.

Lemma valid_fmul x y : valid x = true -> valid y = true -> valid (fmul x y) = true.
Proof. exact (SFmul_valid x y). Qed.

Lemma valid_rampValue rate m :
  valid (currentSpeed m) = true -> valid (targetSpeed m) = true ->
  valid (rampValue rate m) = true.
Proof.
  intros Vc Vt. unfold rampValue. pose proof (valid_accelStep rate).
  destruct (fgt (abs _) _); [destruct (fgt _ (of_int 0))|];
    auto using valid_fadd, valid_fsub.
Qed.

Lemma motor_wf_currentSpeed v m :
  motor_wf m -> valid v = true -> is_nan v = true \/ in_range v = true ->
  motor_wf (set_currentSpeed v m).
Proof. intros (A & B & C & D & E) V R. repeat split; assumption. Qed.

Lemma motor_wf_targetSpeed v m :
  motor_wf m -> valid v = true -> motor_wf (set_targetSpeed v m).
Proof. intros (A & B & C & D & E) V. repeat split; assumption. Qed.

Lemma rampM_wf rate cfg now m : motor_wf m -> motor_wf (rampM rate cfg now m).
Proof.
  intros W. unfold rampM. destruct (isRunning m); cbn [negb].
  - assert (W' : motor_wf (if boostExpired cfg now m
                           then set_targetSpeed (normalSpeed m) (set_boostActive false m)
                           else m)).
    { destruct (boostExpired cfg now m); [|exact W].
      destruct W as (A & B & C & D & E). repeat split; assumption. }
    set (m' := if boostExpired cfg now m then _ else m) in *.
    assert (V : valid (rampValue rate m') = true)
      by (apply valid_rampValue; apply W').
    apply motor_wf_currentSpeed; [exact W'|apply constrain_valid, V|].
    apply constrain_in_range, V.
  - destruct W as (A & B & C & D & E). repeat split; try assumption.
    right. exact in_range_0.
Qed.

Lemma state_wf_getM s :
  state_wf s
  <-> (forall id, motor_wf (getM id s)) /\ valid (multiplier (boostConfig s)) = true.
Proof.
  unfold state_wf. split.
  - intros (A & B & C). split; [intros []; assumption|assumption].
  - intros (A & C). split; [apply (A M1)|]. split; [apply (A M2)|assumption].
Qed.

(** A step that changes one motor, and nothing of the configuration. *)
Lemma state_wf_step id s s' :
  state_wf s -> motor_wf (getM id s') ->
  getM (other id) s' = getM (other id) s ->
  boostConfig s' = boostConfig s -> state_wf s'.
Proof.
  intros W Wm O C. apply state_wf_getM in W. destruct W as [Wa Wc].
  apply state_wf_getM. rewrite C. split; [|exact Wc].
  intros id'. destruct id, id'; cbn [other] in *; try exact Wm;
    rewrite O; apply Wa.
Qed.

Lemma state_wf_modM id f s :
  state_wf s -> motor_wf (f (getM id s)) -> state_wf (modM id f s).
Proof.
  intros W Wm. apply (state_wf_step id s _ W).
  - rewrite getM_modM_same_b32. exact Wm.
  - apply getM_modM_other_b32.
  - destruct id; reflexivity.
Qed.

(** A step that leaves both motors and the configuration alone. *)
Lemma state_wf_quiet s s' :
  state_wf s -> motor1 s' = motor1 s -> motor2 s' = motor2 s ->
  boostConfig s' = boostConfig s -> state_wf s'.
Proof. unfold state_wf. intros W -> -> ->. exact W. Qed.

Lemma state_wf_kept id f s :
  speeds_kept f -> state_wf s -> state_wf (modM id f s).
Proof.
  intros K W. apply state_wf_modM; [exact W|].
  apply state_wf_getM in W. destruct W as [Wa _]. specialize (Wa id).
  destruct (K (getM id s)) as (A & B & C & D).
  unfold motor_wf, speed_ok in *. rewrite A, B, C, D. exact Wa.
Qed.

Lemma kept_isRunning b : speeds_kept (set_isRunning b).
Proof. intros m. repeat split. Qed.
Lemma kept_timer t : speeds_kept (set_timer t).
Proof. intros m. repeat split. Qed.
Lemma kept_direction d : speeds_kept (set_direction d).
Proof. intros m. repeat split. Qed.
Lemma kept_position p : speeds_kept (set_position p).
Proof. intros m. repeat split. Qed.
Lemma kept_boostActive b : speeds_kept (set_boostActive b).
Proof. intros m. repeat split. Qed.
Lemma kept_boostStartTime t : speeds_kept (set_boostStartTime t).
Proof. intros m. repeat split. Qed.

Lemma updateSpeed_wf rate id s : state_wf s -> state_wf (updateSpeed rate id s).
Proof.
  intros W. apply (state_wf_step id s _ W).
  - rewrite updateSpeed_getM_b32. apply rampM_wf.
    apply state_wf_getM in W. apply W.
  - apply updateSpeed_other_b32.
  - apply updateSpeed_frame_b32.
Qed.

Lemma updateTimer_wf id s : state_wf s -> state_wf (updateTimer id s).
Proof.
  intros W. unfold updateTimer. destruct (_ && _)%bool;
    repeat apply state_wf_kept; auto using kept_timer.
Qed.

Lemma updateTimers_wf s : state_wf s -> state_wf (updateTimers s).
Proof. intros W. unfold updateTimers. auto using updateTimer_wf. Qed.

Lemma target_wf id v s :
  valid v = true -> state_wf s -> state_wf (modM id (set_targetSpeed v) s).
Proof.
  intros V W. apply state_wf_modM; [exact W|].
  apply motor_wf_targetSpeed; [|exact V]. apply state_wf_getM in W. apply W.
Qed.

Lemma setSpeed_wf id v s :
  valid v = true -> state_wf s -> state_wf (setSpeed id v s).
Proof.
  intros V W. unfold setSpeed. cbv zeta.
  assert (W1 : state_wf (modM id (set_targetSpeed
                 (constrain v (of_int 0) (of_int MAX_SPEED))) s))
    by (apply target_wf; [apply constrain_valid, V|exact W]).
  destruct (_ && _)%bool; [|destruct (feq _ _)];
    try (apply state_wf_kept; [apply kept_isRunning|]); exact W1.
Qed.

Lemma applyBoost_wf id v s :
  valid v = true -> state_wf s -> state_wf (applyBoost id v s).
Proof.
  intros V W. unfold applyBoost.
  destruct (negb (enabled (boostConfig s))); [apply setSpeed_wf; assumption|].
  cbv zeta.
  set (b := if fgt (fmul v (multiplier (boostConfig s))) (of_int MAX_SPEED)
            then of_int MAX_SPEED else fmul v (multiplier (boostConfig s))).
  assert (Vb : valid b = true).
  { subst b. destruct (fgt _ _); [reflexivity|].
    apply valid_fmul; [exact V|]. apply W. }
  apply (state_wf_quiet
           (modM id (set_targetSpeed b)
              (modM id (set_boostStartTime (millis s))
                 (modM id (set_boostActive true)
                    (modM id (set_boostSpeed b)
                       (modM id (set_normalSpeed v) s))))));
    [|destruct id; reflexivity ..].
  apply target_wf; [exact Vb|].
  apply state_wf_kept; [apply kept_boostStartTime|].
  apply state_wf_kept; [apply kept_boostActive|].
  apply state_wf_modM.
  - apply state_wf_modM; [exact W|].
    apply state_wf_getM in W. destruct W as [Wa _].
    destruct (Wa id) as (A & B & C & D & E). repeat split; assumption.
  - rewrite getM_modM_same_b32.
    apply state_wf_getM in W. destruct W as [Wa _].
    destruct (Wa id) as (A & B & C & D & E). repeat split; assumption.
Qed.

Lemma println_wf msg s : state_wf s -> state_wf (println msg s).
Proof. intros W. apply (state_wf_quiet s); auto. Qed.

Lemma delay_wf d s : state_wf s -> state_wf (delay d s).
Proof. intros W. apply (state_wf_quiet s); auto. Qed.

Lemma digitalWrite_wf p v s : state_wf s -> state_wf (digitalWrite p v s).
Proof. intros W. apply (state_wf_quiet s); auto. Qed.

Lemma zero_wf id s : state_wf s -> state_wf (modM id (set_currentSpeed (of_int 0)) s).
Proof.
  intros W. apply state_wf_modM; [exact W|].
  apply motor_wf_currentSpeed; [|reflexivity|right; reflexivity].
  apply state_wf_getM in W. apply W.
Qed.

Lemma waitBelow_wf rate limit fuel id : forall s s',
  state_wf s -> waitBelow rate limit fuel id s = Some s' -> state_wf s'.
Proof.
  induction fuel as [|fuel IH]; intros s s' W; cbn [waitBelow];
    destruct (fgt _ limit); try discriminate; try (intros [= <-]; assumption).
  apply IH. apply delay_wf, updateSpeed_wf, W.
Qed.

Lemma setDirection_wf rate fuel id dir s s' :
  state_wf s -> setDirection rate fuel id dir s = Some s' -> state_wf s'.
Proof.
  intros W. unfold setDirection. cbv zeta.
  destruct (_ && _)%bool.
  - destruct (waitBelow _ _ _ _ _) as [s1|] eqn:E; cbn [bind]; [|discriminate].
    some_inv s s'.
    apply waitBelow_wf in E;
      [|apply target_wf; [reflexivity|apply println_wf, W]].
    apply target_wf.
    + apply state_wf_getM in W. destruct W as [Wa _].
      destruct id; [apply (Wa M1)|apply (Wa M2)].
    + unfold writeDirPin. apply digitalWrite_wf.
      apply state_wf_kept; [apply kept_direction|exact E].
  - some_inv s s'. unfold writeDirPin. apply digitalWrite_wf.
    apply state_wf_kept; [apply kept_direction|exact W].
Qed.

Lemma stopMotor_wf rate fuel id s s' :
  state_wf s -> stopMotor rate fuel id s = Some s' -> state_wf s'.
Proof.
  intros W. unfold stopMotor.
  destruct (waitBelow _ _ _ _ _) as [s1|] eqn:E; cbn [bind]; [|discriminate].
  some_inv s s'.
  apply waitBelow_wf in E; [|apply target_wf; [reflexivity|exact W]].
  apply zero_wf. apply state_wf_kept; [apply kept_timer|].
  apply state_wf_kept; [apply kept_isRunning|exact E].
Qed.

Lemma estopLoop_wf rate t0 fuel : forall s s',
  state_wf s -> estopLoop rate t0 fuel s = Some s' -> state_wf s'.
Proof.
  induction fuel as [|fuel IH]; intros s s' W; cbn [estopLoop];
    destruct (estopCond t0 s); try discriminate; try (intros [= <-]; assumption).
  apply IH. unfold estopBody. apply delay_wf. auto using updateSpeed_wf.
Qed.

Lemma estopForce_wf s : state_wf s -> state_wf (estopForce s).
Proof.
  intros W. unfold estopForce.
  apply println_wf. do 2 apply digitalWrite_wf. do 2 apply zero_wf.
  do 2 (apply state_wf_kept; [apply kept_isRunning|]).
  do 2 (apply state_wf_kept; [apply kept_timer|]). exact W.
Qed.

Lemma estopStart_wf s : state_wf s -> state_wf (estopStart s).
Proof.
  intros W. unfold estopStart.
  do 2 (apply target_wf; [reflexivity|]). apply println_wf, W.
Qed.

Lemma emergencyStop_wf rate fuel s s' :
  state_wf s -> emergencyStop rate fuel s = Some s' -> state_wf s'.
Proof.
  intros W. unfold emergencyStop.
  destruct (estopLoop _ _ _ _) as [s1|] eqn:E; cbn [bind]; [|discriminate].
  some_inv s s'. apply estopForce_wf.
  apply (estopLoop_wf _ _ _ _ _ (estopStart_wf s W) E).
Qed.

Lemma checkSync_wf s : state_wf s -> state_wf (checkSync s).
Proof.
  intros W. unfold checkSync. destruct (_ && _)%bool; [apply println_wf|]; exact W.
Qed.

Lemma onTarget_wf t f s :
  (forall id s, state_wf s -> state_wf (f id s)) ->
  state_wf s -> state_wf (onTarget t f s).
Proof. intros Hf W. destruct t; cbn; auto. Qed.

Lemma onTargetOpt_wf t f s s' :
  (forall id s s', state_wf s -> f id s = Some s' -> state_wf s') ->
  state_wf s -> onTargetOpt t f s = Some s' -> state_wf s'.
Proof.
  intros Hf W. destruct t; cbn [onTargetOpt].
  - destruct (f M1 s) as [s1|] eqn:E; cbn [bind]; [|discriminate].
    intros E2. eapply Hf; [|exact E2]. eapply Hf; [|exact E]. exact W.
  - apply Hf, W.
Qed.

Lemma turn_wf rate fuel d1 d2 speedFn speed s s' :
  (forall id s, state_wf s -> state_wf (speedFn id speed s)) ->
  state_wf s -> turn rate fuel d1 d2 speedFn speed s = Some s' -> state_wf s'.
Proof.
  intros Hf W. unfold turn.
  destruct (setDirection rate fuel M1 d1 s) as [s1|] eqn:E1; cbn [bind];
    [|discriminate].
  destruct (setDirection rate fuel M2 d2 s1) as [s2|] eqn:E2; cbn [bind];
    [|discriminate].
  some_inv s s'.
  do 2 (apply state_wf_kept; [apply kept_isRunning|]). do 2 apply Hf.
  apply (setDirection_wf _ _ _ _ _ _ (setDirection_wf _ _ _ _ _ _ W E1) E2).
Qed.

Lemma processCommand_wf rate fuel cmd s s' :
  valid_command cmd = true ->
  state_wf s -> processCommand rate fuel cmd s = Some s' -> state_wf s'.
Proof.
  intros V W.
  destruct cmd as [t v|t|t|t| |t| |t|d v|d v| |mu du en| | ];
    cbn [processCommand valid_command] in *;
    try (destruct d);
    repeat match goal with
    | |- context [bind ?x _] =>
        let E := fresh "E" in
        destruct x as [?s1|] eqn:E; cbn [bind]; [|discriminate]
    end;
    intros E'; apply (f_equal (fun o => match o with Some x => x | None => s end)) in E';
    subst s'; try apply println_wf; try exact W.
  - apply onTarget_wf; [|exact W]. intros; apply setSpeed_wf; assumption.
  - eapply onTargetOpt_wf; [|exact W|eassumption].
    intros id s0 s0'. apply setDirection_wf.
  - eapply onTargetOpt_wf; [|exact W|eassumption].
    intros id s0 s0'. apply setDirection_wf.
  - eapply onTargetOpt_wf; [|exact W|eassumption].
    intros id s0 s0'. apply stopMotor_wf.
  - eapply emergencyStop_wf; eassumption.
  - apply onTarget_wf; [|exact W].
    intros; apply state_wf_kept; [apply kept_isRunning|assumption].
  - eapply onTargetOpt_wf; [| |eassumption].
    + intros id s0 s0'. apply stopMotor_wf.
    + apply onTarget_wf; [|exact W].
      intros; apply state_wf_kept; [apply kept_position|assumption].
  - eapply turn_wf; [|exact W|eassumption]. intros; apply setSpeed_wf; assumption.
  - eapply turn_wf; [|exact W|eassumption]. intros; apply setSpeed_wf; assumption.
  - eapply turn_wf; [|exact W|eassumption]. intros; apply applyBoost_wf; assumption.
  - eapply turn_wf; [|exact W|eassumption]. intros; apply applyBoost_wf; assumption.
  - eapply turn_wf; [|exact W|eassumption]. intros; apply applyBoost_wf; assumption.
  - eapply turn_wf; [|exact W|eassumption]. intros; apply applyBoost_wf; assumption.
  - destruct W as (A & B & C). split; [exact A|split; [exact B|exact V]].
Qed.

Lemma stamp_wf s :
  state_wf s ->
  (forall t, state_wf (set_lastAccelUpdate t s))
  /\ (forall t, state_wf (set_lastSyncCheck t s))
  /\ (forall t, state_wf (set_lastBlink t s)).
Proof. intros W. split; [|split]; intros t0; exact W. Qed.

Lemma tick_wf rate s : state_wf s -> state_wf (tick rate s).
Proof.
  intros W. unfold tick. cbv zeta.
  apply (proj1 (stamp_wf _ (updateTimers_wf _
           (updateSpeed_wf rate M2 _ (updateSpeed_wf rate M1 s W))))).
Qed.

Lemma loop_wf rate fuel input s s' :
  match input with Some cmd => valid_command cmd = true | None => True end ->
  state_wf s -> loop rate fuel input s = Some s' -> state_wf s'.
Proof.
  intros V W. unfold loop.
  destruct (match input with Some _ => _ | None => _ end) as [s1|] eqn:E;
    cbn [bind]; [|discriminate].
  assert (W1 : state_wf s1).
  { destruct input as [cmd|].
    - eapply processCommand_wf; eassumption.
    - injection E as <-. exact W. }
  some_inv s s'. cbv zeta.
  set (X := if accelUpdateInterval <=? wrap32 (millis s1 - lastAccelUpdate s1)
            then tick rate s1 else s1).
  assert (HX : state_wf X)
    by (subst X; destruct (_ <=? _); [apply tick_wf|]; exact W1).
  clearbody X.
  set (Y := if SYNC_CHECK_INTERVAL <=? wrap32 (millis X - lastSyncCheck X)
            then set_lastSyncCheck (millis X) (checkSync X) else X).
  assert (HY : state_wf Y).
  { subst Y. destruct (_ <=? _); [|exact HX].
    apply (proj1 (proj2 (stamp_wf _ (checkSync_wf X HX)))). }
  clearbody Y.
  destruct (1000 <? _); [|exact HY].
  apply (proj2 (proj2 (stamp_wf _ (digitalWrite_wf _ _ Y HY)))).
Qed.

Lemma init_wf : state_wf init.
Proof. repeat split; try reflexivity; right; reflexivity. Qed.

Lemma stepISR_wf id s : state_wf s -> state_wf (stepISR id s).
Proof.
  intros W. unfold stepISR. cbv zeta.
  apply state_wf_kept; [intros m; repeat split|].
  do 2 apply digitalWrite_wf. exact W.
Qed.

Theorem reachable_wf s : reachable s -> state_wf s.
Proof.
  induction 1.
  - exact init_wf.
  - eapply loop_wf; eassumption.
  - eapply processCommand_wf; eassumption.
  - apply tick_wf; assumption.
  - apply updateSpeed_wf; assumption.
  - apply updateTimers_wf; assumption.
  - apply setSpeed_wf; assumption.
  - apply applyBoost_wf; assumption.
  - eapply setDirection_wf; eassumption.
  - eapply stopMotor_wf; eassumption.
  - eapply emergencyStop_wf; eassumption.
  - apply checkSync_wf; assumption.
  - apply target_wf; assumption.
  - apply state_wf_kept; [apply kept_isRunning|assumption].
  - apply state_wf_kept; [apply kept_position|assumption].
  - apply stepISR_wf; assumption.
  - apply delay_wf; assumption.
Qed.

(** ** Values as rationals *)

Lemma F2Q_ulps x :
  valid x = true -> (F2Q x == inject_Z (ulps x) / inject_Z (2 ^ 149))%Q.
Proof.
  intros V. destruct x as [s|s| |s m e]; try reflexivity.
  destruct (valid_digits _ _ _ V) as (He & _).
  unfold F2Q, ulps.
  replace e with ((e + 149) + (-149)) at 1 by lia.
  rewrite Qpower_plus by (intro H; discriminate H).
  rewrite <- (Zpower_Qpower 2 (e + 149)) by lia.
  change (inject_Z 2 ^ (-149))%Q with (/ inject_Z (2 ^ 149))%Q.
  unfold Qdiv. rewrite Qmult_assoc. apply Qmult_comp; [|reflexivity].
  rewrite <- inject_Z_mult. destruct s; cbn [cond_Zopp].
  - replace (- Zpos m * 2 ^ (e + 149)) with (- (Zpos m * 2 ^ (e + 149))) by lia.
    reflexivity.
  - reflexivity.
Qed.

Lemma unit_pos : (0 < inject_Z (2 ^ 149))%Q.
Proof. reflexivity. Qed.

Lemma ulps_le_Q a b :
  valid a = true -> valid b = true -> ulps a <= ulps b -> (F2Q a <= F2Q b)%Q.
Proof.
  intros Va Vb H. rewrite (F2Q_ulps a Va), (F2Q_ulps b Vb).
  unfold Qdiv. apply Qmult_le_compat_r.
  - rewrite <- Zle_Qle. exact H.
  - apply Qlt_le_weak, Qinv_lt_0_compat, unit_pos.
Qed.

(** A distance in units, as a distance between the values. *)
Lemma ulps_diff_Q a b K :
  valid a = true -> valid b = true -> ulps a - ulps b <= K ->
  (F2Q a - F2Q b <= inject_Z K / inject_Z (2 ^ 149))%Q.
Proof.
  intros Va Vb H. rewrite (F2Q_ulps a Va), (F2Q_ulps b Vb).
  setoid_replace (inject_Z (ulps a) / inject_Z (2 ^ 149)
                  - inject_Z (ulps b) / inject_Z (2 ^ 149))%Q
    with (inject_Z (ulps a - ulps b) / inject_Z (2 ^ 149))%Q.
  - unfold Qdiv. apply Qmult_le_compat_r.
    + rewrite <- Zle_Qle. exact H.
    + apply Qlt_le_weak, Qinv_lt_0_compat, unit_pos.
  - unfold Z.sub. rewrite inject_Z_plus, inject_Z_opp. unfold Qdiv. ring.
Qed.

Lemma ulps_close_Q a b K :
  valid a = true -> valid b = true -> Z.abs (ulps a - ulps b) <= K ->
  (Qabs (F2Q a - F2Q b) <= inject_Z K / inject_Z (2 ^ 149))%Q.
Proof.
  intros Va Vb H. apply Qabs_Qle_condition. split.
  - pose proof (ulps_diff_Q b a K Vb Va ltac:(lia)) as D. lra.
  - apply ulps_diff_Q; (assumption || lia).
Qed.

Lemma slack_Q :
  (inject_Z (units 80 + 2 ^ 139) / inject_Z (2 ^ 149) == 80 + (1 # 1024))%Q.
Proof. vm_compute. reflexivity. Qed.

Lemma units_Q n : (inject_Z (units n) / inject_Z (2 ^ 149) == inject_Z n)%Q.
Proof.
  unfold units. rewrite inject_Z_mult. unfold Qdiv.
  rewrite <- Qmult_assoc, Qmult_inv_r, Qmult_1_r; [reflexivity|].
  intro H. discriminate H.
Qed.

Lemma F2Q_of_int n : 0 <= n <= 32767 -> (F2Q (of_int n) == inject_Z n)%Q.
Proof.
  intros H. destruct (ulps_of_int_small n H) as (V & _ & U).
  rewrite (F2Q_ulps _ V), U. apply units_Q.
Qed.

Lemma in_range_Q c :
  valid c = true -> in_range c = true -> (0 <= F2Q c <= 20000)%Q.
Proof.
  intros V R. apply in_range_spec in R; [|exact V]. destruct R as [F [L U]].
  destruct (ulps_of_int_small 0 ltac:(lia)) as (V0 & _ & U0).
  destruct (ulps_of_int_small MAX_SPEED ltac:(unfold MAX_SPEED; lia)) as (VM & _ & UM).
  split.
  - rewrite <- (F2Q_of_int 0) by lia. apply ulps_le_Q; [exact V0|exact V|].
    rewrite U0. exact L.
  - change 20000%Q with (inject_Z MAX_SPEED).
    rewrite <- (F2Q_of_int MAX_SPEED) by (unfold MAX_SPEED; lia).
    apply ulps_le_Q; [exact V|exact VM|]. rewrite UM. exact U.
Qed.

(** ** The order of floats, without assumptions on the representation *)

Lemma SFcompare_antisym x y :
  SFcompare y x = match SFcompare x y with
                  | Some c => Some (CompOpp c)
                  | None => None
                  end.
Proof.
  destruct x as [sx|sx| |sx mx ex], y as [sy|sy| |sy my ey]; cbn [SFcompare];
    try reflexivity; try (destruct sx; reflexivity);
    try (destruct sy; reflexivity); try (destruct sx, sy; reflexivity).
  destruct sx, sy; try reflexivity; f_equal;
    rewrite (Z.compare_antisym ex ey);
    destruct (ex ?= ey); cbn [CompOpp]; try reflexivity;
    rewrite (Pos.compare_cont_antisym mx my Eq); reflexivity.
Qed.

Lemma SFcompare_nan x y :
  SFcompare x y = None <-> is_nan x = true \/ is_nan y = true.
Proof.
  destruct x as [sx|sx| |sx mx ex], y as [sy|sy| |sy my ey]; cbn;
    split; try discriminate; auto; intros [H|H]; discriminate.
Qed.

Lemma fle_refl x : is_nan x = false -> fle x x = true.
Proof.
  intros N. unfold fle, SFleb.
  destruct x as [s|s| |s m e]; try discriminate; cbn [SFcompare];
    try (destruct s; reflexivity).
  destruct s; rewrite Z.compare_refl, Pos.compare_cont_refl; reflexivity.
Qed.

(** [!(a > b)] is [a <= b] unless one of them is NaN. *)
Lemma not_fgt_fle a b :
  is_nan a = false -> is_nan b = false -> fgt a b = false -> fle a b = true.
Proof.
  intros Na Nb. unfold fgt, fle, SFltb, SFleb.
  rewrite (SFcompare_antisym a b).
  destruct (SFcompare a b) as [[]|] eqn:E; cbn [CompOpp]; try reflexivity;
    try discriminate.
  apply SFcompare_nan in E. destruct E; congruence.
Qed.

Lemma fgt_fle a b : fgt a b = true -> fle b a = true.
Proof.
  unfold fgt, fle, SFltb, SFleb. destruct (SFcompare b a) as [[]|]; auto.
Qed.



(** ** Schedules *)

Lemma run_reachable_b32 fuel : forall sched s s',
  well_formed sched = true -> reachable s ->
  run fuel sched s = Some s' -> reachable s'.
Proof.
  induction sched as [|[d input] rest IH]; intros s s' Hw Hr; cbn [run].
  - intros [= <-]. exact Hr.
  - cbn [well_formed forallb fst snd] in Hw.
    apply andb_true_iff in Hw. destruct Hw as [Hd Hrest].
    apply andb_true_iff in Hd. destruct Hd as [Hd Hc]. apply Z.leb_le in Hd.
    destruct (loop ACCEL_RATE fuel input (delay d s)) as [s1|] eqn:E;
      cbn [bind]; [|discriminate].
    apply (IH s1 s' Hrest).
    eapply reach_loop; [apply reach_delay; [exact Hr|exact Hd]| |exact E].
    destruct input; [exact Hc|exact I].
Qed.

Lemma after_reachable_b32 sched : well_formed sched = true -> reachable (after sched).
Proof.
  intros Hw. unfold after.
  destruct (run 0 sched init) as [s|] eqn:E; [|apply reach_init].
  apply (run_reachable_b32 0 sched init s Hw reach_init E).
Qed.

Lemma s_slow_reachable : reachable s_slow.
Proof. apply after_reachable_b32. vm_compute. reflexivity. Qed.

Lemma s_nan_reachable : reachable s_nan.
Proof. apply after_reachable_b32. vm_compute. reflexivity. Qed.

Lemma s_jump_reachable : reachable s_jump.
Proof. apply after_reachable_b32. vm_compute. reflexivity. Qed.

Lemma s_coast_reachable_b32 : reachable s_coast.
Proof. apply after_reachable_b32. vm_compute. reflexivity. Qed.

Lemma s_cruise_reachable_b32 : reachable s_cruise.
Proof. apply after_reachable_b32. vm_compute. reflexivity. Qed.

Lemma s_fraction_reachable : reachable s_fraction.
Proof. apply after_reachable_b32. vm_compute. reflexivity. Qed.

Lemma s_boosted_reachable_b32 : reachable s_boosted.
Proof. apply after_reachable_b32. vm_compute. reflexivity. Qed.

Lemma s_parked_reachable_b32 : reachable s_parked.
Proof. apply after_reachable_b32. vm_compute. reflexivity. Qed.

Lemma s_binade_reachable : reachable s_binade.
Proof. apply after_reachable_b32. vm_compute. reflexivity. Qed.

Lemma s_nan_one_reachable : reachable s_nan_one.
Proof. apply after_reachable_b32. vm_compute. reflexivity. Qed.

Lemma s_nan_boost_reachable : reachable s_nan_boost.
Proof. apply after_reachable_b32. vm_compute. reflexivity. Qed.

(** Settle a conjunction of closed facts by evaluating each. *)
Ltac evaluate32 :=
  cbv zeta;
  repeat match goal with |- _ /\ _ => split end;
  vm_compute; reflexivity.

(** ** C1: speed bounds *)

Lemma reachable_speed_nan_or_ok s id :
  reachable s ->
  is_nan (currentSpeed (getM id s)) = true
  \/ in_range (currentSpeed (getM id s)) = true.
Proof.
  intros H. apply reachable_wf in H. apply state_wf_getM in H.
  destruct H as [Wa _]. apply (Wa id).
Qed.

(** C1.  The bound [0 <= currentSpeed <= MAX_SPEED] does not hold in every
    reachable state: [constrain] lets NaN through (both of its comparisons
    are false), and the snap branch of [updateSpeed] copies a NaN target.
    With both motors cruising at 400 steps/s, [SPEED:NAN] and one tick leave
    [currentSpeed] NaN, outside the bounds by the board's own tests, and the
    next [SPEED:20000] is reached in a single tick; a boost multiplier of
    infinity with [BOOST:FORWARD:0] does the same through [0 * inf].  NaN is
    the only way out of the bounds. *)
Theorem C1_nan_passes_constrain :
  (reachable s_slow
   /\ in_range (currentSpeed (getM M1 s_slow)) = true
   /\ (F2Q (currentSpeed (getM M1 s_slow)) == 400)%Q)
  /\ (reachable s_nan
      /\ isRunning (getM M1 s_nan) = true
      /\ currentSpeed (getM M1 s_nan) = S754_nan
      /\ fle (of_int 0) (currentSpeed (getM M1 s_nan)) = false
      /\ fle (currentSpeed (getM M1 s_nan)) (of_int MAX_SPEED) = false
      /\ in_range (currentSpeed (getM M1 s_nan)) = false)
  /\ constrain S754_nan (of_int 0) (of_int MAX_SPEED) = S754_nan
  /\ (reachable s_jump
      /\ currentSpeed (getM M1 s_jump) = of_int MAX_SPEED)
  /\ (reachable s_nan_boost
      /\ currentSpeed (getM M1 s_nan_boost) = S754_nan)
  /\ (forall s id, reachable s ->
        is_nan (currentSpeed (getM id s)) = true
        \/ in_range (currentSpeed (getM id s)) = true).
Proof.
  split; [split; [exact s_slow_reachable|evaluate32]|].
  split; [split; [exact s_nan_reachable|evaluate32]|].
  split; [reflexivity|].
  split; [split; [exact s_jump_reachable|evaluate32]|].
  split; [split; [exact s_nan_boost_reachable|evaluate32]|].
  intros s id. apply reachable_speed_nan_or_ok.
Qed.

(** ** C2: per-tick ramp rate *)

Lemma expire_wf cfg now m : motor_wf m -> motor_wf (expire cfg now m).
Proof.
  intros W. unfold expire. destruct (boostExpired cfg now m); [|exact W].
  destruct W as (A & B & C & D & E). repeat split; assumption.
Qed.

Lemma expire_target cfg now m :
  numeric m -> is_nan (targetSpeed (expire cfg now m)) = false.
Proof.
  intros (A & B & C). unfold expire.
  destruct (boostExpired cfg now m); assumption.
Qed.

Lemma expire_currentSpeed cfg now m :
  currentSpeed (expire cfg now m) = currentSpeed m.
Proof. unfold expire. destruct (boostExpired cfg now m); reflexivity. Qed.

Lemma rampM_step_bound_b32 cfg now m :
  motor_wf m -> isRunning m = true -> numeric m ->
  valid (currentSpeed (rampM ACCEL_RATE cfg now m)) = true
  /\ in_range (currentSpeed (rampM ACCEL_RATE cfg now m)) = true
  /\ Z.abs (ulps (currentSpeed (rampM ACCEL_RATE cfg now m))
            - ulps (currentSpeed m)) <= units 80 + 2 ^ 139.
Proof.
  intros W Hr Hn. rewrite (rampM_running cfg now m Hr).
  cbn [currentSpeed set_currentSpeed].
  pose proof (expire_wf cfg now m W) as (_ & Vt & _).
  destruct W as (Vc & _ & _ & _ & [N|R]).
  - destruct Hn as (Nc & _). congruence.
  - apply rampStep_bound; try assumption.
    apply expire_target, Hn.
Qed.

(** C2, as stated, fails.  In the reachable state [s_coast] motor 1 is not
    running and still at 5000 steps/s; one call of [updateSpeed] takes it to
    0.  In the reachable state [s_fraction] motor 1 is running at
    [0.1f + 80]; one call of [updateSpeed] adds 80 in binary32, and the sum
    rounds up: the speed changes by [80 + 2^-17].  In [s_binade] the sum
    rounds up by a whole [2^-10], the most a sum below 32768 can.  And with
    [currentSpeed] NaN (state [s_nan], then [SPEED:20000]) a running motor
    takes the new target in one call. *)
Lemma C2_counterexample :
  (reachable s_coast
   /\ isRunning (getM M1 s_coast) = false
   /\ (F2Q (currentSpeed (getM M1 s_coast)) == 5000)%Q
   /\ (F2Q (currentSpeed (getM M1 (updateSpeed ACCEL_RATE M1 s_coast))) == 0)%Q
   /\ ~ (Qabs (F2Q (currentSpeed (getM M1 (updateSpeed ACCEL_RATE M1 s_coast)))
               - F2Q (currentSpeed (getM M1 s_coast)))
         <= F2Q (accelStep ACCEL_RATE))%Q)
  /\ (reachable s_fraction
      /\ isRunning (getM M1 s_fraction) = true
      /\ numeric (getM M1 s_fraction)
      /\ (F2Q (currentSpeed (getM M1 (updateSpeed ACCEL_RATE M1 s_fraction)))
          - F2Q (currentSpeed (getM M1 s_fraction))
          == 80 + (1 # 131072))%Q
      /\ ~ (Qabs (F2Q (currentSpeed (getM M1 (updateSpeed ACCEL_RATE M1 s_fraction)))
                  - F2Q (currentSpeed (getM M1 s_fraction)))
            <= F2Q (accelStep ACCEL_RATE))%Q)
  /\ (reachable s_binade
      /\ isRunning (getM M1 s_binade) = true
      /\ numeric (getM M1 s_binade)
      /\ (F2Q (currentSpeed (getM M1 (updateSpeed ACCEL_RATE M1 s_binade)))
          - F2Q (currentSpeed (getM M1 s_binade))
          == 80 + (1 # 1024))%Q)
  /\ (let s := setSpeed M1 (of_int MAX_SPEED) s_nan in
      reachable s
      /\ isRunning (getM M1 s) = true
      /\ currentSpeed (getM M1 s) = S754_nan
      /\ currentSpeed (getM M1 (updateSpeed ACCEL_RATE M1 s))
         = of_int MAX_SPEED
      /\ fle (abs (fsub (currentSpeed (getM M1 (updateSpeed ACCEL_RATE M1 s)))
                        (currentSpeed (getM M1 s))))
             (accelStep ACCEL_RATE) = false).
Proof.
  split; [|split; [|split]].
  - split; [exact s_coast_reachable_b32|].
    split; [vm_compute; reflexivity|].
    split; [vm_compute; reflexivity|].
    split; [vm_compute; reflexivity|].
    intro H. vm_compute in H. apply H. reflexivity.
  - split; [exact s_fraction_reachable|].
    split; [vm_compute; reflexivity|].
    split; [repeat split|].
    split; [vm_compute; reflexivity|].
    intro H. vm_compute in H. apply H. reflexivity.
  - split; [exact s_binade_reachable|].
    split; [vm_compute; reflexivity|].
    split; [unfold numeric; evaluate32|].
    vm_compute. reflexivity.
  - cbv zeta.
    split; [apply reach_setSpeed; [exact s_nan_reachable|reflexivity]|].
    evaluate32.
Qed.

(** C2, amended.  In every reachable state, one call of [updateSpeed] on a
    motor that is running and whose [currentSpeed], [targetSpeed] and
    [normalSpeed] are numbers (not NaN) changes its [currentSpeed] by at
    most [accelStep + 2^-10], where [accelStep = 80] and [2^-10] is what the
    rounding of a binary32 sum below 32768 can add, and leaves it a number
    within the bounds; on a motor that is not running it sets [currentSpeed]
    to 0 at once. *)
Theorem C2_ramp_rate_bound : forall s id,
  reachable s ->
  (isRunning (getM id s) = true -> numeric (getM id s) ->
   (Qabs (F2Q (currentSpeed (getM id (updateSpeed ACCEL_RATE id s)))
          - F2Q (currentSpeed (getM id s)))
    <= F2Q (accelStep ACCEL_RATE) + (1 # 1024))%Q
   /\ in_range (currentSpeed (getM id (updateSpeed ACCEL_RATE id s))) = true)
  /\ (isRunning (getM id s) = false ->
      currentSpeed (getM id (updateSpeed ACCEL_RATE id s)) = of_int 0)
  /\ (F2Q (accelStep ACCEL_RATE) == 80)%Q.
Proof.
  intros s id H. rewrite updateSpeed_getM_b32.
  split; [|split; [apply rampM_stopped_b32|reflexivity]].
  intros Hrun Hnum.
  assert (W : motor_wf (getM id s)).
  { apply reachable_wf in H. apply state_wf_getM in H. apply H. }
  destruct (rampM_step_bound_b32 (boostConfig s) (clock s) _ W Hrun Hnum)
    as (V & R & B).
  split; [|exact R].
  setoid_replace (F2Q (accelStep ACCEL_RATE) + (1 # 1024))%Q
    with (inject_Z (units 80 + 2 ^ 139) / inject_Z (2 ^ 149))%Q
    by (vm_compute; reflexivity).
  apply ulps_close_Q; [exact V|apply W|exact B].
Qed.

Lemma C2_ramp_rate_bound_witness :
  reachable s_fraction
  /\ isRunning (getM M1 s_fraction) = true
  /\ numeric (getM M1 s_fraction)
  /\ (Qabs (F2Q (currentSpeed (getM M1 (updateSpeed ACCEL_RATE M1 s_fraction)))
            - F2Q (currentSpeed (getM M1 s_fraction)))
      <= F2Q (accelStep ACCEL_RATE) + (1 # 1024))%Q.
Proof.
  assert (R : isRunning (getM M1 s_fraction) = true) by (vm_compute; reflexivity).
  assert (N : numeric (getM M1 s_fraction)) by (repeat split).
  split; [exact s_fraction_reachable|]. split; [exact R|]. split; [exact N|].
  exact (proj1 (proj1 (C2_ramp_rate_bound s_fraction M1 s_fraction_reachable) R N)).
Defined.

(** ** C10: the run flag follows the speed command *)


Lemma setSpeed_getM_b32 id v s :
  getM id (setSpeed id v s)
  = let c := constrain v (of_int 0) (of_int MAX_SPEED) in
    let m := set_targetSpeed c (getM id s) in
    if fgt c (of_int 0) && negb (isRunning m) then set_isRunning true m
    else if feq c (of_int 0) then set_isRunning false m else m.
Proof.
  unfold setSpeed. cbv zeta. rewrite getM_modM_same_b32.
  destruct (_ && _)%bool; [|destruct (feq _ _)];
    rewrite ?getM_modM_same_b32; reflexivity.
Qed.





(** ** C3: emergency stop *)

Lemma estopBody_getM_b32 rate id s :
  getM id (estopBody rate s)
  = rampM rate (boostConfig s) (clock s) (getM id s).
Proof.
  unfold estopBody.
  destruct (updateSpeed_frame_b32 rate M1 s) as (Hc & Hk & _).
  destruct id.
  - change (getM M1 (delay accelUpdateInterval ?x)) with (getM M1 x).
    rewrite (updateSpeed_other_b32 rate M2). apply updateSpeed_getM_b32.
  - change (getM M2 (delay accelUpdateInterval ?x)) with (getM M2 x).
    rewrite updateSpeed_getM_b32, Hc, Hk.
    rewrite (updateSpeed_other_b32 rate M1). reflexivity.
Qed.

Lemma estopBody_frame_b32 rate s :
  boostConfig (estopBody rate s) = boostConfig s
  /\ clock (estopBody rate s) = wrap32 (clock s + accelUpdateInterval).
Proof.
  unfold estopBody.
  destruct (updateSpeed_frame_b32 rate M1 s) as (Hc & Hk & _).
  destruct (updateSpeed_frame_b32 rate M2 (updateSpeed rate M1 s)) as (Hc2 & Hk2 & _).
  cbn [delay set_clock boostConfig clock]. rewrite Hc2, Hk2, Hc, Hk. auto.
Qed.

Lemma estopIter_succ_b32 rate n s :
  estopIter rate (S n) s = estopIter rate n (estopBody rate s).
Proof. unfold estopIter. apply Nat.iter_succ_r. Qed.

Lemma estopIter_last_b32 rate n s :
  estopIter rate (S n) s = estopBody rate (estopIter rate n s).
Proof. reflexivity. Qed.

Lemma estopIter_elapsed_b32 rate n s :
  wrap32 (clock (estopIter rate n s) - clock s) = wrap32 (10 * Z.of_nat n).
Proof.
  induction n as [|n IH].
  - cbn [estopIter Nat.iter]. rewrite Z.sub_diag. reflexivity.
  - rewrite estopIter_last_b32.
    destruct (estopBody_frame_b32 rate (estopIter rate n s)) as (_ & Hk).
    rewrite Hk. unfold wrap32 in *. unfold accelUpdateInterval.
    rewrite Zminus_mod_idemp_l.
    replace (clock (estopIter rate n s) + 10 - clock s)
      with ((clock (estopIter rate n s) - clock s) + 10) by ring.
    rewrite <- Zplus_mod_idemp_l, IH, Zplus_mod_idemp_l.
    f_equal. lia.
Qed.

(** The loop of [emergencyStop] started at [millis() = t0]: once [50 - j]
    iterations' worth of time has passed, at most [j] more are made. *)
Lemma estopLoop_bound_b32 rate t0 : forall j fuel s,
  (j <= 50)%nat -> (j <= fuel)%nat ->
  wrap32 (clock s - t0) = 10 * (50 - Z.of_nat j) ->
  exists n, (n <= j)%nat
    /\ estopLoop rate t0 fuel s = Some (estopIter rate n s)
    /\ (forall k, (k < n)%nat -> estopCond t0 (estopIter rate k s) = true).
Proof.
  induction j as [|j IH]; intros fuel s Hj Hf Hclk.
  - exists 0%nat. split; [lia|]. split; [|intros k Hk; lia].
    assert (Hc : estopCond t0 s = false).
    { unfold estopCond, millis. rewrite Hclk. cbn. apply andb_false_r. }
    destruct fuel; cbn [estopLoop]; rewrite Hc; reflexivity.
  - destruct fuel as [|fuel]; [lia|].
    cbn [estopLoop].
    destruct (estopCond t0 s) eqn:Hc.
    + destruct (IH fuel (estopBody rate s)) as (n & Hn & Hrun & Hcond);
        try lia.
      * destruct (estopBody_frame_b32 rate s) as (_ & Hk). rewrite Hk.
        unfold wrap32 in *. unfold accelUpdateInterval.
        rewrite Zminus_mod_idemp_l.
        replace (clock s + 10 - t0) with ((clock s - t0) + 10) by ring.
        rewrite <- Zplus_mod_idemp_l, Hclk.
        rewrite Z.mod_small; lia.
      * exists (S n). split; [lia|]. rewrite estopIter_succ_b32.
        split; [exact Hrun|].
        intros [|k] Hk; [exact Hc|].
        rewrite estopIter_succ_b32. apply Hcond. lia.
    + exists 0%nat. split; [lia|]. split; [reflexivity|]. intros k Hk; lia.
Qed.

Lemma estopForce_getM_b32 id s :
  getM id (estopForce s)
  = set_currentSpeed (of_int 0)
      (set_isRunning false (set_timer None (getM id s))).
Proof.
  destruct s as [m1 m2 cfg now io out la ls lb]. destruct id; reflexivity.
Qed.

Lemma estopForce_frame_b32 s :
  clock (estopForce s) = clock s
  /\ pins (estopForce s) M1_PWM_PIN = false
  /\ pins (estopForce s) M2_PWM_PIN = false.
Proof. destruct s as [m1 m2 cfg now io out la ls lb]. repeat split. Qed.

(** A motor without active boost keeps its target through ticks. *)
Lemma rampM_no_boost_b32 rate cfg now m :
  boostActive m = false ->
  boostActive (rampM rate cfg now m) = false
  /\ targetSpeed (rampM rate cfg now m) = targetSpeed m.
Proof.
  intros Hb. unfold rampM, boostExpired. rewrite Hb.
  destruct (isRunning m); fields; split; (exact Hb || reflexivity).
Qed.

Lemma estopIter_no_boost_b32 rate id n : forall s,
  boostActive (getM id s) = false ->
  boostActive (getM id (estopIter rate n s)) = false
  /\ targetSpeed (getM id (estopIter rate n s)) = targetSpeed (getM id s).
Proof.
  induction n as [|n IH]; intros s Hb; [auto|].
  rewrite estopIter_last_b32, estopBody_getM_b32.
  destruct (IH s Hb) as (Hb' & Ht').
  destruct (rampM_no_boost_b32 rate (boostConfig (estopIter rate n s))
              (clock (estopIter rate n s)) _ Hb') as (A & B).
  split; [exact A|]. rewrite B. exact Ht'.
Qed.

Lemma estopIter_wf rate n : forall s,
  state_wf s -> state_wf (estopIter rate n s).
Proof.
  induction n as [|n IH]; intros s W; [exact W|].
  rewrite estopIter_last_b32. unfold estopBody.
  apply delay_wf. auto using updateSpeed_wf.
Qed.

(** Subtracting 80 from a binary32 number between 80 and [MAX_SPEED] is
    exact. *)
Lemma minus_80_exact c :
  valid c = true -> finite c = true ->
  units 80 < ulps c <= units MAX_SPEED ->
  sroundZ (ulps c - units 80) = ulps c - units 80.
Proof.
  intros V F [L U].
  destruct slack_facts as (E80 & EM & E140 & E164 & E276 & E24 & Hh & H137).
  destruct c as [s|s| |s m e]; try discriminate; cbn [ulps] in *; try lia.
  destruct s; cbn [cond_Zopp] in *.
  { assert (0 < Zpos m * 2 ^ (e + 149)); [|lia].
    destruct (valid_digits _ _ _ V) as (He & _).
    apply Z.mul_pos_pos; [lia|apply Z.pow_pos_nonneg; lia]. }
  destruct (valid_digits _ _ _ V) as (He & Hm & Hn).
  set (g := e + 149) in *.
  assert (Pg : 0 < 2 ^ g) by (apply Z.pow_pos_nonneg; lia).
  assert (Hg : g <= 140).
  { destruct (Z.le_gt_cases g 140) as [|G]; [assumption|exfalso].
    assert (2 ^ 23 <= Zpos m) by (apply Hn; lia).
    assert (2 ^ 141 <= 2 ^ g) by (apply Z.pow_le_mono_r; lia).
    assert (2 ^ 23 * 2 ^ 141 <= Zpos m * 2 ^ g)
      by (apply Z.mul_le_mono_nonneg; lia).
    change (2 ^ 23 * 2 ^ 141) with (2 ^ 164) in *. lia. }
  assert (Eu : units 80 = 80 * 2 ^ (149 - g) * 2 ^ g).
  { unfold units. rewrite <- Z.mul_assoc, <- Z.pow_add_r by lia.
    do 2 f_equal. lia. }
  apply (sroundZ_exact _ g); [lia| |].
  - rewrite Z.abs_eq by lia.
    apply Z.lt_trans with (Zpos m * 2 ^ g); [lia|].
    rewrite Z.pow_add_r by lia. apply Z.mul_lt_mono_pos_r; assumption.
  - rewrite Eu, <- Z.mul_sub_distr_r. apply Z.mod_mul. lia.
Qed.

(** One step of the ramp towards a target of zero: down by exactly 80, or
    onto zero from 80 or less. *)
Lemma rampStep_to_zero c :
  valid c = true -> in_range c = true ->
  valid (rampStep c (of_int 0)) = true
  /\ in_range (rampStep c (of_int 0)) = true
  /\ 0 <= ulps c - ulps (rampStep c (of_int 0)) <= units 80.
Proof.
  intros Vc Rc.
  destruct (rampStep_bound c (of_int 0) Vc ltac:(reflexivity) Rc ltac:(reflexivity))
    as (Vr & Rr & _).
  split; [exact Vr|]. split; [exact Rr|].
  apply in_range_spec in Rc; [|exact Vc]. destruct Rc as [Fc Bc].
  destruct (ulps_of_int_small 0 ltac:(lia)) as (V0 & F0 & U0).
  destruct (ulps_of_int_small 80 ltac:(lia)) as (Va & Fa & Ua).
  change (units 0) with 0 in U0.
  destruct slack_facts as (E80 & EM & E140 & E164 & E276 & E24 & Hh & H137).
  destruct (fsub_spec (of_int 0) c V0 Vc F0 Fc) as (Vs & Ns & [[Fs Us]|[_ B]]);
    [|rewrite U0 in B; lia].
  assert (Ud : ulps (fsub (of_int 0) c) = - ulps c).
  { rewrite Us, U0.
    replace (0 - ulps c) with (ulps (SFopp c)) by (rewrite ulps_opp; lia).
    rewrite sroundZ_ulps by (rewrite valid_opp; exact Vc). apply ulps_opp. }
  destruct (abs_finite (fsub (of_int 0) c) Vs Fs) as (Vb & Fb & Ub).
  unfold rampStep.
  rewrite fgt_spec by assumption.
  rewrite (fgt_spec (fsub (of_int 0) c)) by assumption.
  rewrite Ub, Ud, Ua, U0.
  destruct (Z.ltb_spec (units 80) (Z.abs (- ulps c))).
  - destruct (Z.ltb_spec 0 (- ulps c)); [lia|].
    destruct (fsub_spec c (of_int 80) Vc Va Fc Fa) as (V & N & [[F U]|[_ B]]);
      [|rewrite Ua in B; lia].
    rewrite Ua, minus_80_exact in U by (assumption || lia).
    destruct (constrain_spec _ V N) as (_ & _ & _ & Uc).
    rewrite (Uc F), U. lia.
  - destruct (constrain_spec (of_int 0) V0 ltac:(reflexivity)) as (_ & _ & _ & Uc).
    rewrite (Uc F0), U0. lia.
Qed.

(** C3, as stated, fails.  In the reachable state [s_coast] motor 1 is at
    5000 steps/s and not running: the first iteration of the deceleration
    loop takes it to 0, a decrease of 5000.  In the reachable state
    [s_boosted] the boost of motor 1 expires inside the loop: after 20
    iterations the speed is 1400, afterwards it rises again, the loop runs
    into its limit of 50 iterations at 2000 steps/s, and [targetSpeed] is
    2000 on return, not 0.  In [s_nan_one] the first iteration takes motor 1
    from NaN to 0, which no comparison counts as a decrease of at most
    [accelStep].  And the step is not within [accelStep] for every value of
    [ACCEL_RATE]: with 12 in its place, [5000 - 0.12f] rounds to
    [5000 - 123/1024], a decrease larger than [0.12f]. *)
Lemma C3_counterexample :
  (reachable s_coast
   /\ estopCond (millis (estopStart s_coast)) (estopStart s_coast) = true
   /\ (F2Q (currentSpeed (motor1 (estopStart s_coast))) == 5000)%Q
   /\ (F2Q (currentSpeed (motor1 (estopBody ACCEL_RATE (estopStart s_coast))))
       == 0)%Q
   /\ ~ (F2Q (currentSpeed (motor1 (estopStart s_coast)))
         - F2Q (currentSpeed (motor1 (estopBody ACCEL_RATE (estopStart s_coast))))
         <= F2Q (accelStep ACCEL_RATE))%Q)
  /\ (reachable s_boosted
      /\ exists s', emergencyStop ACCEL_RATE 50 s_boosted = Some s'
         /\ clock s' = 1100
         /\ (F2Q (currentSpeed (motor1 (estopIter ACCEL_RATE 20 (estopStart s_boosted))))
             == 1400)%Q
         /\ (F2Q (currentSpeed (motor1 (estopIter ACCEL_RATE 21 (estopStart s_boosted))))
             == 1480)%Q
         /\ (F2Q (currentSpeed (motor1 (estopIter ACCEL_RATE 50 (estopStart s_boosted))))
             == 2000)%Q
         /\ (F2Q (targetSpeed (motor1 s')) == 2000)%Q)
  /\ (reachable s_nan_one
      /\ estopCond (millis (estopStart s_nan_one)) (estopStart s_nan_one) = true
      /\ isRunning (motor1 (estopStart s_nan_one)) = true
      /\ boostActive (motor1 s_nan_one) = false
      /\ currentSpeed (motor1 (estopStart s_nan_one)) = S754_nan
      /\ currentSpeed (motor1 (estopBody ACCEL_RATE (estopStart s_nan_one)))
         = of_int 0
      /\ fle (fsub (currentSpeed (motor1 (estopStart s_nan_one)))
                   (currentSpeed
                      (motor1 (estopBody ACCEL_RATE (estopStart s_nan_one)))))
             (accelStep ACCEL_RATE) = false)
  /\ (reachable s_cruise
      /\ estopCond (millis (estopStart s_cruise)) (estopStart s_cruise) = true
      /\ isRunning (motor1 (estopStart s_cruise)) = true
      /\ boostActive (motor1 s_cruise) = false
      /\ (F2Q (currentSpeed (motor1 (estopStart s_cruise)))
          - F2Q (currentSpeed (motor1 (estopBody 12 (estopStart s_cruise))))
          == 123 # 1024)%Q
      /\ ~ (123 # 1024 <= F2Q (accelStep 12))%Q).
Proof.
  split; [|split; [|split]].
  - split; [exact s_coast_reachable_b32|].
    split; [vm_compute; reflexivity|].
    split; [vm_compute; reflexivity|].
    split; [vm_compute; reflexivity|].
    intro H. vm_compute in H. apply H. reflexivity.
  - split; [exact s_boosted_reachable_b32|].
    eexists. split; [vm_compute; reflexivity|]. evaluate32.
  - split; [exact s_nan_one_reachable|]. evaluate32.
  - split; [exact s_cruise_reachable_b32|].
    split; [vm_compute; reflexivity|].
    split; [vm_compute; reflexivity|].
    split; [vm_compute; reflexivity|].
    split; [vm_compute; reflexivity|].
    intro H. vm_compute in H. apply H. reflexivity.
Qed.

(** C3, amended.  From any state and for any value of [ACCEL_RATE],
    [emergencyStop] sets both targets to 0, makes [n <= 50] iterations of
    its loop (10 ms each on the [millis] clock, so at most 500 ms), and
    returns with both motors at [currentSpeed = 0], [isRunning = false],
    timers ended and both step outputs low.  A motor whose boost is not
    active at the call has [targetSpeed = 0] on return.  With the
    firmware's [ACCEL_RATE], called in a reachable state, each iteration
    decreases the [currentSpeed] of a motor that is running, had no active
    boost at the call and whose speed is a number (not NaN) by at most
    [accelStep], never increases it, and leaves it within the bounds; a
    motor that is not running is set to 0 at once. *)
Theorem C3_emergencyStop_bound : forall rate s fuel,
  (50 <= fuel)%nat ->
  exists n, (n <= 50)%nat /\
    let s0 := estopStart s in
    let s' := estopForce (estopIter rate n s0) in
    emergencyStop rate fuel s = Some s'
    /\ (forall id, targetSpeed (getM id s0) = of_int 0)
    /\ wrap32 (clock s' - clock s) = 10 * Z.of_nat n
    /\ (forall id, currentSpeed (getM id s') = of_int 0
                  /\ isRunning (getM id s') = false
                  /\ timer (getM id s') = None)
    /\ pins s' M1_PWM_PIN = false /\ pins s' M2_PWM_PIN = false
    /\ (forall id, boostActive (getM id s) = false ->
                   targetSpeed (getM id s') = of_int 0)
    /\ (forall k id, (k < n)%nat ->
          let sk := estopIter rate k s0 in
          (rate = ACCEL_RATE -> reachable s ->
           isRunning (getM id sk) = true ->
           boostActive (getM id s) = false ->
           is_nan (currentSpeed (getM id sk)) = false ->
           (0 <= F2Q (currentSpeed (getM id sk))
                 - F2Q (currentSpeed (getM id (estopBody rate sk)))
              <= F2Q (accelStep ACCEL_RATE))%Q
           /\ in_range (currentSpeed (getM id (estopBody rate sk))) = true)
          /\ (isRunning (getM id sk) = false ->
               currentSpeed (getM id (estopBody rate sk)) = of_int 0)).
Proof.
  intros rate s fuel Hfuel.
  destruct (estopLoop_bound_b32 rate (millis (estopStart s)) 50 fuel (estopStart s))
    as (n & Hn & Hrun & Hcond); try lia.
  { unfold millis. unfold wrap32. rewrite Z.sub_diag. reflexivity. }
  exists n. split; [exact Hn|]. cbv zeta.
  split; [unfold emergencyStop; rewrite Hrun; reflexivity|].
  split; [intros []; reflexivity|].
  split.
  { destruct (estopForce_frame_b32 (estopIter rate n (estopStart s))) as (Hk & _).
    rewrite Hk.
    change (clock s) with (clock (estopStart s)).
    rewrite estopIter_elapsed_b32. apply wrap32_small. lia. }
  split; [intros id; rewrite estopForce_getM_b32; repeat split|].
  split; [apply estopForce_frame_b32|].
  split; [apply estopForce_frame_b32|].
  split.
  { intros id Hb. rewrite estopForce_getM_b32.
    cbn [targetSpeed set_currentSpeed set_isRunning set_timer].
    assert (Hb0 : boostActive (getM id (estopStart s)) = false)
      by (destruct id; exact Hb).
    destruct (estopIter_no_boost_b32 rate id n (estopStart s) Hb0) as (_ & Ht).
    rewrite Ht. destruct id; reflexivity. }
  intros k id Hk. rewrite estopBody_getM_b32. split; [|apply rampM_stopped_b32].
  intros -> Hreach Hr Hb Hnan.
  assert (Hb0 : boostActive (getM id (estopStart s)) = false)
    by (destruct id; exact Hb).
  destruct (estopIter_no_boost_b32 ACCEL_RATE id k (estopStart s) Hb0) as (Hbk & Htk).
  assert (Ht0 : targetSpeed (getM id (estopIter ACCEL_RATE k (estopStart s)))
                = of_int 0) by (rewrite Htk; destruct id; reflexivity).
  assert (W : motor_wf (getM id (estopIter ACCEL_RATE k (estopStart s)))).
  { apply reachable_wf in Hreach.
    pose proof (estopIter_wf ACCEL_RATE k _ (estopStart_wf s Hreach)) as Wk.
    apply state_wf_getM in Wk. apply Wk. }
  set (m := getM id (estopIter ACCEL_RATE k (estopStart s))) in *.
  rewrite (rampM_running _ _ m Hr). cbn [currentSpeed set_currentSpeed].
  assert (Ex : expire (boostConfig (estopIter ACCEL_RATE k (estopStart s)))
                      (clock (estopIter ACCEL_RATE k (estopStart s))) m = m)
    by (unfold expire, boostExpired; rewrite Hbk; reflexivity).
  rewrite Ex, Ht0.
  destruct W as (Vc & _ & _ & _ & [N|R]); [congruence|].
  destruct (rampStep_to_zero (currentSpeed m) Vc R) as (Vr & Rr & B).
  split; [|exact Rr].
  split.
  - assert (F2Q (rampStep (currentSpeed m) (of_int 0)) <= F2Q (currentSpeed m))%Q
      by (apply ulps_le_Q; (assumption || lia)).
    lra.
  - setoid_replace (F2Q (accelStep ACCEL_RATE))
      with (inject_Z (units 80) / inject_Z (2 ^ 149))%Q
      by (vm_compute; reflexivity).
    apply ulps_diff_Q; (assumption || lia).
Qed.

Lemma C3_emergencyStop_bound_witness :
  (50 <= 50)%nat
  /\ exists s', emergencyStop ACCEL_RATE 50 s_cruise = Some s'
               /\ currentSpeed (motor1 s') = of_int 0
               /\ currentSpeed (motor2 s') = of_int 0.
Proof.
  split; [apply le_n|].
  destruct (C3_emergencyStop_bound ACCEL_RATE s_cruise 50 (le_n 50))
    as (n & _ & Hs & _ & _ & Hz & _).
  eexists. split; [exact Hs|].
  split; [apply (Hz M1)|apply (Hz M2)].
Defined.

(** The emergency stop from 5000 steps/s in binary32: 80 steps/s less per
    iteration, 1000 steps/s left after the 50 iterations that fit into
    500 ms, then the forced stop. *)
Example estop_from_cruise_binary32 :
  exists s', emergencyStop ACCEL_RATE 50 s_cruise = Some s'
    /\ clock s' = 1200
    /\ currentSpeed (motor1 (estopIter ACCEL_RATE 1 (estopStart s_cruise)))
       = of_int 4920
    /\ currentSpeed (motor1 (estopIter ACCEL_RATE 2 (estopStart s_cruise)))
       = of_int 4840
    /\ currentSpeed (motor1 (estopIter ACCEL_RATE 50 (estopStart s_cruise)))
       = of_int 1000
    /\ currentSpeed (motor1 s') = of_int 0
    /\ targetSpeed (motor1 s') = of_int 0.
Proof.
  eexists. split; [vm_compute; reflexivity|]. evaluate32.
Qed.

(** ** C5: the boost lifecycle *)

Lemma updatesAt_getM_b32 rate id ds : forall s,
  getM id (updatesAt rate id ds s)
  = ticksM rate (boostConfig s) (times (clock s) ds) (getM id s).
Proof.
  induction ds as [|d rest IH]; intros s; [reflexivity|].
  cbn [updatesAt fold_left times ticksM].
  change (fold_left _ rest ?x) with (updatesAt rate id rest x) at 1.
  rewrite IH.
  destruct (updateSpeed_frame_b32 rate id (delay d s)) as (Hc & Hk & _).
  rewrite Hc, Hk, updateSpeed_getM_b32.
  destruct id; reflexivity.
Qed.

Lemma updatesAt_boostConfig rate id : forall ds s,
  boostConfig (updatesAt rate id ds s) = boostConfig s.
Proof.
  induction ds as [|d rest IH]; intros s; [reflexivity|].
  cbn [updatesAt fold_left].
  change (fold_left _ rest ?y) with (updatesAt rate id rest y).
  rewrite IH.
  destruct (updateSpeed_frame_b32 rate id (delay d s)) as (Hc & _).
  rewrite Hc. reflexivity.
Qed.

Lemma applyBoost_getM_b32 id v s :
  enabled (boostConfig s) = true ->
  getM id (applyBoost id v s)
  = let b := fmul v (multiplier (boostConfig s)) in
    let b := if fgt b (of_int MAX_SPEED) then of_int MAX_SPEED else b in
    set_targetSpeed b
      (set_boostStartTime (millis s)
         (set_boostActive true
            (set_boostSpeed b (set_normalSpeed v (getM id s))))).
Proof.
  intros He. unfold applyBoost. rewrite He. cbn [negb].
  destruct s as [m1 m2 cfg now io out la ls lb]. destruct id; reflexivity.
Qed.

(** While the boost is pending, ticks keep it and the boosted target. *)
Lemma rampM_pending_b32 rate cfg now m :
  isRunning m = true -> boostActive m = true -> boostPending cfg m now ->
  rampM rate cfg now m
  = set_currentSpeed
      (constrain (rampValue rate m) (of_int 0) (of_int MAX_SPEED)) m.
Proof.
  intros Hr Hb Hp. unfold rampM, boostExpired. rewrite Hr, Hb. cbn [negb andb].
  unfold boostPending in Hp.
  destruct (duration cfg <=? _) eqn:E; [|reflexivity].
  apply Z.leb_le in E. lia.
Qed.

Lemma expire_due cfg now m :
  isRunning m = true -> boostActive m = true -> ~ boostPending cfg m now ->
  expire cfg now m = set_targetSpeed (normalSpeed m) (set_boostActive false m).
Proof.
  intros Hr Hb Hp. unfold expire, boostExpired. rewrite Hb. cbn [andb].
  unfold boostPending in Hp.
  destruct (duration cfg <=? _) eqn:E; [reflexivity|].
  apply Z.leb_gt in E. contradiction.
Qed.

Lemma ticksM_pending_b32 rate cfg : forall ts m,
  isRunning m = true -> boostActive m = true ->
  Forall (boostPending cfg m) ts ->
  isRunning (ticksM rate cfg ts m) = true
  /\ boostActive (ticksM rate cfg ts m) = true
  /\ targetSpeed (ticksM rate cfg ts m) = targetSpeed m
  /\ boostStartTime (ticksM rate cfg ts m) = boostStartTime m
  /\ normalSpeed (ticksM rate cfg ts m) = normalSpeed m
  /\ (motor_wf m -> motor_wf (ticksM rate cfg ts m)).
Proof.
  induction ts as [|t rest IH]; intros m Hr Hb Hp.
  - cbn. auto 10.
  - cbn [ticksM fold_left].
    change (fold_left _ rest ?x) with (ticksM rate cfg rest x).
    inversion Hp as [|t' rest' Ht Hrest]; subst.
    pose proof (rampM_wf rate cfg t m) as Wm.
    rewrite (rampM_pending_b32 rate cfg t m Hr Hb Ht) in *.
    set (m1 := set_currentSpeed _ m) in *.
    destruct (IH m1) as (A & B & C & D & E & F); try assumption.
    do 5 (split; [assumption|]).
    intros W. apply F, Wm, W.
Qed.

(** The smaller of two floats that are not NaN, by the test the firmware
    uses. *)
Lemma cap_is_min b :
  is_nan b = false ->
  let c := if fgt b (of_int MAX_SPEED) then of_int MAX_SPEED else b in
  fle c b = true /\ fle c (of_int MAX_SPEED) = true
  /\ (c = b \/ c = of_int MAX_SPEED).
Proof.
  intros N c. subst c. destruct (fgt b (of_int MAX_SPEED)) eqn:E.
  - split; [apply fgt_fle, E|]. split; [reflexivity|]. right. reflexivity.
  - split; [apply fle_refl, N|].
    split; [apply not_fgt_fle; auto|]. left. reflexivity.
Qed.

(** C5, as stated, fails: in the reachable state [s_parked] the boost of
    motor 1 is active since time 0 with a duration of 800 ms, and no tick has
    run since; the tick at time 800 is the first with
    [now - boostStartTime >= duration], and it neither clears [boostActive]
    nor sets [targetSpeed] to [normalSpeed], because the motor is not
    running.  And in [s_nan_boost], where the product [0 * inf] is NaN,
    [boostSpeed] is NaN, not the smaller of the product and [MAX_SPEED]. *)
Lemma C5_counterexample :
  (reachable s_parked
   /\ boostActive (getM M1 s_parked) = true
   /\ boostStartTime (getM M1 s_parked) = 0
   /\ duration (boostConfig s_parked) = 800
   /\ clock s_parked = 0
   /\ boostActive (getM M1 (tick ACCEL_RATE (delay 800 s_parked))) = true
   /\ normalSpeed (getM M1 (tick ACCEL_RATE (delay 800 s_parked))) = of_int 2000
   /\ targetSpeed (getM M1 (tick ACCEL_RATE (delay 800 s_parked))) = of_int 0)
  /\ (reachable s_nan_boost
      /\ enabled (boostConfig s_nan_boost) = true
      /\ normalSpeed (getM M1 s_nan_boost) = of_int 0
      /\ boostSpeed (getM M1 s_nan_boost) = S754_nan
      /\ fle (boostSpeed (getM M1 s_nan_boost)) (of_int MAX_SPEED) = false).
Proof.
  split.
  - split; [exact s_parked_reachable_b32|]. evaluate32.
  - split; [exact s_nan_boost_reachable|]. evaluate32.
Qed.

(** C5, amended.  With boost disabled, [applyBoost(m, v)] is [setSpeed(m, v)]:
    [targetSpeed] becomes the clamped request and the boost fields are left
    alone.  With boost enabled it sets [targetSpeed = boostSpeed], the
    binary32 product [v * multiplier] capped at [MAX_SPEED] (the smaller of
    the two whenever the product is not NaN), [normalSpeed = v],
    [boostActive = true] and [boostStartTime = millis()].  From then on, for
    a motor that is running, the ticks at which
    [millis() - boostStartTime < duration] (in 32-bit unsigned arithmetic)
    keep the boost and its target, and the first tick at which
    [millis() - boostStartTime >= duration] clears [boostActive] and sets
    [targetSpeed = normalSpeed]; in that tick, in a run from a reachable
    state, [currentSpeed], if it and [normalSpeed] are numbers (not NaN),
    moves by at most [accelStep + 2^-10] and stays within the bounds.  A
    tick on a motor that is not running leaves the boost fields and the
    target as they are. *)
Theorem C5_boost_lifecycle : forall s id v,
  let s0 := applyBoost id v s in
  (enabled (boostConfig s) = false ->
     s0 = setSpeed id v s
     /\ targetSpeed (getM id s0) = constrain v (of_int 0) (of_int MAX_SPEED)
     /\ boostActive (getM id s0) = boostActive (getM id s)
     /\ boostStartTime (getM id s0) = boostStartTime (getM id s)
     /\ boostSpeed (getM id s0) = boostSpeed (getM id s)
     /\ normalSpeed (getM id s0) = normalSpeed (getM id s))
  /\ (enabled (boostConfig s) = true ->
       let b := fmul v (multiplier (boostConfig s)) in
       targetSpeed (getM id s0) = boostSpeed (getM id s0)
       /\ boostSpeed (getM id s0)
          = (if fgt b (of_int MAX_SPEED) then of_int MAX_SPEED else b)
       /\ (is_nan b = false ->
             fle (boostSpeed (getM id s0)) b = true
             /\ fle (boostSpeed (getM id s0)) (of_int MAX_SPEED) = true
             /\ (boostSpeed (getM id s0) = b
                 \/ boostSpeed (getM id s0) = of_int MAX_SPEED))
       /\ normalSpeed (getM id s0) = v
       /\ boostActive (getM id s0) = true
       /\ boostStartTime (getM id s0) = millis s
       /\ currentSpeed (getM id s0) = currentSpeed (getM id s)
       /\ isRunning (getM id s0) = isRunning (getM id s)
       /\ boostConfig s0 = boostConfig s)
  /\ (forall s1 ds d,
       let m := getM id s1 in
       let sb := updatesAt ACCEL_RATE id ds s1 in
       let se := updateSpeed ACCEL_RATE id (delay d sb) in
       isRunning m = true -> boostActive m = true ->
       Forall (boostPending (boostConfig s1) m) (times (clock s1) ds) ->
       ~ boostPending (boostConfig s1) m (clock (delay d sb)) ->
       boostActive (getM id sb) = true
       /\ targetSpeed (getM id sb) = targetSpeed m
       /\ boostActive (getM id se) = false
       /\ targetSpeed (getM id se) = normalSpeed m
       /\ (reachable s1 ->
           is_nan (currentSpeed (getM id sb)) = false ->
           is_nan (normalSpeed m) = false ->
           (Qabs (F2Q (currentSpeed (getM id se))
                  - F2Q (currentSpeed (getM id sb)))
            <= F2Q (accelStep ACCEL_RATE) + (1 # 1024))%Q
           /\ in_range (currentSpeed (getM id se)) = true))
  /\ (forall s1,
       let m := getM id s1 in
       let m' := getM id (updateSpeed ACCEL_RATE id s1) in
       isRunning m = false ->
       boostActive m' = boostActive m /\ targetSpeed m' = targetSpeed m
       /\ boostStartTime m' = boostStartTime m
       /\ normalSpeed m' = normalSpeed m).
Proof.
  intros s id v s0. split; [|split; [|split]].
  - intros He. subst s0. unfold applyBoost. rewrite He. cbn [negb].
    split; [reflexivity|].
    rewrite setSpeed_getM_b32. cbv zeta.
    destruct (_ && _)%bool; [|destruct (feq _ _)]; repeat split.
  - intros He b. subst s0. rewrite (applyBoost_getM_b32 id v s He).
    cbv zeta. fold b. fields.
    split; [reflexivity|]. split; [reflexivity|].
    split; [apply cap_is_min|].
    split; [reflexivity|]. split; [reflexivity|]. split; [reflexivity|].
    split; [reflexivity|]. split; [reflexivity|].
    unfold applyBoost. rewrite He.
    destruct s as [m1 m2 cfg now io out la ls lb]. destruct id; reflexivity.
  - intros s1 ds d m sb se Hr Hb Hp He.
    assert (Hsb : getM id sb
                  = ticksM ACCEL_RATE (boostConfig s1) (times (clock s1) ds) m)
      by (subst sb; apply updatesAt_getM_b32).
    destruct (ticksM_pending_b32 ACCEL_RATE (boostConfig s1) _ m Hr Hb Hp)
      as (A & B & C & D & E & F).
    rewrite <- Hsb in A, B, C, D, E, F.
    assert (Hcfg : boostConfig sb = boostConfig s1)
      by (subst sb; apply updatesAt_boostConfig).
    assert (Hse : getM id se
                  = rampM ACCEL_RATE (boostConfig s1) (clock (delay d sb))
                          (getM id sb)).
    { subst se. rewrite updateSpeed_getM_b32.
      change (boostConfig (delay d sb)) with (boostConfig sb).
      rewrite Hcfg. destruct id; reflexivity. }
    assert (He' : ~ boostPending (boostConfig s1) (getM id sb) (clock (delay d sb))).
    { unfold boostPending in *. rewrite D. exact He. }
    pose proof (expire_due _ _ _ A B He') as Hx.
    split; [exact B|]. split; [exact C|].
    rewrite Hse, (rampM_running _ _ _ A), Hx. fields.
    split; [reflexivity|]. split; [exact E|].
    intros Hreach Nc Nn.
    assert (W : motor_wf (getM id sb)).
    { apply F. apply reachable_wf in Hreach. apply state_wf_getM in Hreach.
      apply Hreach. }
    destruct W as (Vc & _ & Vn & _ & [N|R]); [congruence|].
    rewrite E in Vn.
    destruct (rampStep_bound (currentSpeed (getM id sb)) (normalSpeed m)
                Vc Vn R Nn) as (V' & R' & Bd).
    rewrite E. split; [|exact R'].
    setoid_replace (F2Q (accelStep ACCEL_RATE) + (1 # 1024))%Q
      with (inject_Z (units 80 + 2 ^ 139) / inject_Z (2 ^ 149))%Q
      by (vm_compute; reflexivity).
    apply ulps_close_Q; assumption.
  - intros s1 m m' Hr. subst m'. rewrite updateSpeed_getM_b32.
    unfold rampM. fold m. rewrite Hr. repeat split.
Qed.

(** The boost shape of a [BOOST:FORWARD:2000] from rest with the default
    configuration, in binary32: 3000 steps/s after 38 ticks, the boost
    still on at 790 ms, ended by the tick at 800 ms, which starts the ramp
    back (2920), and 2000 steps/s 12 ticks later. *)
Example boost_shape_binary32 :
  let at_tick n :=
    getM M1 (after ((0, Some (CmdBoost BoostForward (of_int 2000)))
                    :: idle n)) in
  currentSpeed (at_tick 37%nat) = of_int 2960
  /\ currentSpeed (at_tick 38%nat) = of_int 3000
  /\ (boostActive (at_tick 79%nat) = true
      /\ currentSpeed (at_tick 79%nat) = of_int 3000)
  /\ (boostActive (at_tick 80%nat) = false
      /\ targetSpeed (at_tick 80%nat) = of_int 2000
      /\ currentSpeed (at_tick 80%nat) = of_int 2920)
  /\ currentSpeed (at_tick 91%nat) = of_int 2040
  /\ currentSpeed (at_tick 92%nat) = of_int 2000.
Proof. evaluate32. Qed.
